(** * audiobook-gen: a shallow embedding of the document-to-audio pipeline

    The development follows [src/audiobook-gen.py]: the string helpers the
    script takes from Python's [str] and [re], the text normalisation of
    [TextToAudio._run_kokoro], the file naming of [clean_filename] and
    [BookReader.partBasename], part extraction and range selection of
    [BookReader], the per-part synthesis of [TextToAudio.run], the job loop
    of [AudioGenerationWorker.run] and the command line of [main].

    Conventions.
    - A Python [str] is a list of Unicode code points ([pystr]).
    - A Python [int] is a [Z]; a Python [float] is read as the exact rational
      it denotes ([Q]): rounding to binary64 is not part of the model.
    - Effects (files, console, Qt signals, exceptions) are threaded through
      a state-and-exception monad over a [world].
    - What the script takes from outside (the speech engine, numpy's
      arithmetic on its tensors, the encoder, the EPUB reader, the texts of
      the runtime's error messages) is a parameter, [Externals]. *)

From Stdlib Require Import ZArith NArith QArith Qround List String Ascii Lia Bool.
From Stdlib Require Import DecimalString DecimalZ.
From Stdlib Require Import Lqa.
From stdpp Require Import base option list gmap sorting.

Local Open Scope Z_scope.
Local Open Scope list_scope.

(** ** Python strings *)

Definition pystr : Type := list N.

Definition chr (a : ascii) : N := N_of_ascii a.
Definition str (s : string) : pystr := List.map chr (list_ascii_of_string s).

Definition LF : N := 10%N.
Definition TAB : N := 9%N.
Definition SPACE : N := 32%N.
Definition NBSP : N := 160%N.
Definition APOSTROPHE : N := 39%N.
Definition DOT : N := 46%N.
Definition BANG : N := 33%N.
Definition QUESTION : N := 63%N.
Definition HYPHEN : N := 45%N.
Definition UNDERSCORE : N := 95%N.
Definition SLASH : N := 47%N.

Definition in_range (lo hi c : N) : bool := ((lo <=? c) && (c <=? hi))%N.

(** [c.isspace()]: the white space [str.strip()] and [str.split()] remove. *)
Definition isspace (c : N) : bool :=
  in_range 9 13 c || in_range 28 32 c || (c =? 133)%N || (c =? NBSP)%N
  || (c =? 5760)%N || in_range 8192 8202 c || (c =? 8232)%N || (c =? 8233)%N
  || (c =? 8239)%N || (c =? 8287)%N || (c =? 12288)%N.

(** The parts of the Unicode character database that [str.isalnum], [\w] and
    [int()] consult for code points above ASCII.  The tables are data of the
    Python runtime, not of the script, so they are a parameter; of their
    contents only this much is used: no white space is a letter or a
    number. *)
Class UnicodeDB := {
  uni_isalnum : N -> bool;
  uni_decimal : N -> option Z;
  uni_space_not_alnum : forall c, isspace c = true -> uni_isalnum c = false
}.

(** The database restricted to ASCII, for running the definitions on ASCII
    input. *)
Definition ascii_db : UnicodeDB :=
  {| uni_isalnum := fun _ => false; uni_decimal := fun _ => None;
     uni_space_not_alnum := fun _ _ => eq_refl |}.

Section Chars.
Context {db : UnicodeDB}.

(** [c.isalnum()] *)
Definition isalnum (c : N) : bool :=
  if (c <? 128)%N
  then in_range 48 57 c || in_range 65 90 c || in_range 97 122 c
  else uni_isalnum c.

(** [\w] of [re] on [str] patterns: alphanumeric or underscore. *)
Definition is_word (c : N) : bool := isalnum c || (c =? UNDERSCORE)%N.

(** The value of a decimal digit, as [int()] reads it. *)
Definition digit_value (c : N) : option Z :=
  if (c <? 128)%N
  then (if in_range 48 57 c then Some (Z.of_N c - 48) else None)
  else uni_decimal c.
End Chars.

Module Str.

(** [a == b] *)
Fixpoint eqb (a b : pystr) : bool :=
  match a, b with
  | [], [] => true
  | x :: a', y :: b' => (x =? y)%N && eqb a' b'
  | _, _ => false
  end.

(** [s.startswith(p)] *)
Fixpoint startswith (p s : pystr) : bool :=
  match p, s with
  | [], _ => true
  | _ :: _, [] => false
  | a :: p', b :: s' => (a =? b)%N && startswith p' s'
  end.

(** [s.endswith(p)] *)
Definition endswith (p s : pystr) : bool := startswith (rev p) (rev s).

(** [s[:-n]] for [n > 0] *)
Definition drop_last (n : nat) (s : pystr) : pystr :=
  firstn (length s - n) s.

(** [s[:n]] for [n >= 0] *)
Definition prefix (n : nat) (s : pystr) : pystr := firstn n s.

(** [s.replace(old, new)].  The scan goes left to right and resumes after
    each occurrence; [skip] counts the characters of the occurrence that
    are still to be passed over. *)
Fixpoint replace_go (old new : pystr) (skip : nat) (s : pystr) : pystr :=
  match s with
  | [] => []
  | c :: s' =>
      match skip with
      | S k => replace_go old new k s'
      | O => if startswith old s
             then new ++ replace_go old new (length old - 1) s'
             else c :: replace_go old new 0 s'
      end
  end.

Definition replace (old new s : pystr) : pystr :=
  match old with
  | [] => new ++ flat_map (fun c => c :: new) s
  | _ :: _ => replace_go old new 0 s
  end.

(** [s.strip()] *)
Fixpoint lstrip (s : pystr) : pystr :=
  match s with
  | c :: s' => if isspace c then lstrip s' else s
  | [] => []
  end.

Definition rstrip (s : pystr) : pystr := rev (lstrip (rev s)).

Definition strip (s : pystr) : pystr := rstrip (lstrip s).

(** [s.split()]: the maximal runs of characters that are not white space. *)
Fixpoint split_go (cur : pystr) (s : pystr) : list pystr :=
  match s with
  | [] => match cur with [] => [] | _ => [rev cur] end
  | c :: s' =>
      if isspace c
      then match cur with
           | [] => split_go [] s'
           | _ => rev cur :: split_go [] s'
           end
      else split_go (c :: cur) s'
  end.

Definition split (s : pystr) : list pystr := split_go [] s.

(** [sep.join(parts)] *)
Fixpoint join (sep : pystr) (parts : list pystr) : pystr :=
  match parts with
  | [] => []
  | [p] => p
  | p :: rest => p ++ sep ++ join sep rest
  end.

(** [str(n)] for an [int] *)
Definition of_Z (n : Z) : pystr := str (NilZero.string_of_int (Z.to_int n)).

(** [f"{n:03d}"]: sign, then the digits padded with zeros to three
    columns in all. *)
Definition format_03d (n : Z) : pystr :=
  let sign := if n <? 0 then [HYPHEN] else [] in
  let digits := of_Z (Z.abs n) in
  sign ++ repeat 48%N (3 - length sign - length digits) ++ digits.

End Str.

Section IntParsing.
Context {db : UnicodeDB}.

(** The digits of an [int()] literal: decimal digits, with single
    underscores allowed between two digits.  [count] is the number of
    digits read so far. *)
Fixpoint parse_digits (acc : Z) (count : nat) (after_digit : bool)
         (s : pystr) : option (Z * nat) :=
  match s with
  | [] => if after_digit then Some (acc, count) else None
  | c :: s' =>
      if (c =? UNDERSCORE)%N
      then (if after_digit then parse_digits acc count false s' else None)
      else match digit_value c with
           | Some d => parse_digits (10 * acc + d) (S count) true s'
           | None => None
           end
  end.

(** [sys.get_int_max_str_digits()], the default of CPython 3.11 and later. *)
Definition int_max_str_digits : nat := 4300.

(** [int(x)]: [None] stands for [ValueError]. *)
Definition py_int (x : pystr) : option Z :=
  let x := Str.strip x in
  let '(neg, body) :=
    match x with
    | c :: r => if (c =? HYPHEN)%N then (true, r)
                else if (c =? 43)%N then (false, r) else (false, x)
    | [] => (false, x)
    end in
  match parse_digits 0 0 false body with
  | Some (v, count) =>
      if (int_max_str_digits <? count)%nat then None
      else Some (if neg then - v else v)
  | None => None
  end.
End IntParsing.

(** ** File names *)

Section Naming.
Context {db : UnicodeDB}.

(** [clean_filename]: the list is rewritten in place, then joined. *)
Definition clean_part (p : pystr) : pystr :=
  Str.strip
    (List.map (fun c => if isalnum c || (c =? HYPHEN)%N || (c =? UNDERSCORE)%N
                        then c else UNDERSCORE) p).

Definition clean_filename (parts : list pystr) : pystr :=
  Str.join (str "_") (List.map clean_part parts).
End Naming.

(** [os.path.join(a, b)] of [posixpath], for two components. *)
Definition path_join (a b : pystr) : pystr :=
  if Str.startswith [SLASH] b then b
  else if Str.eqb a [] || Str.endswith [SLASH] a then a ++ b
  else a ++ [SLASH] ++ b.

(** ** Regular expressions

    The fragment of [re] that the script uses: a pattern is a sequence of
    atoms, matched with backtracking; [\w+] is greedy and captures. *)

Inductive re_atom :=
| Boundary               (* \b *)
| WordPlus               (* (\w+) *)
| Lit (c : N).           (* a literal character *)

Section Regex.
Context {db : UnicodeDB}.

Definition is_word_at (c : option N) : bool :=
  match c with Some c => is_word c | None => false end.

(** The greedy [(\w+)]: the longest run of word characters after which the
    rest of the pattern, [k], matches.  Returns the captured text, the
    groups of [k] and the number of characters consumed. *)
Fixpoint word_plus (k : N -> pystr -> option (list pystr * nat))
         (s : pystr) : option (pystr * list pystr * nat) :=
  match s with
  | x :: s' =>
      if is_word x then
        match word_plus k s' with
        | Some (g, gs, n) => Some (x :: g, gs, S n)
        | None =>
            match k x s' with
            | Some (gs, n) => Some ([x], gs, S n)
            | None => None
            end
        end
      else None
  | [] => None
  end.

(** A match of pattern [p] that starts at the head of [s], [prev] being the
    character before it: the captured groups and the length of the match. *)
Fixpoint match_here (p : list re_atom) (prev : option N) (s : pystr)
  : option (list pystr * nat) :=
  match p with
  | [] => Some ([], O)
  | Boundary :: p' =>
      if xorb (is_word_at prev) (is_word_at (head s))
      then match_here p' prev s else None
  | Lit c :: p' =>
      match s with
      | x :: s' =>
          if (x =? c)%N
          then match match_here p' (Some x) s' with
               | Some (gs, n) => Some (gs, S n)
               | None => None
               end
          else None
      | [] => None
      end
  | WordPlus :: p' =>
      match word_plus (fun x s' => match_here p' (Some x) s') s with
      | Some (g, gs, n) => Some (g :: gs, n)
      | None => None
      end
  end.

(** [re.sub(p, repl, s)], [repl] given as a function of the groups.  The
    scan goes left to right; after a match of [n] characters it resumes
    behind the match ([skip] counts what is left of it). *)
Fixpoint sub_go (p : list re_atom) (repl : list pystr -> pystr)
         (prev : option N) (skip : nat) (s : pystr) : pystr :=
  match s with
  | [] =>
      match skip, match_here p prev [] with
      | O, Some (gs, _) => repl gs
      | _, _ => []
      end
  | c :: s' =>
      match skip with
      | S k => sub_go p repl (Some c) k s'
      | O =>
          match match_here p prev s with
          | Some (gs, S n) => repl gs ++ sub_go p repl (Some c) n s'
          | Some (gs, O) => repl gs ++ c :: sub_go p repl (Some c) O s'
          | None => c :: sub_go p repl (Some c) O s'
          end
      end
  end.

Definition re_sub (p : list re_atom) (repl : list pystr -> pystr)
           (s : pystr) : pystr :=
  sub_go p repl None O s.

(** ** Text normalisation

    The first statements of [TextToAudio._run_kokoro]. *)

(** [r"\b(\w+)'(\w+)\b"] *)
Definition contraction_re : list re_atom :=
  [Boundary; WordPlus; Lit APOSTROPHE; WordPlus; Boundary].

(** [r"\1\2"] *)
Definition join_groups (gs : list pystr) : pystr := concat gs.

Definition normalize (txt : pystr) : pystr :=
  let txt := Str.replace [LF] [SPACE] txt in
  let txt := Str.replace [NBSP] [SPACE] txt in
  let txt := Str.replace (str ". . .") (str ".") txt in
  let txt := re_sub contraction_re join_groups txt in
  let txt := Str.replace [DOT] [DOT; LF] txt in
  let txt := Str.replace [BANG] [BANG; LF] txt in
  let txt := Str.replace [QUESTION] [QUESTION; LF] txt in
  txt.
End Regex.

(** The normalisation as the specification words it: five passes over the
    text, each defined on its own and without [str.replace] or [re].  The
    theorems below compare it with [normalize]. *)

Definition newline_to_space (c : N) : N := if (c =? LF)%N then SPACE else c.

Definition nbsp_to_space (c : N) : N := if (c =? NBSP)%N then SPACE else c.

Definition is_ellipsis (c1 c2 c3 c4 c5 : N) : bool :=
  (c1 =? DOT)%N && (c2 =? SPACE)%N && (c3 =? DOT)%N && (c4 =? SPACE)%N
  && (c5 =? DOT)%N.

(** Every [". . ."], taken from the left, becomes ["."]. *)
Fixpoint collapse_ellipsis (s : pystr) : pystr :=
  match s with
  | c1 :: ((c2 :: c3 :: c4 :: c5 :: r) as t) =>
      if is_ellipsis c1 c2 c3 c4 c5 then DOT :: collapse_ellipsis r
      else c1 :: collapse_ellipsis t
  | c :: t => c :: collapse_ellipsis t
  | [] => []
  end.

(** Where the reader of contraction-like tokens stands: outside any word, in
    a word that started at a word boundary, or in the word that follows an
    apostrophe it has just removed. *)
Inductive token_state := Outside | InWord | AfterApostrophe.

Section SpecNormalize.
Context {db : UnicodeDB}.

(** In a token made of a word, an apostrophe and a word, the apostrophe is
    dropped; tokens are taken from the left and do not overlap. *)
Fixpoint strip_contractions (st : token_state) (s : pystr) : pystr :=
  match s with
  | [] => []
  | c :: r =>
      if is_word c
      then c :: strip_contractions
                  (match st with AfterApostrophe => AfterApostrophe | _ => InWord end) r
      else if (c =? APOSTROPHE)%N
              && match st with InWord => true | _ => false end
              && is_word_at (head r)
      then strip_contractions AfterApostrophe r
      else c :: strip_contractions Outside r
  end.

Definition is_terminator (c : N) : bool :=
  (c =? DOT)%N || (c =? BANG)%N || (c =? QUESTION)%N.

Definition break_sentences (s : pystr) : pystr :=
  flat_map (fun c => if is_terminator c then [c; LF] else [c]) s.

Definition normalize_spec (txt : pystr) : pystr :=
  break_sentences
    (strip_contractions Outside
       (collapse_ellipsis
          (List.map nbsp_to_space (List.map newline_to_space txt)))).
End SpecNormalize.

(** ** The world the script runs in *)

Inductive exn_class :=
| ValueError | IndexError | EOFError | ZeroDivisionError
| FileNotFoundError | FileExistsError | NotADirectoryError
| IsADirectoryError | UnicodeDecodeError
| ImportError | EpubException | RuntimeError.

Record exn := Exn { exn_class_of : exn_class; exn_msg : pystr }.

Inductive file :=
| TextFile (text : pystr)
| WavFile (frames : list Z)       (* mono, 16 bit, 24 kHz *)
| OpusFile (packets : list Z).

(** What the script makes observable: console output, prompts, and the Qt
    signals of the worker thread. *)
Inductive event :=
| Print (line : pystr)
| Prompt (text : pystr)
| Progress (message : pystr) (fraction : Q)
| Finished (success : bool)
| Error (message : pystr).

Record world := World {
  fs : gmap pystr file;            (* regular files, by path *)
  dirs : gset pystr;               (* directories *)
  stdin : list pystr               (* the lines still to be read *)
}.

Inductive outcome (A : Type) :=
| Ret (a : A)
| Raise (e : exn).
Arguments Ret {A} a.
Arguments Raise {A} e.

Record run_of (A : Type) := Run {
  result : outcome A;
  final : world;
  emitted : list event
}.
Arguments Run {A} _ _ _.
Arguments result {A} _.
Arguments final {A} _.
Arguments emitted {A} _.

Definition M (A : Type) : Type := world -> run_of A.

Definition ret {A} (a : A) : M A := fun w => Run (Ret a) w [].

Definition bind {A B} (m : M A) (k : A -> M B) : M B :=
  fun w =>
    let r := m w in
    match result r with
    | Ret a =>
        let r' := k a (final r) in
        Run (result r') (final r') (emitted r ++ emitted r')
    | Raise e => Run (Raise e) (final r) (emitted r)
    end.

Definition raise {A} (e : exn) : M A := fun w => Run (Raise e) w [].

(** [try: m except Exception as e: h e] *)
Definition try_except {A} (m : M A) (h : exn -> M A) : M A :=
  fun w =>
    let r := m w in
    match result r with
    | Ret a => r
    | Raise e =>
        let r' := h e (final r) in
        Run (result r') (final r') (emitted r ++ emitted r')
    end.

Definition emit (e : event) : M unit := fun w => Run (Ret tt) w [e].
Definition get_world : M world := fun w => Run (Ret w) w [].
Definition put_world (w' : world) : M unit := fun _ => Run (Ret tt) w' [].

Declare Scope py_scope.
Delimit Scope py_scope with py.
Notation "x <- m ;; k" := (bind m (fun x => k))
  (at level 100, m at next level, right associativity) : py_scope.
Notation "m ;; k" := (bind m (fun _ => k))
  (at level 100, right associativity) : py_scope.
Local Open Scope py_scope.

(** [for x in l: body x] *)
Fixpoint for_each {A} (l : list A) (body : A -> M unit) : M unit :=
  match l with
  | [] => ret tt
  | x :: l' => body x ;; for_each l' body
  end.

(** [for x in l: ...; if cond: break]: the element at which the loop was
    left, if it was. *)
Fixpoint for_until {A} (l : list A) (body : A -> M bool) : M (option A) :=
  match l with
  | [] => ret None
  | x :: l' => stop <- body x ;; if (stop : bool) then ret (Some x) else for_until l' body
  end.

(** [range(lo, hi)] and [range(hi, lo, -1)] *)
Definition range (lo hi : Z) : list Z := seqZ lo (hi - lo).
Definition range_down (hi lo : Z) : list Z := rev (seqZ (lo + 1) (hi - lo)).

(** [l[i]], with Python's negative indices *)
Definition list_index {A} (l : list A) (i : Z) : M A :=
  let n := Z.of_nat (length l) in
  let j := if i <? 0 then i + n else i in
  if (0 <=? j) && (j <? n)
  then match l !! Z.to_nat j with
       | Some x => ret x
       | None => raise (Exn IndexError (str "list index out of range"))
       end
  else raise (Exn IndexError (str "list index out of range")).

(** [a / b] on numbers *)
Definition truediv (a b : Q) : M Q :=
  if Qeq_bool b 0 then raise (Exn ZeroDivisionError (str "division by zero"))
  else ret (a / b)%Q.

Definition print (line : pystr) : M unit := emit (Print line).

(** [input(prompt)] *)
Definition input (prompt : pystr) : M pystr :=
  emit (Prompt prompt) ;;
  w <- get_world ;;
  match stdin w with
  | line :: rest => put_world (World (fs w) (dirs w) rest) ;; ret line
  | [] => raise (Exn EOFError (str "EOF when reading a line"))
  end.

(** [os.path.dirname] of [posixpath]: the path up to its last slash,
    without the slashes that end it unless it is made of slashes only. *)
Fixpoint drop_while (f : N -> bool) (s : pystr) : pystr :=
  match s with
  | c :: s' => if f c then drop_while f s' else s
  | [] => []
  end.

Definition dirname (p : pystr) : pystr :=
  let head := rev (drop_while (fun c => negb (c =? SLASH)%N) (rev p)) in
  if forallb (fun c => (c =? SLASH)%N) head then head
  else rev (drop_while (fun c => (c =? SLASH)%N) (rev head)).

(** ** External collaborators

    The speech engine, numpy, the encoder, the EPUB reader, the working
    directory, directory listings, the Qt event loop and the wording of the
    runtime's error messages are not part of the script.  Each is a
    function of what the script hands it. *)

(** What [KPipeline] yields for a text: the chunks, each with or without
    audio, and the exception that ends the stream, if one does. *)
Record synthesis := Synthesis {
  chunks : list (option (list Q));
  failure : option exn
}.

(** What running [ffmpeg] does: it exits with a return code, having written
    its output file or not, or it cannot be started at all. *)
Inductive encoding :=
| EncExit (returncode : Z) (output : option file)
| EncFail (e : exn).

Record epub_item := EpubItem {
  item_id : pystr;                 (* item.get_id() *)
  item_text : pystr                (* BeautifulSoup(item.get_content()).get_text() *)
}.

Record epub_book := EpubBook {
  epub_title : option pystr;       (* book.title *)
  epub_documents : list epub_item  (* book.get_items_of_type(ITEM_DOCUMENT) *)
}.

Class Externals := {
  kokoro : pystr -> Q -> pystr -> synthesis;          (* voice, speed, text *)
  np_multiply : list Q -> Z -> list Q;                (* array * n, in float32 *)
  np_astype_int16 : list Q -> list Z;                 (* array.astype(np.int16) *)
  ffmpeg : gmap pystr file -> list pystr -> encoding; (* files, arguments *)
  read_epub : world -> pystr -> outcome epub_book;
  abspath_tail : pystr -> pystr;   (* os.path.abspath(p), after its first slash *)
  glob : world -> pystr -> list pystr;
  gui_exec : outcome Z;
  os_error_text : exn_class -> pystr -> pystr  (* str(e) of an error about a path *)
}.

(** [os.path.abspath]: an absolute path, which starts with a slash. *)
Definition abspath {ext : Externals} (p : pystr) : pystr :=
  SLASH :: abspath_tail p.

(** ** Files *)
Section Files.
Context {ext : Externals}.

(** The exception that the runtime raises about a path; its text, such as
    ["[Errno 2] No such file or directory: 'a/b.wav'"], is the runtime's. *)
Definition os_error (c : exn_class) (path : pystr) : exn :=
  Exn c (os_error_text c path).

(** The directory that a path lies in is there; the working directory
    ([""]) and the root always are. *)
Definition parent_exists (w : world) (path : pystr) : bool :=
  let d := dirname path in
  forallb (fun c => (c =? SLASH)%N) d || bool_decide (d ∈ dirs w).

(** The directories above a path, the nearest first. *)
Fixpoint ancestors (n : nat) (path : pystr) : list pystr :=
  match n with
  | O => []
  | S n' =>
      let d := dirname path in
      if Str.eqb d path then [] else d :: ancestors n' d
  end.

(** The exception of [open] for a path that cannot be opened because of
    what is above it: a file stands where a directory is needed, or the
    directory is not there. *)
Definition open_error (w : world) (path : pystr) : exn :=
  os_error
    (if existsb (fun d => bool_decide (is_Some (fs w !! d)))
                (ancestors (length path) path)
     then NotADirectoryError else FileNotFoundError)
    path.

(** The file at [path] becomes [f]. *)
Definition put_file (path : pystr) (f : file) : M unit :=
  w <- get_world ;; put_world (World (<[path := f]> (fs w)) (dirs w) (stdin w)).

(** [open(path, "w")] or [wave.open(path, "wb")], and what is written
    before the file is closed: the file is created or replaced, or the
    runtime raises because the directory is not there.  Access rights, and
    a directory that stands at the path itself, are not part of the
    world. *)
Definition write_file (path : pystr) (f : file) : M unit :=
  w <- get_world ;;
  if parent_exists w path then put_file path f
  else raise (open_error w path).

Definition remove_file (path : pystr) : M unit :=
  w <- get_world ;; put_world (World (delete path (fs w)) (dirs w) (stdin w)).

(** [os.path.exists] *)
Definition path_exists (w : world) (p : pystr) : bool :=
  bool_decide (is_Some (fs w !! p)) || bool_decide (p ∈ dirs w).

(** [open(path).read()] *)
Definition read_text (path : pystr) : M pystr :=
  w <- get_world ;;
  match fs w !! path with
  | Some (TextFile s) => ret s
  | Some _ => raise (os_error UnicodeDecodeError path)
  | None =>
      raise (if bool_decide (path ∈ dirs w)
             then os_error IsADirectoryError path
             else open_error w path)
  end.

(** [os.makedirs(path, exist_ok=True)] *)
Definition makedirs (path : pystr) : M unit :=
  w <- get_world ;;
  match fs w !! path with
  | Some _ => raise (os_error FileExistsError path)
  | None => put_world (World (fs w) ({[path]} ∪ dirs w) (stdin w))
  end.

End Files.

(** [f"{x:6.1f}"]; a tie is decided on the exact value, towards the even
    digit. *)
Definition round_half_even (q : Q) : Z :=
  let f := Qfloor q in
  let r := (q - inject_Z f)%Q in
  match (r ?= 1 # 2)%Q with
  | Lt => f
  | Gt => f + 1
  | Eq => if Z.even f then f else f + 1
  end.

Definition format_6_1f (x : Q) : pystr :=
  let n := Z.abs (round_half_even (x * 10)%Q) in
  let sign := if Qle_bool 0 x then [] else [HYPHEN] in
  let body := sign ++ Str.of_Z (n / 10) ++ [DOT] ++ Str.of_Z (n mod 10) in
  repeat SPACE (6 - length body) ++ body.

(** ** [class BookReader] *)
Module BookReader.
Section BookReader.
Context {db : UnicodeDB} {ext : Externals}.

Record t := Build {
  filename : pystr;
  book : epub_book;
  title : pystr;
  parts : list pystr
}.

(** [__init__] *)
Definition init (filename : pystr) : M t :=
  w <- get_world ;;
  match read_epub w filename with
  | Ret b => ret (Build filename b [] [])
  | Raise e => raise e
  end.

Definition getTitle (self : t) : pystr * t :=
  match title self with
  | _ :: _ => (title self, self)
  | [] =>
      let title' :=
        match epub_title (book self) with
        | Some (c :: r) => c :: r
        | _ => str "Unknown_Title"
        end in
      (title', Build (filename self) (book self) title' (parts self))
  end.

Definition setTitle (self : t) (title : pystr) : t :=
  Build (filename self) (book self) title (parts self).

(** The body of the loop of [getParts]: [parts] is [self.parts]. *)
Definition add_part (parts : list pystr) (item : epub_item) : list pystr :=
  let text := Str.replace [NBSP] [SPACE] (Str.strip (item_text item)) in
  match text with
  | _ :: _ => parts ++ [text]
  | [] => parts
  end.

Definition getParts (self : t) : list pystr * t :=
  match parts self with
  | _ :: _ => (parts self, self)
  | [] =>
      let parts' := fold_left add_part (epub_documents (book self)) (parts self) in
      (parts', Build (filename self) (book self) (title self) parts')
  end.

Definition partBasename (outDir title : pystr) (i : Z) : pystr :=
  let filename := title ++ str "_part_" ++ Str.format_03d i in
  path_join outDir filename.

Definition makedir (self : t) : M (pystr * pystr * t) :=
  let '(title0, self) := getTitle self in
  let title := clean_filename [title0] in
  let root := dirname (abspath (filename self)) in
  let outDir := path_join root title in
  makedirs outDir ;;
  ret (outDir, title, self).

(** The preview the prompts show: ["\t" + parts[i][:80].replace("\n", "\n\t")] *)
Definition firstWords (part : pystr) : pystr :=
  [TAB] ++ Str.replace [LF] [LF; TAB] (Str.prefix 80 part).

(** The [try] block of [_find_parts]: the range typed as two integers.
    [None] is the fall through to the search, after a [ValueError] or a
    range that the test refuses. *)
Definition range_hint (toExtract : pystr) (parts : list pystr) : option (Z * Z) :=
  match mapM py_int (Str.split toExtract) with
  | Some nums =>
      match nums with
      | [n0; n1] =>
          if (n0 <? n1) && (n0 >=? 0) && (n1 <? Z.of_nat (length parts))
          then Some (n0, n1) else None
      | _ => None
      end
  | None => None
  end.

(** One turn of a search loop: show part [i], ask, and say whether to stop. *)
Definition ask (question : pystr) (parts : list pystr) (i : Z) : M bool :=
  print ([LF] ++ str "Index " ++ Str.of_Z i ++ str ":") ;;
  part <- list_index parts i ;;
  print (firstWords part) ;;
  answer <- input question ;;
  ret (Str.eqb answer (str "y")).

(** The two search loops of [_find_parts], entered when no range was
    typed: forward from the first part for the start, backward from the
    last part, and not as far as the first, for the end. *)
Definition search_parts (parts : list pystr) : M (Z * Z) :=
  print (str "Finding the start of the book") ;;
  found <- for_until (range 0 (Z.of_nat (length parts)))
             (ask (str "Is this the start (y/n)? ") parts) ;;
  let startIdx := default 0 found in
  print ([LF] ++ str "Finding the end of the book") ;;
  let endIdx := Z.of_nat (length parts) - 1 in
  found <- for_until (range_down endIdx 0)
             (ask (str "Is this the end (y/n)? ") parts) ;;
  let endIdx := default endIdx found in
  print ([LF] ++ str "Book content: [" ++ Str.of_Z startIdx ++ str ", "
         ++ Str.of_Z endIdx ++ str "]") ;;
  ret (startIdx, endIdx).

Definition _find_parts (parts : list pystr) : M (Z * Z) :=
  toExtract <- input (str "Enter part range to extract or 'n' to search: ") ;;
  match range_hint toExtract parts with
  | Some r => ret r
  | None => search_parts parts
  end.

Definition dump (self : t) : M t :=
  let '(parts, self) := getParts self in
  r <- _find_parts parts ;;
  let '(start, end_) := r in
  d <- makedir self ;;
  let '(outDir, title, self) := d in
  let end_ := if (end_ =? -1) || (end_ >=? Z.of_nat (length parts))
              then Z.of_nat (length parts) - 1 else end_ in
  for_each (range start (end_ + 1)) (fun i =>
    let filepath := partBasename outDir title i ++ str ".txt" in
    part <- list_index parts i ;;
    write_file filepath (TextFile part)) ;;
  ret self.

End BookReader.
End BookReader.

(** ** [class TextToAudio] *)
Module TextToAudio.
Section TextToAudio.
Context {db : UnicodeDB} {ext : Externals}.

Record t := Build {
  voice : pystr;
  speed : Q
}.

Definition default_progress_callback (self : t) (percent : Q) (message : pystr)
  : M unit :=
  print (str "[" ++ format_6_1f percent ++ str "%] " ++ message).

(** [(result.audio.numpy() * 32767).astype(np.int16)]: the samples of a
    chunk as 16-bit integers.  The product and the cast are numpy's. *)
Definition pcm16 (audio : list Q) : list Z :=
  np_astype_int16 (np_multiply audio 32767).

(** [wav_file.writeframes], on the file that is open *)
Definition writeframes (path : pystr) (new : list Z) : M unit :=
  w <- get_world ;;
  match fs w !! path with
  | Some (WavFile frames) => put_file path (WavFile (frames ++ new))
  | _ => put_file path (WavFile new)
  end.

(** The file is opened, hence created, before the engine is asked for its
    first chunk; what was written stays when the engine fails. *)
Definition _run_kokoro (self : t) (txt filename : pystr) : M unit :=
  let txt := normalize txt in
  write_file filename (WavFile []) ;;
  let stream := kokoro (voice self) (speed self) txt in
  for_each (chunks stream) (fun result =>
    match result with
    | None => ret tt
    | Some audio => writeframes filename (pcm16 audio)
    end) ;;
  match failure stream with
  | Some e => raise e
  | None => ret tt
  end.

(** An argument that a program reads as options, not as a file name: it
    starts with a hyphen. *)
Definition is_option (arg : pystr) : bool :=
  Str.startswith [HYPHEN] arg && (1 <? length arg)%nat.

(** [subprocess.run(cmd)] for the two programs the script starts, as the
    script starts them; the return code.  [ffmpeg] writes to its last
    argument.  [rm] is given one path that ends in [".wav"] and no [--]
    before it: a path that starts with a hyphen is read as options, of
    which ['.'] is none, so [rm] removes nothing and exits with code 1;
    otherwise it removes the file, and exits with code 1 if there is
    none. *)
Definition subprocess_run (cmd : list pystr) : M Z :=
  match cmd with
  | prog :: args =>
      if Str.eqb prog (str "ffmpeg") then
        w <- get_world ;;
        match ffmpeg (fs w) args with
        | EncExit returncode output =>
            match output, last args with
            | Some f, Some path => put_file path f
            | _, _ => ret tt
            end ;;
            ret returncode
        | EncFail e => raise e
        end
      else if Str.eqb prog (str "rm") then
        if existsb is_option args then ret 1
        else
          w <- get_world ;;
          for_each args remove_file ;;
          ret (if forallb (fun p => bool_decide (is_Some (fs w !! p))) args
               then 0 else 1)
      else raise (os_error FileNotFoundError prog)
  | [] => raise (Exn IndexError (str "list index out of range"))
  end.

(** The two files of a part: [waveFile] and [opusFile] of [run]. *)
Definition output_paths (filename : pystr) : pystr * pystr :=
  let filename :=
    if Str.endswith (str ".txt") filename then Str.drop_last 4 filename
    else filename in
  (filename ++ str ".wav", filename ++ str ".opus").

(** [cmd] of [run] *)
Definition ffmpeg_cmd (waveFile opusFile : pystr) : list pystr :=
  [str "ffmpeg"; str "-y"; str "-i"; waveFile; str "-af";
   str "adelay=2s:all=true"; str "-c:a"; str "libopus";
   str "-b:a"; str "64k"; str "-vbr"; str "on"; opusFile].

Definition run (self : t) (text filename : pystr)
           (progress_callback : option (Q -> pystr -> M unit)) : M unit :=
  let '(waveFile, opusFile) := output_paths filename in
  let progress_callback :=
    match progress_callback with
    | None => default_progress_callback self
    | Some callback => callback
    end in
  progress_callback 5%Q (str "Generating WAV...") ;;
  _run_kokoro self text waveFile ;;
  progress_callback 75%Q (str "Converting to OPUS...") ;;
  returncode <- subprocess_run (ffmpeg_cmd waveFile opusFile) ;;
  if returncode =? 0 then
    progress_callback 95%Q (str "Deleting WAV...") ;;
    subprocess_run [str "rm"; waveFile] ;;
    progress_callback 100%Q (str "Generation complete")
  else ret tt.

End TextToAudio.
End TextToAudio.

(** ** [class AudioGenerationWorker] *)
Module AudioGenerationWorker.
Section AudioGenerationWorker.
Context {db : UnicodeDB} {ext : Externals}.

Record t := Build {
  voice : pystr;
  speed : Q;
  book : BookReader.t;
  start_idx : Z;
  end_idx : Z
}.

(** The closure [make_part_progress_callback] returns; [self.progress.emit]
    is the [Progress] event. *)
Definition part_progress_callback (part_num total_parts : Z)
           (percent : Q) (message : pystr) : M unit :=
  x <- truediv percent 100 ;;
  overall_percent <- truediv (inject_Z (part_num - 1) + x)%Q (inject_Z total_parts) ;;
  let status := str "Part " ++ Str.of_Z part_num ++ str "/"
                ++ Str.of_Z total_parts ++ str ": " ++ message in
  emit (Progress status overall_percent).

(** [str(e)] *)
Definition str_of_exn (e : exn) : pystr := exn_msg e.

(** The body of the loop of [run], for part [i]. *)
Definition run_part (self : t) (tts : TextToAudio.t) (outdir title : pystr)
           (book : BookReader.t) (total_parts i : Z) : M unit :=
  let current_part := i - start_idx self + 1 in
  let basename := BookReader.partBasename outdir title i in
  let progress_callback := part_progress_callback current_part total_parts in
  text <- list_index (BookReader.parts book) i ;;
  TextToAudio.run tts text basename (Some progress_callback) ;;
  part_complete_progress <- truediv (inject_Z current_part) (inject_Z total_parts) ;;
  emit (Progress (str "Completed part " ++ Str.of_Z current_part ++ str "/"
                  ++ Str.of_Z total_parts) part_complete_progress).

Definition run (self : t) : M unit :=
  try_except
    (let tts := TextToAudio.Build (voice self) (speed self) in
     d <- BookReader.makedir (book self) ;;
     let '(outdir, title, book) := d in
     let total_parts := end_idx self - start_idx self + 1 in
     for_each (range (start_idx self) (end_idx self + 1))
              (run_part self tts outdir title book total_parts) ;;
     emit (Finished true))
    (fun e => emit (Error (str_of_exn e))).

End AudioGenerationWorker.
End AudioGenerationWorker.

(** ** The command line *)
Section CommandLine.
Context {db : UnicodeDB} {ext : Externals}.

(** The command line, and the namespace that [parse_args] makes of it:
    [--gui], the values of [-m], [-v] and [-s], and the files. *)
Record cli_args := Args {
  gui : bool;
  mode : option pystr;
  voice : pystr;
  speed : Q;
  files : list pystr
}.

Definition list_items (filename : pystr) : M unit :=
  w <- get_world ;;
  match read_epub w filename with
  | Ret book => for_each (epub_documents book) (fun item => print (item_id item))
  | Raise e => raise e
  end.

Definition process_file_cli (filename : pystr) (args : cli_args) : M bool :=
  match mode args with
  | None | Some [] => ret false
  | Some mode =>
      if Str.eqb mode (str "dump") then
        b <- BookReader.init filename ;;
        BookReader.dump b ;;
        ret true
      else if Str.eqb mode (str "dir") then
        w <- get_world ;;
        let txtFiles := glob w (path_join filename (str "*.txt")) in
        let tts := TextToAudio.Build (voice args) (speed args) in
        for_each txtFiles (fun f =>
          text <- read_text f ;;
          TextToAudio.run tts text f None) ;;
        ret true
      else if Str.eqb mode (str "txt") then
        let tts := TextToAudio.Build (voice args) (speed args) in
        text <- read_text filename ;;
        TextToAudio.run tts text filename None ;;
        ret true
      else
        print (str "Unknown mode: " ++ mode) ;;
        ret false
  end.

(** The graphical interface is outside the model: [gui_exec] is what
    [app.exec()] returns, or the exception that starting it raises. *)
Definition launch_gui : M Z :=
  match gui_exec with
  | Ret code => ret code
  | Raise e =>
      match exn_class_of e with
      | ImportError =>
          print (str "GUI mode not available: " ++ exn_msg e) ;;
          print (str "Install PyQt6 with: pip install PyQt6")
      | _ => print (str "Failed to start GUI: " ++ exn_msg e)
      end ;;
      ret 1
  end.

Definition is_none {A} (o : option A) : bool :=
  match o with None => true | Some _ => false end.

(** [not args.mode] *)
Definition no_mode (m : option pystr) : bool :=
  match m with None | Some [] => true | Some (_ :: _) => false end.

Definition is_nil {A} (l : list A) : bool :=
  match l with [] => true | _ :: _ => false end.

Definition mode_is (m : option pystr) (name : string) : bool :=
  match m with Some s => Str.eqb s (str name) | None => false end.

(** [choices] of [-m] *)
Definition choices : list pystr :=
  [str "dump"; str "dir"; str "txt"; str "list"].

(** [parser.parse_args()]: a mode that is none of the choices is refused.
    [None] stands for the exit of [parser.error], with status 2, after a
    message on the standard error stream. *)
Definition parse_args (argv : cli_args) : option cli_args :=
  match mode argv with
  | Some m => if existsb (Str.eqb m) choices then Some argv else None
  | None => Some argv
  end.

(** How [main] ends: it returns a code, which the script hands to
    [sys.exit], or [sys.exit] has been called inside it. *)
Inductive ending :=
| Returned (code : Z)
| Exited (status : Z).

Definition main (argv : cli_args) : M ending :=
  match parse_args argv with
  | None => ret (Exited 2)
  | Some args =>
      if gui args || (is_nil (files args) && no_mode (mode args)) then
        code <- launch_gui ;; ret (Returned code)
      else
        w <- get_world ;;
        missing <- for_until (files args) (fun f => ret (negb (path_exists w f))) ;;
        match missing with
        | Some f =>
            print (str "Error: File or dir not found: " ++ f) ;;
            ret (Returned 1)
        | None =>
            if mode_is (mode args) "list" then
              for_each (files args) (fun f =>
                print ([LF] ++ str "Listing items in: " ++ f) ;;
                list_items f) ;;
              ret (Returned 0)
            else
              failed <- for_until (files args) (fun f =>
                print ([LF] ++ str "Processing: " ++ f) ;;
                ok <- process_file_cli f args ;;
                ret (negb ok)) ;;
              ret (Returned (if is_none failed then 0 else 1))
        end
  end.

End CommandLine.

(** ** Vocabulary of the properties *)

(** [sub in s] *)
Fixpoint contains (sub s : pystr) : bool :=
  Str.startswith sub s
  || match s with [] => false | _ :: s' => contains sub s' end.

(** No three words of the text are joined by two apostrophes, as in
    [a'b'c].  The reader has met no word, is in a first word, is just past
    the apostrophe that ends it, is in the second word, or is just past the
    apostrophe that ends the second word. *)
Inductive chain_state :=
| NoWord | FirstWord | FirstApostrophe | SecondWord | SecondApostrophe.

Section Chains.
Context {db : UnicodeDB}.

Fixpoint chain_free_go (cs : chain_state) (s : pystr) : bool :=
  match s with
  | [] => true
  | c :: r =>
      if is_word c
      then match cs with
           | SecondApostrophe => false
           | NoWord | FirstWord => chain_free_go FirstWord r
           | FirstApostrophe | SecondWord => chain_free_go SecondWord r
           end
      else if (c =? APOSTROPHE)%N
      then match cs with
           | FirstWord => chain_free_go FirstApostrophe r
           | SecondWord => chain_free_go SecondApostrophe r
           | _ => chain_free_go NoWord r
           end
      else chain_free_go NoWord r
  end.

Definition chain_free (s : pystr) : bool := chain_free_go NoWord s.

(** The characters that the normalisation reads or writes as spaces. *)
Definition is_blank (c : N) : bool :=
  (c =? SPACE)%N || (c =? LF)%N || (c =? NBSP)%N.
End Chains.

(** The samples of the chunks that carry audio, in the order of arrival. *)
Definition frames_of {ext : Externals} (chunks : list (option (list Q)))
  : list Z :=
  flat_map (fun result =>
              match result with
              | None => []
              | Some audio => TextToAudio.pcm16 audio
              end) chunks.

(** The overall fractions that a sequence of events carries. *)
Definition fraction_of (e : event) : option Q :=
  match e with Progress _ f => Some f | _ => None end.

Definition fractions (evs : list event) : list Q := omap fraction_of evs.

(** The event the worker emits when a part is complete. *)
Definition is_part_complete (e : event) : bool :=
  match e with
  | Progress message _ => Str.startswith (str "Completed part ") message
  | _ => false
  end.

Definition is_error (e : event) : bool :=
  match e with Error _ => true | _ => false end.

(** The sub-step reports of one part: the percent and the message of each
    milestone; the last two only when the encoder exited with code 0. *)
Definition sub_step_reports (encoded : bool) : list (Q * pystr) :=
  [(5%Q, str "Generating WAV..."); (75%Q, str "Converting to OPUS...")]
  ++ (if encoded
      then [(95%Q, str "Deleting WAV..."); (100%Q, str "Generation complete")]
      else []).

(** The events of unit [i] of the range [start..end_], as the job
    specification gives them: each report mapped to the overall fraction
    [((current - 1) + p/100) / total] and tagged ["Part <current>/<total>: "],
    then the completion event with fraction [current / total]. *)
Definition report_event (current total : Z) (report : Q * pystr) : event :=
  Progress (str "Part " ++ Str.of_Z current ++ str "/" ++ Str.of_Z total
            ++ str ": " ++ snd report)
           ((inject_Z (current - 1) + fst report / 100) / inject_Z total)%Q.

Definition completion_event (current total : Z) : event :=
  Progress (str "Completed part " ++ Str.of_Z current ++ str "/"
            ++ Str.of_Z total)
           (inject_Z current / inject_Z total)%Q.

Definition part_events (start end_ i : Z) (encoded : bool) : list event :=
  let current := i - start + 1 in
  let total := end_ - start + 1 in
  List.map (report_event current total) (sub_step_reports encoded)
  ++ [completion_event current total].

(** A mode that [process_file_cli] handles. *)
Definition handled_mode (m : option pystr) : bool :=
  mode_is m "dump" || mode_is m "dir" || mode_is m "txt".

(** Every file of the list is processed successfully, one after the other,
    starting in world [w]: each turn of the loop of [main] returns [True]. *)
Fixpoint processed_ok {db : UnicodeDB} {ext : Externals}
         (todo : list pystr) (args : cli_args) (w : world) : Prop :=
  match todo with
  | [] => True
  | f :: rest =>
      let r := bind (print ([LF] ++ str "Processing: " ++ f))
                    (fun _ => process_file_cli f args) w in
      result r = Ret true /\ processed_ok rest args (final r)
  end.

(** ** Sample collaborators and inputs, for running the definitions *)

(** An engine that yields [stream] for every text, an encoder that ends as
    [enc] on every call, and a reader that finds [epub] in every file. *)
Definition sample_error_text (c : exn_class) (path : pystr) : pystr :=
  match c with
  | FileExistsError => str "[Errno 17] File exists: '" ++ path ++ str "'"
  | FileNotFoundError =>
      str "[Errno 2] No such file or directory: '" ++ path ++ str "'"
  | _ => path
  end.

(** A cast that cuts the fraction off, for samples within 16 bits. *)
Definition sample_int16 (x : Q) : Z :=
  if Qle_bool 0 x then Qfloor x else Qceiling x.

Definition sample_externals (stream : synthesis) (enc : encoding)
           (epub : outcome epub_book) : Externals :=
  {| kokoro := fun _ _ _ => stream;
     np_multiply := fun audio n => List.map (fun x => x * inject_Z n)%Q audio;
     np_astype_int16 := List.map sample_int16;
     ffmpeg := fun _ _ => enc;
     read_epub := fun _ _ => epub;
     abspath_tail := fun p => str "books/" ++ p;
     glob := fun _ _ => [];
     gui_exec := Ret 0;
     os_error_text := sample_error_text |}.

Definition two_chunks : synthesis :=
  Synthesis [Some [1 # 2; - (1 # 2)]%Q; None; Some [1 # 4]%Q] None.

Definition broken_engine : synthesis :=
  Synthesis [] (Some (Exn RuntimeError (str "engine failed"))).

Definition sample_epub : epub_book :=
  EpubBook (Some (str "My Book!"))
    [EpubItem (str "cover") (str "   ");
     EpubItem (str "ch1") ([SPACE; NBSP] ++ str "One" ++ [NBSP] ++ str "two. " ++ [LF]);
     EpubItem (str "ch2") (str "Three")].

Definition sample_book (n : nat) : BookReader.t :=
  BookReader.Build (str "book.epub") sample_epub []
    (List.map (fun i => str "part " ++ Str.of_Z (Z.of_nat i)) (seq 0 n)).

Definition empty_world : world := World ∅ ∅ [].

Definition sample_worker (n : nat) (start end_ : Z) : AudioGenerationWorker.t :=
  AudioGenerationWorker.Build (str "af_heart") (13 # 10) (sample_book n) start end_.

Definition good_externals : Externals :=
  sample_externals two_chunks (EncExit 0 (Some (OpusFile [1]))) (Ret sample_epub).

Definition broken_externals : Externals :=
  sample_externals broken_engine (EncExit 0 (Some (OpusFile [1]))) (Ret sample_epub).




(** ** More of the script *)

(** [PartSelectionWidget.load_parts]: the text of the list entry of part
    [i]. *)
Definition part_preview (part : pystr) : pystr :=
  let preview := Str.strip (Str.replace [LF] [SPACE] (Str.prefix 100 part)) in
  if (100 <? length part)%nat then preview ++ str "..." else preview.

Definition list_entry (i : Z) (part : pystr) : pystr :=
  str "Part " ++ Str.of_Z i ++ str ": " ++ part_preview part.

(** ** More vocabulary *)

(** The text as a Rocq string, and the integer its decimal digits denote. *)
Definition to_string (s : pystr) : string :=
  string_of_list_ascii (List.map ascii_of_N s).

Definition read_int (s : pystr) : option Z :=
  option_map Z.of_int (NilEmpty.int_of_string (to_string s)).

(** Every sentence terminator is followed at once by a newline, and there
    is no other newline. *)
Fixpoint breaks_ok (s : pystr) : bool :=
  match s with
  | [] => true
  | c :: r =>
      if is_terminator c
      then match r with
           | c' :: r' => (c' =? LF)%N && breaks_ok r'
           | [] => false
           end
      else negb (c =? LF)%N && breaks_ok r
  end.

Definition is_progress (e : event) : bool :=
  match e with Progress _ _ => true | _ => false end.

Definition is_decimal_char (c : N) : bool :=
  in_range 48 57 c || (c =? HYPHEN)%N.


(** * Properties *)

(** ** The definitions at work *)

Example replace_resumes_after_match :
  Str.replace (str "aa") (str "b") (str "aaaaa") = str "bba".
Proof. reflexivity. Qed.

Example replace_empty_pattern :
  Str.replace [] (str "-") (str "abc") = str "-a-b-c-".
Proof. reflexivity. Qed.

Example strip_removes_nbsp :
  Str.strip ([SPACE; NBSP] ++ str "a b" ++ [NBSP; LF]) = str "a b".
Proof. reflexivity. Qed.

Example split_on_runs : Str.split (str "  2   1 ") = [str "2"; str "1"].
Proof. reflexivity. Qed.

Example int_with_underscore : @py_int ascii_db (str "+1_0") = Some 10.
Proof. reflexivity. Qed.

Example int_refuses_double_underscore : @py_int ascii_db (str "1__0") = None.
Proof. reflexivity. Qed.

Example format_03d_pads :
  Str.format_03d 7 = str "007" /\ Str.format_03d (-7) = str "-07"
  /\ Str.format_03d 1234 = str "1234".
Proof. repeat split; reflexivity. Qed.

Example format_6_1f_pads :
  format_6_1f 5 = str "   5.0" /\ format_6_1f 100 = str " 100.0".
Proof. repeat split; reflexivity. Qed.

Example dirname_of_path :
  dirname (str "/a/b/c.epub") = str "/a/b" /\ dirname (str "c.epub") = []
  /\ dirname (str "//c") = str "//".
Proof. repeat split; reflexivity. Qed.

Example contraction_is_joined :
  @normalize ascii_db (str "he'd go. She'll stay!")
  = str "hed go." ++ [LF] ++ str " Shell stay!" ++ [LF].
Proof. reflexivity. Qed.

Example sub_takes_matches_from_the_left :
  @re_sub ascii_db contraction_re join_groups (str "a'b'c'd_1'x")
  = str "ab'cd_1'x".
Proof. reflexivity. Qed.

(** ** Strings *)

Lemma startswith_app (p r : pystr) : Str.startswith p (p ++ r) = true.
Proof.
  induction p as [|a p IH]; [reflexivity|].
  cbn. rewrite N.eqb_refl. exact IH.
Qed.


Lemma replace_go_skip (old new p r : pystr) :
  Str.replace_go old new (length p) (p ++ r) = Str.replace_go old new 0 r.
Proof.
  induction p as [|a p IH]; [reflexivity|]. exact IH.
Qed.

(** Replacing a single character is a [flat_map]. *)
Lemma replace_char (c : N) (new s : pystr) :
  Str.replace [c] new s
  = flat_map (fun x => if (x =? c)%N then new else [x]) s.
Proof.
  unfold Str.replace. induction s as [|x s IH]; [reflexivity|].
  cbn [Str.replace_go Str.startswith length flat_map Nat.sub].
  rewrite andb_true_r, (N.eqb_sym c x).
  destruct (x =? c)%N; cbn; rewrite IH; reflexivity.
Qed.

(** Replacing a character by a character is a [map]. *)
Lemma replace_char_map (c d : N) (s : pystr) :
  Str.replace [c] [d] s = List.map (fun x => if (x =? c)%N then d else x) s.
Proof.
  rewrite replace_char. induction s as [|x s IH]; [reflexivity|].
  cbn. rewrite IH. destruct (x =? c)%N; reflexivity.
Qed.

Lemma ellipsis_literal : str ". . ." = [DOT; SPACE; DOT; SPACE; DOT].
Proof. reflexivity. Qed.

Lemma dot_literal : str "." = [DOT].
Proof. reflexivity. Qed.

Lemma startswith_ellipsis (s : pystr) :
  Str.startswith [DOT; SPACE; DOT; SPACE; DOT] s
  = match s with
    | c1 :: c2 :: c3 :: c4 :: c5 :: _ => is_ellipsis c1 c2 c3 c4 c5
    | _ => false
    end.
Proof.
  unfold is_ellipsis.
  destruct s as [|c1 [|c2 [|c3 [|c4 [|c5 r]]]]]; cbn [Str.startswith];
    rewrite ?andb_false_r, ?andb_true_r; try reflexivity.
  rewrite (N.eqb_sym DOT c1), (N.eqb_sym SPACE c2), (N.eqb_sym DOT c3),
    (N.eqb_sym SPACE c4), (N.eqb_sym DOT c5).
  rewrite !andb_assoc. reflexivity.
Qed.

Lemma collapse_ellipsis_cons (c1 : N) (t : pystr) :
  collapse_ellipsis (c1 :: t)
  = match t with
    | c2 :: c3 :: c4 :: c5 :: r =>
        if is_ellipsis c1 c2 c3 c4 c5 then DOT :: collapse_ellipsis r
        else c1 :: collapse_ellipsis t
    | _ => c1 :: collapse_ellipsis t
    end.
Proof. destruct t as [|c2 [|c3 [|c4 [|c5 r]]]]; reflexivity. Qed.

(** [txt.replace('. . .', '.')] is the collapse of the specification. *)
Lemma replace_ellipsis (s : pystr) :
  Str.replace (str ". . .") (str ".") s = collapse_ellipsis s.
Proof.
  rewrite ellipsis_literal, dot_literal. unfold Str.replace.
  remember (length s) as n eqn:Hn.
  assert (Hle : (length s <= n)%nat) by lia. clear Hn.
  revert s Hle. induction n as [|n IH]; intros s Hle.
  - destruct s; [reflexivity | cbn in Hle; lia].
  - destruct s as [|c1 t]; [reflexivity|].
    cbn [Str.replace_go]. rewrite startswith_ellipsis, collapse_ellipsis_cons.
    assert (Ht : Str.replace_go [DOT; SPACE; DOT; SPACE; DOT] [DOT] 0 t
                 = collapse_ellipsis t) by (apply IH; cbn in Hle; lia).
    destruct t as [|c2 [|c3 [|c4 [|c5 r]]]]; try (rewrite Ht; reflexivity).
    destruct (is_ellipsis c1 c2 c3 c4 c5); [|rewrite Ht; reflexivity].
    change (length [DOT; SPACE; DOT; SPACE; DOT] - 1)%nat
      with (length [c2; c3; c4; c5]).
    change (c2 :: c3 :: c4 :: c5 :: r) with ([c2; c3; c4; c5] ++ r).
    rewrite replace_go_skip, IH by (cbn in Hle; lia). reflexivity.
Qed.

(** ** The contraction pattern

    The backtracking matcher, run on [\b(\w+)'(\w+)\b], against the reader
    of contraction-like tokens of the specification. *)
Section RegexFacts.
Context {db : UnicodeDB}.

Local Abbreviation words W := (Forall (fun c => is_word c = true) W).
Local Abbreviation at_boundary s := (is_word_at (head s) = false).

Lemma apostrophe_not_word : is_word APOSTROPHE = false.
Proof. reflexivity. Qed.

(** A text is a run of word characters, then a rest that does not start
    with one. *)
Lemma word_run (s : pystr) :
  exists W rest, s = W ++ rest /\ words W /\ at_boundary rest.
Proof.
  induction s as [|c s (W & rest & -> & HW & Hr)].
  - exists [], []. repeat split. constructor.
  - destruct (is_word c) eqn:Hc.
    + exists (c :: W), rest. repeat split; [constructor; assumption | assumption].
    + exists [], (c :: W ++ rest). repeat split; [constructor | exact Hc].
Qed.

Lemma last_cons (x y : N) (W : pystr) :
  List.last (y :: W) x = List.last W y.
Proof.
  revert x y. induction W as [|z W IH]; intros x y; [reflexivity|].
  change (List.last (y :: z :: W) x) with (List.last (z :: W) x).
  rewrite !IH. reflexivity.
Qed.

Lemma word_plus_boundary k (s : pystr) :
  at_boundary s -> word_plus k s = None.
Proof.
  destruct s as [|c s]; [reflexivity|]. cbn. intros ->. reflexivity.
Qed.

(** Greedy [\w+] on a run of word characters takes the whole run when the
    rest of the pattern cannot start inside a word. *)
Lemma word_plus_run k (x : N) (W rest : pystr) :
  (forall a b s, is_word a = true -> is_word b = true -> k a (b :: s) = None) ->
  is_word x = true -> words W -> at_boundary rest ->
  word_plus k (x :: W ++ rest)
  = match k (List.last W x) rest with
    | Some (gs, n) => Some (x :: W, gs, S (length W + n))
    | None => None
    end.
Proof.
  intros Hk Hx HW Hr. revert x Hx.
  induction HW as [|y W Hy HW IH]; intros x Hx.
  - cbn [app word_plus List.last length]. rewrite Hx.
    rewrite (word_plus_boundary k rest Hr).
    destruct (k x rest) as [[gs n]|]; reflexivity.
  - cbn [word_plus]. rewrite Hx.
    change ((y :: W) ++ rest) with (y :: W ++ rest). rewrite (IH y Hy).
    rewrite (last_cons x y W).
    destruct (k (List.last W y) rest) as [[gs n]|]; [reflexivity|].
    rewrite (Hk x y _ Hx Hy). reflexivity.
Qed.

Lemma last_word (x : N) (W : pystr) :
  is_word x = true -> words W -> is_word (List.last W x) = true.
Proof.
  intros Hx HW. revert x Hx. induction HW as [|y W Hy HW IH]; intros x Hx.
  - exact Hx.
  - rewrite (last_cons x y W). exact (IH y Hy).
Qed.

(** The pattern matches at a word boundary where a run of word characters,
    an apostrophe and a second run follow. *)
Lemma match_contraction_some prev (x y : N) (W1 W2 rest : pystr) :
  is_word_at prev = false ->
  is_word x = true -> words W1 -> is_word y = true -> words W2 ->
  at_boundary rest ->
  match_here contraction_re prev (x :: W1 ++ APOSTROPHE :: y :: W2 ++ rest)
  = Some ([x :: W1; y :: W2], S (length W1 + S (S (length W2)))).
Proof.
  intros Hp Hx HW1 Hy HW2 Hr.
  unfold contraction_re. cbn [match_here head is_word_at].
  rewrite Hp, Hx. cbn [xorb].
  rewrite word_plus_run; [| | assumption | assumption | reflexivity].
  - cbn [match_here]. rewrite N.eqb_refl.
    rewrite word_plus_run; [| | assumption | assumption | assumption].
    + cbn [head is_word_at]. rewrite (last_word y W2 Hy HW2), Hr. cbn [xorb].
      repeat f_equal. lia.
    + intros a b s Ha Hb. cbn [head is_word_at]. rewrite Ha, Hb. reflexivity.
  - intros a b s Ha Hb. cbn [match_here].
    destruct (b =? APOSTROPHE)%N eqn:E; [|reflexivity].
    apply N.eqb_eq in E. subst b. rewrite apostrophe_not_word in Hb.
    discriminate.
Qed.

(** It does not match where the run is not followed by an apostrophe and a
    word character. *)
Lemma match_contraction_none prev (x : N) (W rest : pystr) :
  is_word_at prev = false ->
  is_word x = true -> words W -> at_boundary rest ->
  (forall r, rest = APOSTROPHE :: r -> at_boundary r) ->
  match_here contraction_re prev (x :: W ++ rest) = None.
Proof.
  intros Hp Hx HW Hr Hno.
  unfold contraction_re. cbn [match_here head is_word_at].
  rewrite Hp, Hx. cbn [xorb].
  rewrite word_plus_run; [| | assumption | assumption | assumption].
  - cbn [match_here]. destruct rest as [|c r]; [reflexivity|].
    destruct (c =? APOSTROPHE)%N eqn:E; [|reflexivity].
    apply N.eqb_eq in E. subst c.
    rewrite (word_plus_boundary _ r (Hno r eq_refl)). reflexivity.
  - intros a b s Ha Hb. cbn [match_here].
    destruct (b =? APOSTROPHE)%N eqn:E; [|reflexivity].
    apply N.eqb_eq in E. subst b. rewrite apostrophe_not_word in Hb.
    discriminate.
Qed.

(** Away from the start of a word there is no match. *)
Lemma match_contraction_boundary prev (s : pystr) :
  at_boundary s -> match_here contraction_re prev s = None.
Proof.
  intros Hs. unfold contraction_re. cbn [match_here]. rewrite Hs.
  destruct (xorb (is_word_at prev) false); [|reflexivity].
  rewrite (word_plus_boundary _ s Hs). reflexivity.
Qed.

Lemma match_contraction_inside (a b : N) (s : pystr) :
  is_word a = true -> is_word b = true ->
  match_here contraction_re (Some a) (b :: s) = None.
Proof.
  intros Ha Hb. unfold contraction_re. cbn [match_here head is_word_at].
  rewrite Ha, Hb. reflexivity.
Qed.

Local Abbreviation scan prev skip s :=
  (sub_go contraction_re join_groups prev skip s).

Lemma sub_go_skip p repl prev (q r : pystr) :
  sub_go p repl prev (length q) (q ++ r)
  = sub_go p repl (fold_left (fun _ c => Some c) q prev) 0 r.
Proof.
  revert prev. induction q as [|c q IH]; intros prev; [reflexivity|].
  cbn [length app sub_go fold_left]. apply IH.
Qed.

Lemma scan_boundary prev (s : pystr) :
  at_boundary s ->
  scan prev 0 s = match s with [] => [] | c :: r => c :: scan (Some c) 0 r end.
Proof.
  intros Hs. destruct s as [|c r]; cbn [sub_go];
    rewrite (match_contraction_boundary prev _ Hs); reflexivity.
Qed.

Lemma scan_inside (a : N) (W rest : pystr) :
  is_word a = true -> words W ->
  scan (Some a) 0 (W ++ rest) = W ++ scan (Some (List.last W a)) 0 rest.
Proof.
  intros Ha HW. revert a Ha. induction HW as [|b W Hb HW IH]; intros a Ha.
  - reflexivity.
  - cbn [app sub_go]. rewrite (match_contraction_inside a b _ Ha Hb).
    rewrite (IH b Hb), last_cons. reflexivity.
Qed.

Lemma strip_run st (x : N) (W rest : pystr) :
  is_word x = true -> words W ->
  strip_contractions st (x :: W ++ rest)
  = x :: W ++ strip_contractions
               (match st with AfterApostrophe => AfterApostrophe | _ => InWord end)
               rest.
Proof.
  intros Hx HW. revert st x Hx. induction HW as [|y W Hy HW IH]; intros st x Hx.
  - cbn [app strip_contractions]. rewrite Hx. reflexivity.
  - cbn [strip_contractions]. rewrite Hx.
    change ((y :: W) ++ rest) with (y :: W ++ rest). rewrite (IH _ y Hy).
    destruct st; reflexivity.
Qed.

Lemma strip_boundary st (s : pystr) :
  at_boundary s ->
  (st = InWord -> forall r, s = APOSTROPHE :: r -> at_boundary r) ->
  strip_contractions st s
  = match s with [] => [] | c :: r => c :: strip_contractions Outside r end.
Proof.
  intros Hs Hno. destruct s as [|c r]; [reflexivity|].
  cbn [strip_contractions]. cbn [head is_word_at] in Hs. rewrite Hs.
  destruct st; cbn [andb]; rewrite ?andb_false_r; try reflexivity.
  destruct (c =? APOSTROPHE)%N eqn:E; [|reflexivity].
  apply N.eqb_eq in E. subst c. rewrite (Hno eq_refl r eq_refl). reflexivity.
Qed.

Lemma strip_apostrophe (y : N) (r : pystr) :
  is_word y = true ->
  strip_contractions InWord (APOSTROPHE :: y :: r)
  = strip_contractions AfterApostrophe (y :: r).
Proof.
  intros Hy.
  change (strip_contractions InWord (APOSTROPHE :: y :: r))
    with (if is_word APOSTROPHE
          then APOSTROPHE :: strip_contractions InWord (y :: r)
          else if (APOSTROPHE =? APOSTROPHE)%N && true && is_word y
               then strip_contractions AfterApostrophe (y :: r)
               else APOSTROPHE :: strip_contractions Outside (y :: r)).
  rewrite apostrophe_not_word, Hy. reflexivity.
Qed.

(** The scan of [re.sub] over the contraction pattern reads the text as the
    specification's reader does. *)
Lemma scan_strip (s : pystr) prev :
  is_word_at prev = false -> scan prev 0 s = strip_contractions Outside s.
Proof.
  remember (length s) as n eqn:Hn.
  assert (Hle : (length s <= n)%nat) by lia. clear Hn.
  revert s prev Hle. induction n as [|n IH]; intros s prev Hle Hp.
  { destruct s; [|cbn in Hle; lia]. cbn [sub_go strip_contractions].
    rewrite (match_contraction_boundary prev []); reflexivity. }
  assert (Hafter : forall prev' st (t : pystr),
             (length t <= S n)%nat -> at_boundary t ->
             (st = InWord -> forall r, t = APOSTROPHE :: r -> at_boundary r) ->
             scan prev' 0 t = strip_contractions st t).
  { intros prev' st t Ht Hb Hno.
    rewrite (scan_boundary prev' t Hb), (strip_boundary st t Hb Hno).
    destruct t as [|c r]; [reflexivity|]. f_equal.
    apply IH; [cbn in Ht; lia | exact Hb]. }
  destruct (word_run s) as (W & rest & -> & HW & Hr).
  destruct HW as [|x W Hx HW].
  { apply Hafter; [exact Hle | exact Hr | discriminate]. }
  change ((x :: W) ++ rest) with (x :: W ++ rest) in *.
  rewrite (strip_run Outside x W rest Hx HW).
  assert (Hlen : (length rest <= S n)%nat).
  { cbn [length] in Hle. rewrite length_app in Hle. lia. }
  destruct rest as [|c [|y r]].
  - cbn [sub_go].
    rewrite (match_contraction_none prev x W [] Hp Hx HW Hr) by discriminate.
    rewrite (scan_inside x W [] Hx HW). f_equal. f_equal.
    apply Hafter; [cbn; lia | reflexivity | discriminate].
  - cbn [sub_go].
    rewrite (match_contraction_none prev x W [c] Hp Hx HW Hr)
      by (intros r [= _ <-]; reflexivity).
    rewrite (scan_inside x W [c] Hx HW). f_equal. f_equal.
    apply Hafter; [exact Hlen | exact Hr | intros _ r [= _ <-]; reflexivity].
  - destruct ((c =? APOSTROPHE)%N && is_word y) eqn:E.
    + apply andb_true_iff in E as [Ec Hy]. apply N.eqb_eq in Ec. subst c.
      destruct (word_run r) as (W2 & rest2 & -> & HW2 & Hr2).
      cbn [sub_go].
      rewrite (match_contraction_some prev x y W W2 rest2 Hp Hx HW Hy HW2 Hr2).
      change ((y :: W2) ++ rest2) with (y :: W2 ++ rest2).
      rewrite (strip_apostrophe y (W2 ++ rest2) Hy).
      rewrite (strip_run AfterApostrophe y W2 rest2 Hy HW2).
      unfold join_groups. cbn [concat]. rewrite app_nil_r.
      change (W ++ APOSTROPHE :: y :: W2 ++ rest2)
        with (W ++ (APOSTROPHE :: y :: W2) ++ rest2).
      rewrite (app_assoc W (APOSTROPHE :: y :: W2) rest2).
      replace (length W + S (S (length W2)))%nat
        with (length (W ++ APOSTROPHE :: y :: W2))
        by (rewrite length_app; reflexivity).
      rewrite sub_go_skip.
      cbn [app]. rewrite <- app_assoc. cbn [app]. do 4 f_equal.
      apply Hafter; [|exact Hr2|discriminate].
      cbn [length] in Hlen. rewrite length_app in Hlen. lia.
    + assert (Hno : forall r0, c :: y :: r = APOSTROPHE :: r0 -> at_boundary r0).
      { intros r0 [= -> <-]. rewrite N.eqb_refl in E. exact E. }
      cbn [sub_go].
      rewrite (match_contraction_none prev x W (c :: y :: r) Hp Hx HW Hr Hno).
      rewrite (scan_inside x W (c :: y :: r) Hx HW). f_equal. f_equal.
      apply Hafter; [exact Hlen | exact Hr | intros _; exact Hno].
Qed.

(** [re.sub(r"\b(\w+)'(\w+)\b", r"\1\2", txt)] removes the apostrophe of
    each contraction-like token. *)
Lemma re_sub_contractions (s : pystr) :
  re_sub contraction_re join_groups s = strip_contractions Outside s.
Proof. apply scan_strip. reflexivity. Qed.

End RegexFacts.

(** ** Text normalisation *)
Section NormalizeFacts.
Context {db : UnicodeDB}.

(** The three replacements that end [normalize] insert one newline after
    each sentence terminator. *)
Lemma replace_terminators (s : pystr) :
  Str.replace [QUESTION] [QUESTION; LF]
    (Str.replace [BANG] [BANG; LF] (Str.replace [DOT] [DOT; LF] s))
  = break_sentences s.
Proof.
  rewrite !replace_char. unfold break_sentences, is_terminator.
  induction s as [|c s IH]; [reflexivity|].
  cbn [flat_map]. rewrite !flat_map_app, IH. f_equal.
  destruct (c =? DOT)%N eqn:E1.
  { apply N.eqb_eq in E1. subst c. reflexivity. }
  cbn [flat_map app]. destruct (c =? BANG)%N eqn:E2.
  { apply N.eqb_eq in E2. subst c. reflexivity. }
  cbn [flat_map app]. destruct (c =? QUESTION)%N eqn:E3; [|reflexivity].
  apply N.eqb_eq in E3. subst c. reflexivity.
Qed.

(** [normalize] is the five passes of the specification, in their order. *)
Lemma normalize_passes (txt : pystr) : normalize txt = normalize_spec txt.
Proof.
  unfold normalize, normalize_spec.
  rewrite replace_terminators, re_sub_contractions, replace_ellipsis.
  rewrite !replace_char_map. reflexivity.
Qed.

(** C5, as the code has it.  The normalisation of [_run_kokoro] is a
    function of the text alone and applies these transforms in this order:
    (1) every newline becomes a space, (2) every non-breaking space becomes
    a space, (3) each [". . ."] found from the left, behind the one before
    it, becomes ["."], (4) the apostrophe of each contraction-like token
    found from the left, behind the one before it, is removed, (5) a
    newline is inserted after each ['.'], ['!'] and ['?'].  Each statement
    of the code is the pass of that number, on every text, and [normalize]
    is their composition. *)
Theorem normalize_refines_spec (txt : pystr) :
  (forall s, Str.replace [LF] [SPACE] s = List.map newline_to_space s)
  /\ (forall s, Str.replace [NBSP] [SPACE] s = List.map nbsp_to_space s)
  /\ (forall s, Str.replace (str ". . .") (str ".") s = collapse_ellipsis s)
  /\ (forall s, re_sub contraction_re join_groups s
                = strip_contractions Outside s)
  /\ (forall s, Str.replace [QUESTION] [QUESTION; LF]
                  (Str.replace [BANG] [BANG; LF]
                     (Str.replace [DOT] [DOT; LF] s))
                = break_sentences s)
  /\ normalize txt
     = break_sentences
         (strip_contractions Outside
            (collapse_ellipsis
               (List.map nbsp_to_space (List.map newline_to_space txt)))).
Proof.
  split; [intros s; apply replace_char_map|].
  split; [intros s; apply replace_char_map|].
  split; [exact replace_ellipsis|].
  split; [exact re_sub_contractions|].
  split; [exact replace_terminators|].
  apply normalize_passes.
Qed.

End NormalizeFacts.

(** C5 as stated fails where it says every: matches are taken from the left
    and do not overlap.  In [a'b'c] the token [b'c] is a word, an
    apostrophe and a word between word boundaries, and its apostrophe
    stays; of the two [". . ."] of [". . . . ."], at offsets 0 and 4, only
    the first is collapsed, and the text still holds one afterwards. *)
Lemma normalize_keeps_later_matches :
  @match_here ascii_db contraction_re (Some APOSTROPHE) (str "b'c")
  = Some ([str "b"; str "c"], 3%nat)
  /\ @re_sub ascii_db contraction_re join_groups (str "a'b'c") = str "ab'c"
  /\ @normalize ascii_db (str "a'b'c") = str "ab'c"
  /\ @normalize ascii_db (str "a'b'c") <> str "abc"
  /\ Str.startswith (str ". . .") (str ". . . . .") = true
  /\ Str.startswith (str ". . .") (skipn 4 (str ". . . . .")) = true
  /\ Str.replace (str ". . .") (str ".") (str ". . . . .") = str ". . ."
  /\ @normalize ascii_db (str ". . . . .")
     = [DOT; LF; SPACE; DOT; LF; SPACE; DOT; LF].
Proof. repeat split; try reflexivity; discriminate. Qed.

(** ** Running the script: the monad *)

Ltac mstep :=
  unfold bind, ret, raise, emit, get_world, put_world, write_file,
    remove_file, print;
  cbn [result final emitted fs dirs stdin app].

Lemma bind_run {A B} (m : M A) (k : A -> M B) (w : world) :
  bind m k w
  = match result (m w) with
    | Ret a =>
        Run (result (k a (final (m w)))) (final (k a (final (m w))))
            (emitted (m w) ++ emitted (k a (final (m w))))
    | Raise e => Run (Raise e) (final (m w)) (emitted (m w))
    end.
Proof. reflexivity. Qed.

Lemma put_file_run {ext : Externals} (path : pystr) (f : file) (w : world) :
  put_file path f w
  = Run (Ret tt) (World (<[path := f]> (fs w)) (dirs w) (stdin w)) [].
Proof. reflexivity. Qed.

Lemma write_file_run {ext : Externals} (path : pystr) (f : file) (w : world) :
  write_file path f w
  = if parent_exists w path
    then Run (Ret tt) (World (<[path := f]> (fs w)) (dirs w) (stdin w)) []
    else Run (Raise (open_error w path)) w [].
Proof.
  unfold write_file. rewrite bind_run. cbn [get_world result final emitted].
  destruct (parent_exists w path); reflexivity.
Qed.

Lemma remove_file_run {ext : Externals} (path : pystr) (w : world) :
  remove_file path w
  = Run (Ret tt) (World (delete path (fs w)) (dirs w) (stdin w)) [].
Proof. reflexivity. Qed.

(** ** [TextToAudio] *)
Section TextToAudioFacts.
Context {db : UnicodeDB} {ext : Externals}.

Lemma write_chunks (path : pystr) (chs : list (option (list Q)))
      (acc : list Z) (files : gmap pystr file) (d : gset pystr) (i : list pystr) :
  for_each chs
    (fun result =>
       match result with
       | None => ret tt
       | Some audio => TextToAudio.writeframes path (TextToAudio.pcm16 audio)
       end)
    (World (<[path := WavFile acc]> files) d i)
  = Run (Ret tt) (World (<[path := WavFile (acc ++ frames_of chs)]> files) d i) [].
Proof.
  revert acc. induction chs as [|[audio|] chs IH]; intros acc.
  - cbn [for_each frames_of flat_map]. rewrite app_nil_r. reflexivity.
  - cbn [for_each]. rewrite bind_run. unfold TextToAudio.writeframes.
    rewrite bind_run. cbn [get_world result final emitted fs].
    rewrite lookup_insert_eq, put_file_run. cbn [result final emitted fs dirs stdin].
    rewrite insert_insert_eq, IH. cbn [result final emitted app].
    unfold frames_of. cbn [flat_map]. rewrite app_assoc. reflexivity.
  - cbn [for_each]. rewrite bind_run. cbn [ret result final emitted].
    rewrite IH. reflexivity.
Qed.

(** [_run_kokoro] creates the wave file, fills it with the audio of the
    chunks and emits nothing; it raises what the engine raises, and before
    that what opening the file raises. *)
Lemma run_kokoro_spec (self : TextToAudio.t) (txt path : pystr) (w : world) :
  let stream := kokoro (TextToAudio.voice self) (TextToAudio.speed self)
                       (normalize txt) in
  TextToAudio._run_kokoro self txt path w
  = if parent_exists w path
    then Run (match failure stream with Some e => Raise e | None => Ret tt end)
             (World (<[path := WavFile (frames_of (chunks stream))]> (fs w))
                    (dirs w) (stdin w))
             []
    else Run (Raise (open_error w path)) w [].
Proof.
  intros stream. unfold TextToAudio._run_kokoro. fold stream.
  rewrite bind_run, write_file_run.
  destruct (parent_exists w path); [|reflexivity].
  cbn [result final emitted app]. rewrite bind_run.
  rewrite (write_chunks path (chunks stream) [] (fs w) (dirs w) (stdin w)).
  cbn [result final emitted app].
  destruct (failure stream); reflexivity.
Qed.

Lemma run_ffmpeg (wav opus : pystr) (w : world) :
  TextToAudio.subprocess_run (TextToAudio.ffmpeg_cmd wav opus) w
  = match ffmpeg (fs w) (List.tl (TextToAudio.ffmpeg_cmd wav opus)) with
    | EncExit returncode output =>
        Run (Ret returncode)
            (World (match output with
                    | Some f => <[opus := f]> (fs w)
                    | None => fs w
                    end) (dirs w) (stdin w))
            []
    | EncFail e => Run (Raise e) w []
    end.
Proof.
  unfold TextToAudio.subprocess_run, TextToAudio.ffmpeg_cmd.
  change (Str.eqb (str "ffmpeg") (str "ffmpeg")) with true. cbv iota.
  rewrite bind_run. cbn [get_world result final emitted app List.tl].
  destruct (ffmpeg _ _) as [rc [f|]|e]; [| |reflexivity].
  - rewrite bind_run. cbn [last]. rewrite put_file_run. reflexivity.
  - rewrite bind_run. cbn [last]. destruct w. reflexivity.
Qed.

Lemma run_rm (wav : pystr) (w : world) :
  TextToAudio.subprocess_run [str "rm"; wav] w
  = if TextToAudio.is_option wav then Run (Ret 1) w []
    else Run (Ret (if bool_decide (is_Some (fs w !! wav)) then 0 else 1))
             (World (delete wav (fs w)) (dirs w) (stdin w)) [].
Proof.
  unfold TextToAudio.subprocess_run.
  change (Str.eqb (str "rm") (str "ffmpeg")) with false.
  change (Str.eqb (str "rm") (str "rm")) with true. cbv iota.
  cbn [existsb]. rewrite orb_false_r.
  destruct (TextToAudio.is_option wav); [reflexivity|].
  rewrite bind_run. cbn [get_world result final emitted app].
  rewrite bind_run. cbn [for_each]. rewrite bind_run, remove_file_run.
  cbn [result final emitted app ret forallb]. rewrite andb_true_r. reflexivity.
Qed.

(** What one call of [run] does, for a callback that only reports: the
    events are the reports of the milestones reached, the wave file is
    written if it can be opened, the encoder leaves what it leaves, and
    after an exit with code 0 [rm] is asked to remove the wave file. *)
Lemma run_spec (self : TextToAudio.t) (text filename : pystr)
      (cb : Q -> pystr -> M unit) (ev : Q -> pystr -> event) (w : world) :
  (forall p m w', cb p m w' = Run (Ret tt) w' [ev p m]) ->
  let wav := fst (TextToAudio.output_paths filename) in
  let opus := snd (TextToAudio.output_paths filename) in
  let stream := kokoro (TextToAudio.voice self) (TextToAudio.speed self)
                       (normalize text) in
  let w1 := World (<[wav := WavFile (frames_of (chunks stream))]> (fs w))
                  (dirs w) (stdin w) in
  TextToAudio.run self text filename (Some cb) w
  = if parent_exists w wav then
      match failure stream with
      | Some e => Run (Raise e) w1 [ev 5%Q (str "Generating WAV...")]
      | None =>
          match ffmpeg (fs w1) (List.tl (TextToAudio.ffmpeg_cmd wav opus)) with
          | EncFail e =>
              Run (Raise e) w1
                  (List.map (fun r => ev (fst r) (snd r)) (sub_step_reports false))
          | EncExit returncode output =>
              let files := match output with
                           | Some f => <[opus := f]> (fs w1)
                           | None => fs w1
                           end in
              if returncode =? 0
              then Run (Ret tt)
                       (World (if TextToAudio.is_option wav then files
                               else delete wav files) (dirs w) (stdin w))
                       (List.map (fun r => ev (fst r) (snd r))
                                 (sub_step_reports true))
              else Run (Ret tt) (World files (dirs w) (stdin w))
                       (List.map (fun r => ev (fst r) (snd r))
                                 (sub_step_reports false))
          end
      end
    else Run (Raise (open_error w wav)) w
             [ev 5%Q (str "Generating WAV...")].
Proof.
  intros Hcb wav opus stream w1. unfold TextToAudio.run.
  subst wav opus. destruct (TextToAudio.output_paths filename) as [wav opus].
  cbn [fst snd] in *.
  rewrite bind_run, Hcb. cbn [result final emitted].
  rewrite bind_run, run_kokoro_spec. fold stream.
  destruct (parent_exists w wav); [|reflexivity]. fold w1.
  cbn [result final emitted]. destruct (failure stream) as [e|]; [reflexivity|].
  rewrite bind_run, Hcb. cbn [result final emitted].
  rewrite bind_run, run_ffmpeg.
  destruct (ffmpeg (fs w1) _) as [rc out|e]; [|reflexivity].
  cbn [result final emitted]. destruct (rc =? 0).
  - rewrite bind_run, Hcb. cbn [result final emitted].
    rewrite bind_run, run_rm.
    destruct (TextToAudio.is_option wav);
      cbn [result final emitted fs dirs stdin]; rewrite Hcb; reflexivity.
  - reflexivity.
Qed.

Lemma endswith_app (p stem : pystr) : Str.endswith p (stem ++ p) = true.
Proof. unfold Str.endswith. rewrite rev_app_distr. apply startswith_app. Qed.


Lemma drop_last_app (stem p : pystr) :
  Str.drop_last (length p) (stem ++ p) = stem.
Proof.
  unfold Str.drop_last. rewrite length_app.
  replace (length stem + length p - length p)%nat with (length stem) by lia.
  rewrite firstn_app, Nat.sub_diag, firstn_all. cbn. apply app_nil_r.
Qed.







End TextToAudioFacts.




(** ** File names *)

(** What [clean_filename] leaves in each part: alphanumerics, hyphens and
    underscores. *)
Lemma lstrip_suffix (s : pystr) : exists pre, s = pre ++ Str.lstrip s.
Proof.
  induction s as [|c s [pre IH]]; [exists []; reflexivity|].
  cbn [Str.lstrip]. destruct (isspace c).
  - exists (c :: pre). cbn. f_equal. exact IH.
  - exists []. reflexivity.
Qed.

Lemma rstrip_prefix (s : pystr) : exists post, s = Str.rstrip s ++ post.
Proof.
  unfold Str.rstrip. destruct (lstrip_suffix (rev s)) as [pre H].
  exists (rev pre). rewrite <- rev_app_distr, <- H, rev_involutive. reflexivity.
Qed.

Lemma strip_Forall (P : N -> Prop) (s : pystr) :
  Forall P s -> Forall P (Str.strip s).
Proof.
  intros H. unfold Str.strip.
  destruct (lstrip_suffix s) as [pre Hs].
  destruct (rstrip_prefix (Str.lstrip s)) as [post Hl].
  rewrite Hs, Hl in H. apply Forall_app in H as [_ H].
  apply Forall_app in H as [H _]. exact H.
Qed.

Lemma clean_part_chars {db : UnicodeDB} (p : pystr) :
  Forall (fun c => isalnum c || (c =? HYPHEN)%N || (c =? UNDERSCORE)%N = true)
         (clean_part p).
Proof.
  unfold clean_part. apply strip_Forall. apply Forall_map.
  induction p as [|c p IH]; constructor; [|exact IH].
  cbn. destruct (isalnum c || (c =? HYPHEN)%N || (c =? UNDERSCORE)%N) eqn:E.
  - exact E.
  - unfold UNDERSCORE at 2 3. rewrite N.eqb_refl, !orb_true_r. reflexivity.
Qed.

(** C3, as the code has it.  Sanitization leaves alphanumerics, hyphens
    and underscores only, every other character having become ['_'], and
    joins the parts of a title with ['_'].  With the title ["My Book!"] the
    space and the exclamation mark both become ['_'], so the sanitized
    title is ["My_Book_"] and the basename of part 7, with the index
    padded to three digits after ["_part_"], is ["My_Book__part_007"], in
    whatever directory. *)
Theorem basename_of_my_book {db : UnicodeDB} (outDir : pystr) :
  (forall p, Forall (fun c => isalnum c || (c =? HYPHEN)%N || (c =? UNDERSCORE)%N
                              = true) (clean_part p))
  /\ (forall p q, clean_filename [p; q] = clean_part p ++ str "_" ++ clean_part q)
  /\ clean_filename [str "My Book!"] = str "My_Book_"
  /\ Str.format_03d 7 = str "007"
  /\ BookReader.partBasename outDir (clean_filename [str "My Book!"]) 7
     = path_join outDir (str "My_Book__part_007")
  /\ BookReader.partBasename [] (clean_filename [str "My Book!"]) 7
     = str "My_Book__part_007".
Proof.
  split; [exact clean_part_chars|]. repeat split; reflexivity.
Qed.

(** C3 as stated fails: the basename is not ["My_Book_part_007"]. *)
Lemma basename_of_my_book_differs :
  BookReader.partBasename [] (@clean_filename ascii_db [str "My Book!"]) 7
  <> str "My_Book_part_007".
Proof. discriminate. Qed.

(** ** [BookReader.getParts] *)

Lemma lstrip_head (s : pystr) :
  match Str.lstrip s with c :: _ => isspace c = false | [] => True end.
Proof.
  induction s as [|c s IH]; [exact I|].
  cbn [Str.lstrip]. destruct (isspace c) eqn:E; [exact IH | exact E].
Qed.

Lemma lstrip_fixed (s : pystr) :
  match s with c :: _ => isspace c = false | [] => True end ->
  Str.lstrip s = s.
Proof. destruct s as [|c s]; [reflexivity|]. cbn. intros ->. reflexivity. Qed.

(** A text is trimmed when white space neither starts nor ends it. *)
Lemma strip_fixed_iff (s : pystr) :
  Str.strip s = s
  <-> match s with c :: _ => isspace c = false | [] => True end
      /\ match rev s with c :: _ => isspace c = false | [] => True end.
Proof.
  unfold Str.strip, Str.rstrip. split.
  - intros H. split.
    + destruct (rstrip_prefix (Str.lstrip s)) as [post Hp].
      unfold Str.rstrip in Hp. rewrite H in Hp.
      pose proof (lstrip_head s) as Hh. rewrite Hp in Hh.
      destruct s; [exact I | exact Hh].
    + pose proof (lstrip_head (rev (Str.lstrip s))) as Hh.
      rewrite <- H, rev_involutive. exact Hh.
  - intros [Hh Ht]. rewrite (lstrip_fixed s Hh), (lstrip_fixed (rev s) Ht).
    apply rev_involutive.
Qed.

Lemma strip_strip (s : pystr) : Str.strip (Str.strip s) = Str.strip s.
Proof.
  apply strip_fixed_iff. unfold Str.strip, Str.rstrip. split.
  - destruct (rstrip_prefix (Str.lstrip s)) as [post Hp].
    unfold Str.rstrip in Hp. pose proof (lstrip_head s) as Hh.
    rewrite Hp in Hh.
    destruct (rev (Str.lstrip (rev (Str.lstrip s)))); [exact I | exact Hh].
  - rewrite rev_involutive. apply lstrip_head.
Qed.

Lemma nbsp_is_space : isspace NBSP = true.
Proof. reflexivity. Qed.

Lemma nbsp_to_space_keeps (c : N) : isspace c = false -> nbsp_to_space c = c.
Proof.
  intros H. unfold nbsp_to_space. destruct (c =? NBSP)%N eqn:E; [|reflexivity].
  apply N.eqb_eq in E. subst c. rewrite nbsp_is_space in H. discriminate.
Qed.

Lemma map_head_fixed (f : N -> N) (s : pystr) :
  match s with c :: _ => isspace c = false | [] => True end ->
  (forall c, isspace c = false -> f c = c) ->
  match List.map f s with c :: _ => isspace c = false | [] => True end.
Proof.
  destruct s as [|c s]; [intros; exact I|]. cbn. intros Hc Hf.
  rewrite (Hf c Hc). exact Hc.
Qed.

(** The text [getParts] keeps of an item: stripped, then freed of
    non-breaking spaces; it is trimmed and holds no non-breaking space. *)
Lemma part_text_clean (t : pystr) :
  let p := Str.replace [NBSP] [SPACE] (Str.strip t) in
  ~ In NBSP p /\ Str.strip p = p.
Proof.
  intros p. subst p. rewrite replace_char_map.
  change (fun x : N => if (x =? NBSP)%N then SPACE else x) with nbsp_to_space.
  split.
  - intros H. apply in_map_iff in H as (c & Hc & _). unfold nbsp_to_space in Hc.
    destruct (c =? NBSP)%N eqn:E; [discriminate|].
    apply N.eqb_neq in E. exact (E Hc).
  - pose proof (proj1 (strip_fixed_iff (Str.strip t)) (strip_strip t)) as [Hh Ht].
    apply strip_fixed_iff. split.
    + apply map_head_fixed; [exact Hh | exact nbsp_to_space_keeps].
    + rewrite <- map_rev.
      apply map_head_fixed; [exact Ht | exact nbsp_to_space_keeps].
Qed.

(** A returned part as the claim describes it: not empty, without
    non-breaking space, trimmed. *)
Local Abbreviation clean_text p :=
  (p <> [] /\ ~ In NBSP p /\ Str.strip p = p)%list.

Lemma add_part_clean (parts : list pystr) (item : epub_item) :
  Forall (fun p => clean_text p) parts ->
  Forall (fun p => clean_text p) (BookReader.add_part parts item).
Proof.
  intros H. unfold BookReader.add_part.
  pose proof (part_text_clean (item_text item)) as [Hn Hs].
  destruct (Str.replace [NBSP] [SPACE] (Str.strip (item_text item)))
    as [|c r] eqn:E; [exact H|].
  apply Forall_app. split; [exact H|]. constructor; [|constructor].
  split; [discriminate|]. split; [exact Hn | exact Hs].
Qed.

Lemma fold_add_part_clean (items : list epub_item) (parts : list pystr) :
  Forall (fun p => clean_text p) parts ->
  Forall (fun p => clean_text p) (fold_left BookReader.add_part items parts).
Proof.
  revert parts. induction items as [|item items IH]; intros parts H; [exact H|].
  cbn [fold_left]. apply IH, add_part_clean, H.
Qed.

(** The parts are the texts of the items in order, without the items whose
    text is empty once stripped. *)
Lemma fold_add_part_omap (items : list epub_item) (parts : list pystr) :
  fold_left BookReader.add_part items parts
  = parts ++ omap (fun item =>
                     match Str.strip (item_text item) with
                     | [] => None
                     | _ :: _ =>
                         Some (Str.replace [NBSP] [SPACE] (Str.strip (item_text item)))
                     end) items.
Proof.
  revert parts. induction items as [|item items IH]; intros parts.
  - cbn. symmetry. apply app_nil_r.
  - cbn [fold_left]. rewrite IH. unfold BookReader.add_part.
    cbn [omap list_omap].
    destruct (Str.strip (item_text item)) as [|c r]; [reflexivity|].
    rewrite (replace_char_map NBSP SPACE (c :: r)). cbn [List.map].
    rewrite <- app_assoc. reflexivity.
Qed.

(** C10. For a reader whose cache holds clean parts only, as the cache of
    a new reader does, every part [getParts] returns is a non-empty string
    without non-breaking space and without white space at either end; from
    an empty cache the parts are the cleaned texts of the items, those
    that are empty once stripped left out; and once the returned sequence
    is not empty, every further call returns that same sequence and leaves
    the reader as it is. *)
Theorem getParts_clean_and_cached (self : BookReader.t) :
  Forall (fun p => p <> [] /\ ~ In NBSP p /\ Str.strip p = p)
         (BookReader.parts self) ->
  let ps := fst (BookReader.getParts self) in
  let self' := snd (BookReader.getParts self) in
  Forall (fun p => p <> [] /\ ~ In NBSP p /\ Str.strip p = p) ps
  /\ BookReader.parts self' = ps
  /\ (BookReader.parts self = [] ->
      ps = omap (fun item =>
                   match Str.strip (item_text item) with
                   | [] => None
                   | _ :: _ =>
                       Some (Str.replace [NBSP] [SPACE] (Str.strip (item_text item)))
                   end) (epub_documents (BookReader.book self)))
  /\ (ps <> [] -> BookReader.getParts self' = (ps, self')).
Proof.
  intros Hinv ps self'. subst ps self'. unfold BookReader.getParts.
  destruct (BookReader.parts self) as [|p0 rest] eqn:E.
  - cbn [fst snd BookReader.parts]. split; [|split; [reflexivity|split]].
    + apply fold_add_part_clean. constructor.
    + intros _. apply (fold_add_part_omap _ []).
    + destruct (fold_left BookReader.add_part _ []) as [|q qs] eqn:F;
        [intros H; destruct (H eq_refl)|].
      intros _. cbn [BookReader.parts]. reflexivity.
  - cbn [fst snd]. rewrite E. split; [exact Hinv|].
    split; [reflexivity|]. split; [discriminate|]. intros _. reflexivity.
Qed.

(** The statement of [getParts_clean_and_cached] for a new reader of the
    sample book. *)
Lemma getParts_clean_and_cached_witness :
  let self := BookReader.Build (str "book.epub") sample_epub [] [] in
  let ps := fst (BookReader.getParts self) in
  let self' := snd (BookReader.getParts self) in
  ps = [str "One two."; str "Three"]
  /\ Forall (fun p => p <> [] /\ ~ In NBSP p /\ Str.strip p = p) ps
  /\ BookReader.getParts self' = (ps, self').
Proof.
  intros self ps self'.
  destruct (getParts_clean_and_cached self) as (Hclean & _ & _ & Hcache).
  - constructor.
  - split; [reflexivity|]. split; [exact Hclean|].
    apply Hcache. discriminate.
Defined.

(** ** [BookReader._find_parts] *)
Section RangeFacts.
Context {db : UnicodeDB} {ext : Externals}.

Lemma input_run (prompt line : pystr) (f : gmap pystr file) (d : gset pystr)
      (rest : list pystr) :
  input prompt (World f d (line :: rest))
  = Run (Ret line) (World f d rest) [Prompt prompt].
Proof. reflexivity. Qed.



Lemma list_index_run {A} (l : list A) (i : Z) (x : A) (w : world) :
  0 <= i -> l !! Z.to_nat i = Some x -> list_index l i w = Run (Ret x) w [].
Proof.
  intros Hi Hx. unfold list_index.
  assert (Hlt : i < Z.of_nat (length l)).
  { apply lookup_lt_Some in Hx. lia. }
  destruct (i <? 0) eqn:E; [apply Z.ltb_lt in E; lia|].
  replace (0 <=? i) with true by (symmetry; apply Z.leb_le; lia).
  replace (i <? Z.of_nat (length l)) with true by (symmetry; apply Z.ltb_lt; lia).
  cbn [andb]. rewrite Hx. reflexivity.
Qed.

(** One question of a search loop, answered by the next line typed. *)
Lemma ask_run (question : pystr) (parts : list pystr) (i : Z) (part answer : pystr)
      (f : gmap pystr file) (d : gset pystr) (rest : list pystr) :
  0 <= i -> parts !! Z.to_nat i = Some part ->
  BookReader.ask question parts i (World f d (answer :: rest))
  = Run (Ret (Str.eqb answer (str "y"))) (World f d rest)
        [Print ([LF] ++ str "Index " ++ Str.of_Z i ++ str ":");
         Print (BookReader.firstWords part); Prompt question].
Proof.
  intros Hi Hp. unfold BookReader.ask.
  rewrite bind_run. cbn [print emit result final emitted].
  rewrite bind_run, (list_index_run parts i part _ Hi Hp).
  cbn [result final emitted]. rewrite bind_run.
  cbn [print emit result final emitted]. rewrite bind_run, input_run.
  reflexivity.
Qed.

Local Abbreviation valid_indices parts l :=
  (Forall (fun i => 0 <= i /\ is_Some (parts !! Z.to_nat i)) l).
Local Abbreviation all_no answers :=
  (Forall (fun a => Str.eqb a (str "y") = false) answers).


(** A search loop whose questions are all answered otherwise runs to its
    end. *)
Lemma for_until_ask_no (question : pystr) (parts : list pystr) (l : list Z)
      (nos rest : list pystr) (f : gmap pystr file) (d : gset pystr) :
  valid_indices parts l -> all_no nos -> length nos = length l ->
  let r := for_until l (BookReader.ask question parts)
             (World f d (nos ++ rest)) in
  result r = Ret None /\ final r = World f d rest.
Proof.
  intros Hl Hnos. revert l Hl.
  induction Hnos as [|a nos Ha Hnos IH]; intros l Hl Hlen.
  - destruct l; [|discriminate]. split; reflexivity.
  - destruct Hl as [|i l [Hi [part Hp]] Hl]; [discriminate|].
    cbn [app for_until length]. rewrite bind_run.
    rewrite (ask_run question parts i part a f d _ Hi Hp).
    cbn [result final emitted]. rewrite Ha.
    destruct (IH l Hl) as [Hr Hf]; [cbn in Hlen; lia|].
    cbn [result final]. split; [exact Hr | exact Hf].
Qed.

Lemma range_valid (parts : list pystr) (lo n : Z) :
  0 <= lo -> lo + n <= Z.of_nat (length parts) ->
  valid_indices parts (seqZ lo n).
Proof.
  intros Hlo Hn. apply Forall_forall. intros i Hi.
  apply elem_of_seqZ in Hi. split; [lia|].
  apply lookup_lt_is_Some. lia.
Qed.


Lemma range_down_valid (parts : list pystr) :
  valid_indices parts (range_down (Z.of_nat (length parts) - 1) 0).
Proof.
  apply Forall_forall. intros i Hi. unfold range_down in Hi.
  apply list_elem_of_In, in_rev, list_elem_of_In, elem_of_seqZ in Hi.
  split; [lia|]. apply lookup_lt_is_Some. lia.
Qed.


(** Without any confirmation the search returns the whole book. *)
Lemma search_parts_default (parts : list pystr) (nos1 nos2 rest : list pystr)
      (f : gmap pystr file) (d : gset pystr) :
  all_no nos1 -> all_no nos2 ->
  length nos1 = length parts -> S (length nos2) = length parts ->
  let r := BookReader.search_parts parts (World f d (nos1 ++ nos2 ++ rest)) in
  result r = Ret (0, Z.of_nat (length parts) - 1) /\ final r = World f d rest.
Proof.
  intros H1 H2 Hl1 Hl2. unfold BookReader.search_parts.
  rewrite bind_run. cbn [print emit result final emitted]. rewrite bind_run.
  destruct (for_until_ask_no (str "Is this the start (y/n)? ") parts
              (range 0 (Z.of_nat (length parts))) nos1 (nos2 ++ rest) f d)
    as [Hr Hf]; [| exact H1 | |].
  { apply range_valid; unfold range; lia. }
  { unfold range. rewrite length_seqZ. lia. }
  rewrite Hr, Hf. cbn [result final emitted].
  rewrite bind_run. cbn [print emit result final emitted]. rewrite bind_run.
  destruct (for_until_ask_no (str "Is this the end (y/n)? ") parts
              (range_down (Z.of_nat (length parts) - 1) 0) nos2 rest f d)
    as [Hr2 Hf2]; [| exact H2 | |].
  { apply range_down_valid. }
  { unfold range_down. rewrite length_rev, length_seqZ. lia. }
  rewrite Hr2, Hf2. cbn [result final emitted default]. split; reflexivity.
Qed.


End RangeFacts.



(** ** [AudioGenerationWorker.run] *)
Section WorkerFacts.
Context {db : UnicodeDB} {ext : Externals}.

Lemma truediv_run (a b : Q) (w : world) :
  ~ (b == 0)%Q -> truediv a b w = Run (Ret (a / b)%Q) w [].
Proof.
  intros Hb. unfold truediv. destruct (Qeq_bool b 0) eqn:E; [|reflexivity].
  apply Qeq_bool_eq in E. contradiction.
Qed.

Lemma inject_Z_nonzero (t : Z) : t <> 0 -> ~ (inject_Z t == 0)%Q.
Proof. unfold Qeq. cbn. lia. Qed.

(** The progress adapter only reports: one event, with the overall
    fraction and the tagged message. *)
Lemma part_progress_callback_run (current total : Z) (p : Q) (m : pystr)
      (w : world) :
  total <> 0 ->
  AudioGenerationWorker.part_progress_callback current total p m w
  = Run (Ret tt) w [report_event current total (p, m)].
Proof.
  intros Ht. unfold AudioGenerationWorker.part_progress_callback.
  rewrite bind_run, truediv_run by discriminate.
  cbn [result final emitted]. rewrite bind_run.
  rewrite truediv_run by (apply inject_Z_nonzero, Ht).
  reflexivity.
Qed.

Lemma list_index_cases {A} (l : list A) (i : Z) (w : world) :
  (exists x, list_index l i w = Run (Ret x) w [])
  \/ (exists e, list_index l i w = Run (Raise e) w []).
Proof.
  unfold list_index.
  destruct ((0 <=? (if i <? 0 then i + Z.of_nat (length l) else i))
            && ((if i <? 0 then i + Z.of_nat (length l) else i)
                <? Z.of_nat (length l))).
  - destruct (l !! _) as [x|]; [left | right]; eexists; reflexivity.
  - right. eexists. reflexivity.
Qed.

(** One turn of the loop either completes, with the events of the part, or
    raises after some of the reports that precede the encoding. *)
Lemma run_part_outcome (self : AudioGenerationWorker.t) (tts : TextToAudio.t)
      (outdir title : pystr) (book : BookReader.t) (i : Z) (w : world) :
  let start := AudioGenerationWorker.start_idx self in
  let end_ := AudioGenerationWorker.end_idx self in
  end_ - start + 1 <> 0 ->
  let r := AudioGenerationWorker.run_part self tts outdir title book
             (end_ - start + 1) i w in
  (exists encoded, result r = Ret tt
                   /\ emitted r = part_events start end_ i encoded)
  \/ (exists e k, result r = Raise e
                  /\ emitted r
                     = firstn k (List.map (report_event (i - start + 1)
                                                        (end_ - start + 1))
                                          (sub_step_reports false))).
Proof.
  intros start end_ Ht r. subst r. unfold AudioGenerationWorker.run_part.
  fold start end_. rewrite bind_run.
  destruct (list_index_cases (BookReader.parts book) i w) as [[text ->]|[e ->]];
    cbn [result final emitted app];
    [|right; exists e, 0%nat; split; reflexivity].
  rewrite bind_run.
  rewrite (run_spec tts text (BookReader.partBasename outdir title i)
             (AudioGenerationWorker.part_progress_callback (i - start + 1)
                                                           (end_ - start + 1))
             (fun p m => report_event (i - start + 1) (end_ - start + 1) (p, m)) w)
    by (intros p m w'; apply part_progress_callback_run, Ht).
  destruct (parent_exists w _);
    [|right; eexists _, 1%nat; split; reflexivity].
  destruct (failure _) as [e|];
    [right; exists e, 1%nat; split; reflexivity|].
  destruct (ffmpeg _ _) as [rc out|e];
    [|right; exists e, 2%nat; split; reflexivity].
  left. exists (rc =? 0). unfold part_events. fold start end_.
  destruct (rc =? 0); cbn [result final emitted];
    rewrite bind_run, truediv_run by (apply inject_Z_nonzero, Ht);
    split; reflexivity.
Qed.

Lemma makedirs_emits (path : pystr) (w : world) : emitted (makedirs path w) = [].
Proof.
  unfold makedirs. rewrite bind_run. cbn [get_world result final emitted].
  destruct (fs w !! path); reflexivity.
Qed.

Lemma makedir_emits (book : BookReader.t) (w : world) :
  emitted (BookReader.makedir book w) = [].
Proof.
  unfold BookReader.makedir. destruct (BookReader.getTitle book) as [title0 self'].
  rewrite bind_run. pose proof (makedirs_emits
    (path_join (dirname (abspath (BookReader.filename self')))
               (clean_filename [title0])) w) as He.
  destruct (makedirs _ w) as [[u|e] w' evs]; cbn [result final emitted] in *;
    subst evs; reflexivity.
Qed.

Lemma seqZ_S_cons (i : Z) (n : nat) :
  seqZ i (Z.of_nat (S n)) = i :: seqZ (i + 1) (Z.of_nat n).
Proof.
  rewrite seqZ_cons by lia. f_equal. f_equal; lia.
Qed.

(** A loop that ends without raising has emitted, part after part, the
    events of each part. *)
Lemma loop_completes (self : AudioGenerationWorker.t) (tts : TextToAudio.t)
      (outdir title : pystr) (book : BookReader.t) (n : nat) (i : Z) (w : world) :
  let start := AudioGenerationWorker.start_idx self in
  let end_ := AudioGenerationWorker.end_idx self in
  end_ - start + 1 <> 0 ->
  let r := for_each (seqZ i (Z.of_nat n))
             (AudioGenerationWorker.run_part self tts outdir title book
                                             (end_ - start + 1)) w in
  result r = Ret tt ->
  exists encoded : list bool,
    length encoded = n
    /\ emitted r
       = concat (zip_with (part_events start end_) (seqZ i (Z.of_nat n)) encoded).
Proof.
  intros start end_ Ht. revert i w. induction n as [|n IH]; intros i w r Hr.
  - exists []. split; reflexivity.
  - subst r. rewrite seqZ_S_cons in *. cbn [for_each] in *.
    rewrite bind_run in *.
    destruct (run_part_outcome self tts outdir title book i w Ht)
      as [(b & Hres & Hev)|(e & k & Hres & _)];
      fold start end_ in Hres; rewrite Hres in *; [|discriminate Hr].
    cbn [result final emitted] in *.
    destruct (IH (i + 1) _ Hr) as (encoded & Hlen & Hevs).
    exists (b :: encoded). split; [cbn; lia|].
    cbn [zip_with concat]. fold start end_ in Hev. rewrite Hev, Hevs.
    reflexivity.
Qed.

(** A loop that a unit ends by raising has emitted the events of the units
    before it, then the reports that this unit made before it raised. *)
Lemma loop_raises (self : AudioGenerationWorker.t) (tts : TextToAudio.t)
      (outdir title : pystr) (book : BookReader.t) (n : nat) (i : Z) (w : world)
      (e : exn) :
  let start := AudioGenerationWorker.start_idx self in
  let end_ := AudioGenerationWorker.end_idx self in
  end_ - start + 1 <> 0 ->
  let r := for_each (seqZ i (Z.of_nat n))
             (AudioGenerationWorker.run_part self tts outdir title book
                                             (end_ - start + 1)) w in
  result r = Raise e ->
  exists (j : nat) (encoded : list bool) (k : nat),
    (j < n)%nat /\ length encoded = j /\ (k <= 2)%nat
    /\ emitted r
       = concat (zip_with (part_events start end_) (seqZ i (Z.of_nat j)) encoded)
         ++ firstn k (List.map (report_event (i + Z.of_nat j - start + 1)
                                             (end_ - start + 1))
                               (sub_step_reports false)).
Proof.
  intros start end_ Ht. revert i w. induction n as [|n IH]; intros i w r Hr.
  - discriminate Hr.
  - subst r. rewrite seqZ_S_cons in *. cbn [for_each] in *.
    rewrite bind_run in *.
    destruct (run_part_outcome self tts outdir title book i w Ht)
      as [(b & Hres & Hev)|(e0 & k & Hres & Hev)];
      fold start end_ in Hres, Hev; rewrite Hres in *.
    + cbn [result final emitted] in *.
      destruct (IH (i + 1) _ Hr) as (j & encoded & k & Hj & Hlen & Hk & Hevs).
      exists (S j), (b :: encoded), k.
      split; [lia|]. split; [cbn; lia|]. split; [exact Hk|].
      rewrite seqZ_S_cons. cbn [zip_with concat]. rewrite Hev, Hevs.
      replace (i + Z.of_nat (S j)) with (i + 1 + Z.of_nat j) by lia.
      rewrite <- app_assoc. reflexivity.
    + cbn [result final emitted] in *.
      exists 0%nat, [], (Nat.min k 2).
      split; [lia|]. split; [reflexivity|]. split; [lia|].
      change (Z.of_nat 0) with 0. rewrite seqZ_nil by lia.
      cbn [zip_with concat app].
      replace (i + 0 - start + 1) with (i - start + 1) by lia. rewrite Hev.
      destruct k as [|[|[|k]]]; reflexivity.
Qed.

Lemma reports_no_completion (current total : Z) (k : nat) :
  List.filter is_part_complete
    (firstn k (List.map (report_event current total) (sub_step_reports false)))
  = [].
Proof. destruct k as [|[|[|k]]]; reflexivity. Qed.

Lemma part_events_no_error (start end_ : Z) (l : list Z) (encoded : list bool) :
  existsb is_error (concat (zip_with (part_events start end_) l encoded)) = false.
Proof.
  revert encoded. induction l as [|i l IH]; intros [|b encoded]; try reflexivity.
  cbn [zip_with concat]. rewrite existsb_app, IH.
  destruct b; reflexivity.
Qed.

Lemma report_not_completion (current total : Z) (report : Q * pystr) :
  is_part_complete (report_event current total report) = false.
Proof. reflexivity. Qed.

Lemma completion_is_completion (current total : Z) :
  is_part_complete (completion_event current total) = true.
Proof. apply startswith_app. Qed.

Lemma part_events_completion (start end_ i : Z) (encoded : bool) :
  List.filter is_part_complete (part_events start end_ i encoded)
  = [completion_event (i - start + 1) (end_ - start + 1)].
Proof.
  unfold part_events. rewrite List.filter_app.
  cbn [List.filter]. rewrite completion_is_completion.
  destruct encoded; reflexivity.
Qed.

Lemma parts_events_completions (start end_ : Z) (l : list Z) (encoded : list bool) :
  length encoded = length l ->
  List.filter is_part_complete (concat (zip_with (part_events start end_) l encoded))
  = List.map (fun i => completion_event (i - start + 1) (end_ - start + 1)) l.
Proof.
  revert encoded. induction l as [|i l IH]; intros [|b encoded] Hlen;
    try discriminate; [reflexivity|].
  cbn [zip_with concat List.map]. rewrite List.filter_app, part_events_completion.
  rewrite IH by (cbn in Hlen; lia). reflexivity.
Qed.

(** [run], unfolded: the directory, then the loop, then the signal that
    ends the job. *)
Lemma run_unfold (self : AudioGenerationWorker.t) (w : world) :
  let start := AudioGenerationWorker.start_idx self in
  let end_ := AudioGenerationWorker.end_idx self in
  let tts := TextToAudio.Build (AudioGenerationWorker.voice self)
                               (AudioGenerationWorker.speed self) in
  let mk := BookReader.makedir (AudioGenerationWorker.book self) w in
  AudioGenerationWorker.run self w
  = match result mk with
    | Raise e => Run (Ret tt) (final mk) [Error (exn_msg e)]
    | Ret (outdir, title, book) =>
        let loop := for_each (seqZ start (end_ - start + 1))
                      (AudioGenerationWorker.run_part self tts outdir title book
                                                      (end_ - start + 1))
                      (final mk) in
        match result loop with
        | Ret _ => Run (Ret tt) (final loop) (emitted loop ++ [Finished true])
        | Raise e => Run (Ret tt) (final loop) (emitted loop ++ [Error (exn_msg e)])
        end
    end.
Proof.
  intros start end_ tts mk.
  unfold AudioGenerationWorker.run, try_except. rewrite bind_run.
  fold start end_ tts mk.
  pose proof (makedir_emits (AudioGenerationWorker.book self) w) as Hmk.
  fold mk in Hmk.
  destruct mk as [[[[outdir title] book]|e] w1 evs];
    cbn [result final emitted] in *; subst evs; [|reflexivity].
  rewrite bind_run. unfold range.
  replace (end_ + 1 - start) with (end_ - start + 1) by lia.
  destruct (for_each _ _ w1) as [[[]|e] w2 evs]; reflexivity.
Qed.

(** C1, as the code has it.  For every document and every range with
    [0 <= start <= end_ < len(parts)], a job run that reports no error
    emits, for each unit from [start] to [end_] in increasing order, each
    sub-step report as an event with fraction
    [((current - 1) + p/100) / total] and message
    ["Part <current>/<total>: <message>"], then one completion event with
    fraction [current / total]; after the last unit it emits
    [Finished true].  Hence the completion events are those of the units
    [start..end_] in increasing order, [end_ - start + 1] in number.
    A job run that reports an error has stopped at a unit of the range, or
    before the first when the directory cannot be made: it has emitted the
    events of the [j] units before that unit, as above, then at most the
    first two reports of that unit, then the error event and nothing more;
    its completion events are those of the first [j] units, fewer than
    [end_ - start + 1]. *)
Theorem run_emits_part_events (self : AudioGenerationWorker.t) (w : world) :
  let start := AudioGenerationWorker.start_idx self in
  let end_ := AudioGenerationWorker.end_idx self in
  0 <= start <= end_ ->
  end_ < Z.of_nat (length (BookReader.parts (AudioGenerationWorker.book self))) ->
  let r := AudioGenerationWorker.run self w in
  (existsb is_error (emitted r) = false ->
   exists encoded : list bool,
     length encoded = Z.to_nat (end_ - start + 1)
     /\ emitted r
        = concat (zip_with (part_events start end_) (range start (end_ + 1))
                           encoded)
          ++ [Finished true]
     /\ List.filter is_part_complete (emitted r)
        = List.map (fun i => completion_event (i - start + 1) (end_ - start + 1))
                   (range start (end_ + 1))
     /\ length (List.filter is_part_complete (emitted r))
        = Z.to_nat (end_ - start + 1))
  /\ (existsb is_error (emitted r) = true ->
      exists (j : nat) (encoded : list bool) (k : nat) (msg : pystr),
        (j < Z.to_nat (end_ - start + 1))%nat
        /\ length encoded = j /\ (k <= 2)%nat
        /\ emitted r
           = concat (zip_with (part_events start end_)
                              (range start (start + Z.of_nat j)) encoded)
             ++ firstn k (List.map (report_event (Z.of_nat j + 1)
                                                 (end_ - start + 1))
                                   (sub_step_reports false))
             ++ [Error msg]
        /\ List.filter is_part_complete (emitted r)
           = List.map (fun i => completion_event (i - start + 1)
                                                 (end_ - start + 1))
                      (range start (start + Z.of_nat j))).
Proof.
  intros start end_ Hrange _ r. subst r.
  pose proof (run_unfold self w) as Hrun. cbv zeta in Hrun.
  fold start end_ in Hrun. rewrite Hrun. clear Hrun.
  destruct (result (BookReader.makedir (AudioGenerationWorker.book self) w))
    as [[[outdir title] book]|e].
  2:{ cbn [emitted]. split; [discriminate|]. intros _.
      exists 0%nat, [], 0%nat, (exn_msg e).
      split; [lia|]. split; [reflexivity|]. split; [lia|].
      unfold range. replace (start + Z.of_nat 0 - start) with 0 by lia.
      split; reflexivity. }
  set (w1 := final (BookReader.makedir (AudioGenerationWorker.book self) w)) in *.
  cbv zeta.
  assert (Hn : end_ - start + 1 = Z.of_nat (Z.to_nat (end_ - start + 1))) by lia.
  pose proof (loop_completes self
                (TextToAudio.Build (AudioGenerationWorker.voice self)
                                   (AudioGenerationWorker.speed self))
                outdir title book (Z.to_nat (end_ - start + 1)) start w1) as Hloop.
  pose proof (loop_raises self
                (TextToAudio.Build (AudioGenerationWorker.voice self)
                                   (AudioGenerationWorker.speed self))
                outdir title book (Z.to_nat (end_ - start + 1)) start w1) as Hstop.
  cbv zeta in Hloop, Hstop. fold start end_ in Hloop, Hstop.
  rewrite <- Hn in Hloop, Hstop.
  destruct (result (for_each _ _ w1)) as [[]|e]; cbn [emitted].
  - destruct Hloop as (encoded & Hlen & Hev); [lia | reflexivity|].
    unfold range. replace (end_ + 1 - start) with (end_ - start + 1) by lia.
    rewrite Hev. split.
    + intros _. exists encoded. split; [exact Hlen|]. split; [reflexivity|].
      assert (Hf : List.filter is_part_complete
                     (concat (zip_with (part_events start end_)
                                (seqZ start (end_ - start + 1)) encoded)
                      ++ [Finished true])
                   = List.map (fun i => completion_event (i - start + 1)
                                                         (end_ - start + 1))
                              (seqZ start (end_ - start + 1))).
      { rewrite List.filter_app, parts_events_completions
          by (rewrite length_seqZ; lia).
        cbn [List.filter is_part_complete]. apply app_nil_r. }
      split; [exact Hf|].
      rewrite Hf, length_map, length_seqZ. lia.
    + intros Herr. rewrite existsb_app, part_events_no_error in Herr.
      discriminate Herr.
  - split.
    + intros Hno. rewrite existsb_app in Hno. cbn in Hno.
      rewrite orb_true_r in Hno. discriminate Hno.
    + intros _.
      destruct (Hstop e) as (j & encoded & k & Hj & Hlen & Hk & Hev);
        [lia | reflexivity|].
      exists j, encoded, k, (exn_msg e).
      split; [exact Hj|]. split; [exact Hlen|]. split; [exact Hk|].
      unfold range. replace (start + Z.of_nat j - start) with (Z.of_nat j) by lia.
      replace (Z.of_nat j + 1) with (start + Z.of_nat j - start + 1) by lia.
      rewrite Hev, <- app_assoc. split; [reflexivity|].
      rewrite !List.filter_app, reports_no_completion.
      rewrite parts_events_completions by (rewrite length_seqZ; lia).
      cbn [List.filter is_part_complete app]. apply app_nil_r.
Qed.

Lemma fractions_app (l1 l2 : list event) :
  fractions (l1 ++ l2) = fractions l1 ++ fractions l2.
Proof. apply omap_app. Qed.

Lemma frac_mono (T x y : Q) : (0 < T)%Q -> (x <= y)%Q -> (x / T <= y / T)%Q.
Proof.
  intros HT Hxy. unfold Qdiv. apply Qmult_le_compat_r; [exact Hxy|].
  apply Qlt_le_weak, Qinv_lt_0_compat, HT.
Qed.

Lemma inject_Z_pos (t : Z) : 0 < t -> (0 < inject_Z t)%Q.
Proof. unfold Qlt. cbn. lia. Qed.

Lemma inject_Z_succ (c : Z) : (inject_Z c == inject_Z (c - 1) + 1)%Q.
Proof. unfold Qeq. cbn. lia. Qed.

(** Sorted, and between two bounds. *)
Local Abbreviation within lo hi l :=
  (StronglySorted Qle l /\ Forall (fun q => (lo <= q)%Q /\ (q <= hi)%Q) l).

Ltac fractions_of_events :=
  cbn [fractions omap list_omap fraction_of part_events report_event
       completion_event sub_step_reports List.map app fst snd firstn
       mbind option_bind].

Ltac solve_fraction T HT Hc :=
  repeat match goal with
         | |- _ /\ _ => split
         | |- StronglySorted _ _ => constructor
         | |- Forall _ _ => constructor
         | |- (_ / T <= _ / T)%Q =>
             apply (frac_mono T _ _ HT);
             try change (5 / 100)%Q with (5 # 100)%Q;
             try change (75 / 100)%Q with (75 # 100)%Q;
             try change (95 / 100)%Q with (95 # 100)%Q;
             try change (100 / 100)%Q with (100 # 100)%Q;
             lra
         end.

(** The fractions of one part lie between [(current - 1) / total] and
    [current / total] and do not decrease. *)
Lemma part_fractions (current total : Z) (evs : list event) :
  0 < total ->
  (exists encoded,
      evs = List.map (report_event current total) (sub_step_reports encoded)
            ++ [completion_event current total])
  \/ (exists k, evs = firstn k (List.map (report_event current total)
                                        (sub_step_reports false))) ->
  within (inject_Z (current - 1) / inject_Z total)%Q
         (inject_Z current / inject_Z total)%Q (fractions evs).
Proof.
  intros Ht Hevs.
  pose proof (inject_Z_pos total Ht) as HT.
  pose proof (inject_Z_succ current) as Hc.
  set (T := inject_Z total) in *. set (a := inject_Z (current - 1)) in *.
  set (c := inject_Z current) in *.
  destruct Hevs as [[[|] ->]|[k ->]].
  - fractions_of_events. fold a T c. clearbody a T c.
    solve_fraction T HT Hc.
  - fractions_of_events. fold a T c. clearbody a T c.
    solve_fraction T HT Hc.
  - destruct k as [|[|k]]; fractions_of_events; fold a T c;
      [| |destruct k; fractions_of_events]; clearbody a T c;
      solve_fraction T HT Hc.
Qed.

Lemma inject_Z_le (x y : Z) : x <= y -> (inject_Z x <= inject_Z y)%Q.
Proof. unfold Qle. cbn. lia. Qed.

(** The fractions of the loop from part [i] on do not decrease and start
    no lower than [(i - start) / total]. *)
Lemma loop_fractions (self : AudioGenerationWorker.t) (tts : TextToAudio.t)
      (outdir title : pystr) (book : BookReader.t) (n : nat) (i : Z) (w : world) :
  let start := AudioGenerationWorker.start_idx self in
  let end_ := AudioGenerationWorker.end_idx self in
  0 < end_ - start + 1 ->
  let r := for_each (seqZ i (Z.of_nat n))
             (AudioGenerationWorker.run_part self tts outdir title book
                                             (end_ - start + 1)) w in
  StronglySorted Qle (fractions (emitted r))
  /\ Forall (fun q => (inject_Z (i - start) / inject_Z (end_ - start + 1) <= q)%Q)
            (fractions (emitted r)).
Proof.
  intros start end_ Ht. revert i w. induction n as [|n IH]; intros i w r.
  { split; constructor. }
  subst r. rewrite seqZ_S_cons. cbn [for_each]. rewrite bind_run.
  assert (Hne : end_ - start + 1 <> 0) by lia.
  pose proof (part_fractions (i - start + 1) (end_ - start + 1)
                (emitted (AudioGenerationWorker.run_part self tts outdir title
                            book (end_ - start + 1) i w)) Ht) as Hpart.
  replace (i - start + 1 - 1) with (i - start) in Hpart by lia.
  destruct (run_part_outcome self tts outdir title book i w Hne)
    as [(b & Hres & Hev)|(e & k & Hres & Hev)];
    fold start end_ in Hres, Hev; rewrite Hres; cbn [result final emitted].
  - destruct Hpart as [Hs1 Hb1]; [left; exists b; exact Hev|].
    destruct (IH (i + 1) (final (AudioGenerationWorker.run_part self tts outdir
                                   title book (end_ - start + 1) i w)))
      as [Hs2 Hb2].
    replace (i + 1 - start) with (i - start + 1) in Hb2 by lia.
    rewrite fractions_app. rewrite Forall_forall in Hb1, Hb2. split.
    + apply StronglySorted_app_2; [|exact Hs1|exact Hs2].
      intros x1 x2 H1 H2. apply Qle_trans with (1 := proj2 (Hb1 x1 H1)).
      exact (Hb2 x2 H2).
    + apply Forall_app. split; apply Forall_forall; intros x Hx.
      * exact (proj1 (Hb1 x Hx)).
      * apply Qle_trans with (2 := Hb2 x Hx).
        apply frac_mono; [apply inject_Z_pos, Ht | apply inject_Z_le; lia].
  - destruct Hpart as [Hs1 Hb1]; [right; exists k; exact Hev|].
    split; [exact Hs1|]. eapply Forall_impl; [exact Hb1|].
    intros x [Hx _]. exact Hx.
Qed.

(** C6. Within one job run the overall fractions of the progress events
    emitted do not decrease from the first event to the last; this holds
    for every range, so for every range with
    [0 <= start <= end_ < len(parts)], and whether or not the run fails. *)
Theorem run_fractions_nondecreasing (self : AudioGenerationWorker.t) (w : world) :
  StronglySorted Qle (fractions (emitted (AudioGenerationWorker.run self w))).
Proof.
  pose proof (run_unfold self w) as Hrun. cbv zeta in Hrun. rewrite Hrun.
  clear Hrun.
  destruct (result (BookReader.makedir (AudioGenerationWorker.book self) w))
    as [[[outdir title] book]|e]; [|constructor].
  set (start := AudioGenerationWorker.start_idx self).
  set (end_ := AudioGenerationWorker.end_idx self).
  set (w1 := final (BookReader.makedir (AudioGenerationWorker.book self) w)).
  assert (Hloop : StronglySorted Qle
            (fractions (emitted (for_each (seqZ start (end_ - start + 1))
               (AudioGenerationWorker.run_part self
                  (TextToAudio.Build (AudioGenerationWorker.voice self)
                                     (AudioGenerationWorker.speed self))
                  outdir title book (end_ - start + 1)) w1)))).
  { destruct (Z_lt_le_dec 0 (end_ - start + 1)) as [Hpos|Hneg].
    - replace (seqZ start (end_ - start + 1))
        with (seqZ start (Z.of_nat (Z.to_nat (end_ - start + 1))))
        by (f_equal; lia).
      apply (loop_fractions self _ outdir title book
               (Z.to_nat (end_ - start + 1)) start w1 Hpos).
    - rewrite seqZ_nil by exact Hneg. constructor. }
  destruct (result (for_each _ _ w1)) as [[]|e]; cbn [emitted];
    rewrite fractions_app; cbn [fractions omap list_omap fraction_of];
    rewrite app_nil_r; exact Hloop.
Qed.

End WorkerFacts.

(** [run_emits_part_events] on five parts with the range [1..3]: three
    completion events, with fractions 1/3, 2/3 and 3/3. *)
Lemma run_emits_part_events_witness :
  let r := @AudioGenerationWorker.run ascii_db good_externals
             (sample_worker 5 1 3) empty_world in
  List.filter is_part_complete (emitted r)
  = [completion_event 1 3; completion_event 2 3; completion_event 3 3]
  /\ fractions [completion_event 2 3] = [(2 # 1) / (3 # 1)]%Q.
Proof.
  intros r.
  destruct (@run_emits_part_events ascii_db good_externals
              (sample_worker 5 1 3) empty_world) as [Hall _].
  - cbn. lia.
  - cbn. lia.
  - destruct Hall as (encoded & _ & _ & Hdone & _); [vm_compute; reflexivity|].
    split; [exact Hdone | reflexivity].
Defined.

(** C1 as stated fails: when the engine raises on the first unit, the run
    emits one report and the error, and no completion event at all. *)
Lemma run_without_completion :
  let self := sample_worker 1 0 0 in
  let r := @AudioGenerationWorker.run ascii_db broken_externals self empty_world in
  0 <= AudioGenerationWorker.start_idx self <= AudioGenerationWorker.end_idx self
  /\ AudioGenerationWorker.end_idx self
     < Z.of_nat (length (BookReader.parts (AudioGenerationWorker.book self)))
  /\ emitted r = [report_event 1 1 (5%Q, str "Generating WAV...");
                  Error (str "engine failed")]
  /\ List.filter is_part_complete (emitted r) = []
  /\ length (List.filter is_part_complete (emitted r)) <> 1%nat.
Proof.
  cbv zeta. split; [cbn; lia|]. split; [cbn; lia|].
  split; [reflexivity|]. split; [reflexivity|]. discriminate.
Qed.

(** ** The command line *)
Section CommandLineFacts.
Context {db : UnicodeDB} {ext : Externals}.

(** A loop whose body only tests finds the first element that passes. *)
Lemma for_until_find {A} (l : list A) (test : A -> bool) (w : world) :
  for_until l (fun x => ret (test x)) w = Run (Ret (List.find test l)) w [].
Proof.
  induction l as [|x l IH]; [reflexivity|].
  cbn [for_until List.find]. rewrite bind_run. cbn [ret result final emitted].
  destruct (test x); [reflexivity|]. rewrite IH. reflexivity.
Qed.

Lemma find_missing_some (l : list pystr) (w : world) :
  (exists f, In f l /\ path_exists w f = false) ->
  exists f, List.find (fun f => negb (path_exists w f)) l = Some f.
Proof.
  intros (f & Hin & Hf). induction l as [|x l IH]; [destruct Hin|].
  cbn [List.find]. destruct (path_exists w x) eqn:E; cbn [negb].
  - destruct Hin as [->|Hin]; [congruence|]. exact (IH Hin).
  - exists x. reflexivity.
Qed.

Lemma find_missing_none (l : list pystr) (w : world) :
  (forall f, In f l -> path_exists w f = true) ->
  List.find (fun f => negb (path_exists w f)) l = None.
Proof.
  intros H. induction l as [|x l IH]; [reflexivity|].
  cbn [List.find]. rewrite (H x (or_introl eq_refl)). cbn [negb].
  apply IH. intros f Hf. apply H. right. exact Hf.
Qed.

(** Without a mode, or with a mode that is none of [dump], [dir] and [txt],
    a file is not processed. *)
Lemma process_unhandled (filename : pystr) (args : cli_args) (w : world) :
  handled_mode (mode args) = false ->
  result (process_file_cli filename args w) = Ret false.
Proof.
  unfold handled_mode, mode_is, process_file_cli.
  destruct (mode args) as [[|c m]|]; [reflexivity| |reflexivity].
  intros H. apply orb_false_iff in H as [H H3].
  apply orb_false_iff in H as [H1 H2]. rewrite H1, H2, H3. reflexivity.
Qed.

Lemma print_then_run {A} (line : pystr) (m : M A) (w : world) :
  bind (print line) (fun _ => m) w
  = Run (result (m w)) (final (m w)) (Print line :: emitted (m w)).
Proof.
  unfold bind, print, emit. cbn [result final emitted app].
  destruct (m w) as [[a|e] w1 evs]; reflexivity.
Qed.

Lemma process_loop_ok (todo : list pystr) (args : cli_args) (w : world) :
  processed_ok todo args w ->
  result (for_until todo
            (fun f =>
               print ([LF] ++ str "Processing: " ++ f) ;;
               ok <- process_file_cli f args ;;
               ret (negb ok)) w)
  = Ret None.
Proof.
  revert w. induction todo as [|f rest IH]; intros w Hok; [reflexivity|].
  cbn [processed_ok] in Hok. rewrite print_then_run in Hok.
  cbn [result final] in Hok. destruct Hok as [Hf Hrest].
  cbn [for_until]. rewrite bind_run, print_then_run.
  cbn [result final emitted]. rewrite bind_run, Hf.
  cbn [result final emitted ret negb]. apply IH. exact Hrest.
Qed.

Lemma list_loop_ok (todo : list pystr) (w : world) :
  (forall f, In f todo -> exists book, read_epub w f = Ret book) ->
  let r := for_each todo
             (fun f => print ([LF] ++ str "Listing items in: " ++ f) ;;
                       list_items f) w in
  result r = Ret tt /\ final r = w.
Proof.
  induction todo as [|f rest IH]; intros H; [split; reflexivity|].
  cbn [for_each]. rewrite bind_run, print_then_run.
  destruct (H f (or_introl eq_refl)) as [book Hbook].
  assert (Hitems : result (list_items f w) = Ret tt /\ final (list_items f w) = w).
  { unfold list_items. rewrite bind_run. cbn [get_world result final emitted].
    rewrite Hbook. generalize (epub_documents book). intros items.
    induction items as [|item items IHi]; [split; reflexivity|].
    cbn [for_each]. rewrite print_then_run. exact IHi. }
  destruct Hitems as [Hr Hf]. cbn [result final emitted].
  rewrite Hr, Hf. cbn [result final emitted]. destruct IH as [Hr' Hf'].
  { intros f' Hf'. apply H. right. exact Hf'. }
  split; [exact Hr' | exact Hf'].
Qed.

(** [parse_args] accepts the command line as it is, or refuses it. *)
Lemma parse_args_cases (argv : cli_args) :
  parse_args argv = Some argv \/ parse_args argv = None.
Proof.
  unfold parse_args. destruct (mode argv) as [m|]; [|left; reflexivity].
  destruct (existsb (Str.eqb m) choices); [left | right]; reflexivity.
Qed.

Lemma str_eqb_eq (a b : pystr) : Str.eqb a b = true <-> a = b.
Proof.
  revert b. induction a as [|x a IH]; intros [|y b]; cbn [Str.eqb];
    try (split; [discriminate | discriminate]); [split; reflexivity|].
  rewrite andb_true_iff, N.eqb_eq, IH. split.
  - intros [-> ->]. reflexivity.
  - intros H. injection H as -> ->. split; reflexivity.
Qed.

(** A mode that [parse_args] accepts is one of the four choices. *)
Lemma parse_args_mode (argv : cli_args) (m : pystr) :
  parse_args argv = Some argv -> mode argv = Some m ->
  m = str "dump" \/ m = str "dir" \/ m = str "txt" \/ m = str "list".
Proof.
  unfold parse_args. intros H Hm. rewrite Hm in H.
  destruct (existsb (Str.eqb m) choices) eqn:E; [|discriminate H].
  apply existsb_exists in E as (x & Hx & Heq). apply str_eqb_eq in Heq. subst x.
  destruct Hx as [<- | [<- | [<- | [<- | []]]]]; auto.
Qed.

(** After [parse_args], a mode that is neither listed nor handled is no
    mode at all. *)
Lemma unhandled_is_none (argv : cli_args) :
  parse_args argv = Some argv ->
  mode_is (mode argv) "list" = false -> handled_mode (mode argv) = false ->
  mode argv = None.
Proof.
  intros Hp Hlist Hmode. destruct (mode argv) as [m|] eqn:Hm; [|reflexivity].
  destruct (parse_args_mode argv m Hp Hm) as [-> | [-> | [-> | ->]]];
    [discriminate Hmode | discriminate Hmode | discriminate Hmode
     | discriminate Hlist].
Qed.

(** C8, as the code has it.  A mode that is none of [dump], [dir], [txt]
    and [list] never reaches the processing: [parse_args] refuses it and the
    script exits with status 2, whatever the files.  With a command line
    that [parse_args] accepts, and when the graphical interface is not
    started: [main] returns 1 when a named file or directory does not
    exist; with all of them present it returns 1 when files are named
    without a mode, and 0 when every file is listed, or processed
    successfully, that is when [process_file_cli] returns [True] for each
    in turn. *)
Theorem main_exit_code (argv : cli_args) (w : world) :
  (parse_args argv = None -> main argv w = Run (Ret (Exited 2)) w [])
  /\ (parse_args argv = Some argv ->
      gui argv || (is_nil (files argv) && no_mode (mode argv)) = false ->
      ((exists f, In f (files argv) /\ path_exists w f = false) ->
       result (main argv w) = Ret (Returned 1))
      /\ ((forall f, In f (files argv) -> path_exists w f = true) ->
          (files argv <> [] -> mode argv = None ->
           result (main argv w) = Ret (Returned 1))
          /\ (mode_is (mode argv) "list" = false ->
              processed_ok (files argv) argv w ->
              result (main argv w) = Ret (Returned 0))
          /\ (mode_is (mode argv) "list" = true ->
              (forall f, In f (files argv) ->
                 exists book, read_epub w f = Ret book) ->
              result (main argv w) = Ret (Returned 0)))).
Proof.
  split; [intros Hp; unfold main; rewrite Hp; reflexivity|].
  intros Hp Hcli. unfold main. rewrite Hp, Hcli.
  rewrite bind_run. cbn [get_world result final emitted].
  rewrite bind_run, for_until_find. cbn [result final emitted]. split.
  - intros Hmiss. destruct (find_missing_some _ w Hmiss) as [f ->].
    rewrite bind_run. reflexivity.
  - intros Hall. rewrite (find_missing_none _ w Hall). split; [|split].
    + intros Hfiles Hmode. rewrite Hmode. cbn [mode_is]. rewrite bind_run.
      destruct (files argv) as [|f rest]; [destruct (Hfiles eq_refl)|].
      cbn [for_until]. rewrite bind_run, print_then_run.
      cbn [result final emitted]. rewrite bind_run.
      rewrite (process_unhandled f argv w) by (rewrite Hmode; reflexivity).
      reflexivity.
    + intros Hlist Hok. rewrite Hlist. rewrite bind_run.
      rewrite (process_loop_ok _ argv w Hok). reflexivity.
    + intros Hlist Hbooks. rewrite Hlist. rewrite bind_run.
      destruct (list_loop_ok (files argv) w Hbooks) as [Hr _].
      rewrite Hr. reflexivity.
Qed.

End CommandLineFacts.

(** [main_exit_code] for [-m txt notes.txt]: 1 while the file is missing,
    0 once it is there and the encoder succeeds; and without a mode, 1. *)
Lemma main_exit_code_witness :
  let args := Args false (Some (str "txt")) (str "af_heart") (13 # 10)
                   [str "notes.txt"] in
  let w := World {[ str "notes.txt" := TextFile (str "Hello. World!") ]} ∅ [] in
  result (@main ascii_db good_externals args empty_world) = Ret (Returned 1)
  /\ result (@main ascii_db good_externals args w) = Ret (Returned 0)
  /\ result (@main ascii_db good_externals
               (Args false None (str "af_heart") (13 # 10) [str "notes.txt"]) w)
     = Ret (Returned 1).
Proof.
  intros args w.
  destruct (@main_exit_code ascii_db good_externals args empty_world)
    as [_ Hempty].
  destruct (Hempty eq_refl eq_refl) as [Hmissing _].
  destruct (@main_exit_code ascii_db good_externals args w) as [_ Hw].
  destruct (Hw eq_refl eq_refl) as [_ Hpresent].
  destruct (@main_exit_code ascii_db good_externals
              (Args false None (str "af_heart") (13 # 10) [str "notes.txt"]) w)
    as [_ Hnone].
  destruct (Hnone eq_refl eq_refl) as [_ Hnomode].
  split; [|split].
  - apply Hmissing. exists (str "notes.txt"). split; [left|]; reflexivity.
  - destruct Hpresent as (_ & Hok & _).
    + intros f [<-|[]]. reflexivity.
    + apply Hok; [reflexivity|]. vm_compute. split; [reflexivity | exact I].
  - destruct Hnomode as (Hno & _).
    + intros f [<-|[]]. reflexivity.
    + apply Hno; [discriminate | reflexivity].
Defined.

(** C8 as stated fails: with an unknown mode the exit status is 2, not 1,
    and [main] returns nothing: [parse_args] has left the script before
    any file is looked at, here a file that exists. *)
Lemma main_unknown_mode_exits_2 :
  let argv := Args false (Some (str "mp3")) (str "af_heart") (13 # 10)
                   [str "notes.txt"] in
  let w := World {[ str "notes.txt" := TextFile (str "Hello. World!") ]} ∅ [] in
  @main ascii_db good_externals argv w = Run (Ret (Exited 2)) w []
  /\ result (@main ascii_db good_externals argv w) <> Ret (Returned 1).
Proof. split; [reflexivity | discriminate]. Qed.

(** A file is processed successfully, in the sense of the exit code,
    whenever nothing is raised: here the encoder exits with code 1 and
    writes nothing, and [main] returns 0. *)
Example main_returns_0_after_encoder_failure :
  let ext := sample_externals two_chunks (EncExit 1 None) (Ret sample_epub) in
  let argv := Args false (Some (str "txt")) (str "af_heart") (13 # 10)
                   [str "notes.txt"] in
  let w := World {[ str "notes.txt" := TextFile (str "Hello. World!") ]} ∅ [] in
  result (@main ascii_db ext argv w) = Ret (Returned 0)
  /\ fs (final (@main ascii_db ext argv w)) !! str "notes.opus" = None.
Proof. split; reflexivity. Qed.

(** ** Normalising twice *)
Section IdempotenceFacts.
Context {db : UnicodeDB}.

Lemma strip_contractions_Forall (P : N -> Prop) (s : pystr) st :
  Forall P s -> Forall P (strip_contractions st s).
Proof.
  intros H. revert st. induction H as [|c r Hc Hr IH]; intros st; [constructor|].
  cbn [strip_contractions]. destruct (is_word c).
  - constructor; [exact Hc | apply IH].
  - destruct ((c =? APOSTROPHE)%N && _ && _); [apply IH|].
    constructor; [exact Hc | apply IH].
Qed.

(** The reader from outside a word never drops the first character. *)
Lemma strip_outside_head (r : pystr) :
  is_word_at (head (strip_contractions Outside r)) = is_word_at (head r).
Proof.
  destruct r as [|c r]; [reflexivity|]. cbn [strip_contractions].
  destruct (is_word c); [reflexivity|].
  rewrite andb_false_r. reflexivity.
Qed.

Lemma strip_contractions_length (st : token_state) (s : pystr) :
  (length (strip_contractions st s) <= length s)%nat.
Proof.
  revert st. induction s as [|c r IH]; intros st; [reflexivity|].
  cbn [strip_contractions]. destruct (is_word c).
  - cbn [length]. specialize (IH (match st with
                                  | AfterApostrophe => AfterApostrophe
                                  | _ => InWord end)). lia.
  - destruct ((c =? APOSTROPHE)%N && _ && _).
    + specialize (IH AfterApostrophe). cbn [length]. lia.
    + specialize (IH Outside). cbn [length]. lia.
Qed.

(** Where the reader of contractions and the reader of chains stand
    together, before the rest [s] of a text in which the first has dropped
    nothing that the second pass would drop. *)
Local Abbreviation in_step st cs s :=
  (match st with
   | Outside =>
       cs = NoWord
       \/ ((cs = FirstApostrophe \/ cs = SecondApostrophe)
           /\ is_word_at (head s) = false)
   | InWord => cs = FirstWord
   | AfterApostrophe =>
       (cs = FirstApostrophe /\ is_word_at (head s) = true) \/ cs = SecondWord
   end).

Lemma cons_eq_iff (c : N) (a b : pystr) : c :: a = c :: b <-> a = b.
Proof. split; [intros H; injection H; auto | intros ->; reflexivity]. Qed.

(** Reading the output of the reader again drops nothing more exactly when
    the text holds no chain of three words. *)
Lemma strip_contractions_again (s : pystr) st cs :
  in_step st cs s ->
  strip_contractions (match st with Outside => Outside | _ => InWord end)
                     (strip_contractions st s)
  = strip_contractions st s
  <-> chain_free_go cs s = true.
Proof.
  revert st cs. induction s as [|c r IH]; intros st cs Hstep.
  { cbn [strip_contractions chain_free_go]. split; reflexivity. }
  cbn [strip_contractions chain_free_go]. cbn [head is_word_at] in Hstep.
  destruct (is_word c) eqn:Hw.
  - (* a word character is kept by both readers *)
    destruct st.
    + destruct Hstep as [->|[_ Hc]]; [|congruence].
      cbn [strip_contractions]. rewrite Hw, cons_eq_iff.
      apply (IH InWord FirstWord). reflexivity.
    + subst cs. cbn [strip_contractions]. rewrite Hw, cons_eq_iff.
      apply (IH InWord FirstWord). reflexivity.
    + assert (Hcs : chain_free_go cs (c :: r) = chain_free_go SecondWord r
                    -> True) by auto.
      cbn [strip_contractions]. rewrite Hw, cons_eq_iff.
      destruct Hstep as [[-> _]| ->];
        apply (IH AfterApostrophe SecondWord); right; reflexivity.
  - destruct (c =? APOSTROPHE)%N eqn:Ha; cbn [andb].
    + apply N.eqb_eq in Ha. subst c. destruct st; cbn [andb].
      * (* outside a word the apostrophe stays, for both readers *)
        cbn [strip_contractions]. rewrite apostrophe_not_word, N.eqb_refl.
        cbn [andb]. rewrite cons_eq_iff.
        assert (Hgo : match cs with
                      | FirstWord => chain_free_go FirstApostrophe r
                      | SecondWord => chain_free_go SecondApostrophe r
                      | _ => chain_free_go NoWord r
                      end = chain_free_go NoWord r).
        { destruct Hstep as [->|[[->| ->] _]]; reflexivity. }
        rewrite Hgo. apply (IH Outside NoWord). left. reflexivity.
      * subst cs. destruct (is_word_at (head r)) eqn:Hr.
        -- (* dropped by the first reader: the second one sees nothing *)
           apply (IH AfterApostrophe FirstApostrophe). left. split;
             [reflexivity | reflexivity].
        -- (* kept by the first reader, and by the second *)
           cbn [strip_contractions]. rewrite apostrophe_not_word, N.eqb_refl.
           rewrite strip_outside_head, Hr. cbn [andb]. rewrite cons_eq_iff.
           apply (IH Outside FirstApostrophe). right. split;
             [left; reflexivity | reflexivity].
      * (* after a dropped apostrophe and a word: the first reader keeps
           this one; the second would drop it before a word *)
        destruct Hstep as [[_ Hc]| ->]; [discriminate Hc|].
        cbn [strip_contractions]. rewrite apostrophe_not_word, N.eqb_refl.
        rewrite strip_outside_head. cbn [andb].
        destruct (is_word_at (head r)) eqn:Hr.
        -- assert (Hchain : chain_free_go SecondApostrophe r = false).
           { destruct r as [|c2 r2]; [discriminate Hr|].
             cbn [head is_word_at] in Hr. cbn [chain_free_go].
             rewrite Hr. reflexivity. }
           rewrite Hchain. split; [|discriminate]. intros H.
           apply (f_equal (@length N)) in H. cbn [length] in H.
           pose proof (strip_contractions_length AfterApostrophe
                         (strip_contractions Outside r)). lia.
        -- rewrite cons_eq_iff.
           apply (IH Outside SecondApostrophe). right. split;
             [right; reflexivity | reflexivity].
    + (* any other character is kept and ends the word *)
      assert (Hkept : strip_contractions
                        (match st with Outside => Outside | _ => InWord end)
                        (c :: strip_contractions Outside r)
                      = c :: strip_contractions Outside
                               (strip_contractions Outside r)).
      { destruct st; cbn [strip_contractions]; rewrite Hw, Ha; reflexivity. }
      assert (Hfirst : (if (c =? APOSTROPHE)%N
                           && match st with InWord => true | _ => false end
                           && is_word_at (head r)
                        then strip_contractions AfterApostrophe r
                        else c :: strip_contractions Outside r)
                       = c :: strip_contractions Outside r)
        by (rewrite Ha; reflexivity).
      rewrite Ha in *. cbn [andb]. rewrite Hkept, cons_eq_iff.
      apply (IH Outside NoWord). left. reflexivity.
Qed.

Local Abbreviation no_terminator s :=
  (Forall (fun c => is_terminator c = false) s).
Local Abbreviation no_break s :=
  (Forall (fun c => c <> LF /\ c <> NBSP) s).
Local Abbreviation to_spaces s :=
  (List.map nbsp_to_space (List.map newline_to_space s)).

Lemma break_sentences_id (s : pystr) : no_terminator s -> break_sentences s = s.
Proof.
  intros H. unfold break_sentences.
  induction H as [|c r Hc Hr IH]; [reflexivity|].
  cbn [flat_map]. rewrite Hc, IH. reflexivity.
Qed.

Lemma collapse_ellipsis_id (s : pystr) : no_terminator s -> collapse_ellipsis s = s.
Proof.
  intros H. induction H as [|c r Hc Hr IH]; [reflexivity|].
  rewrite collapse_ellipsis_cons, IH.
  assert (Hd : (c =? DOT)%N = false).
  { unfold is_terminator in Hc. apply orb_false_iff in Hc as [Hc _].
    apply orb_false_iff in Hc as [Hc _]. exact Hc. }
  destruct r as [|c2 [|c3 [|c4 [|c5 r]]]]; try reflexivity.
  unfold is_ellipsis. rewrite Hd. reflexivity.
Qed.

Lemma to_spaces_cases (c : N) :
  nbsp_to_space (newline_to_space c) = c
  \/ (nbsp_to_space (newline_to_space c) = SPACE /\ (c = LF \/ c = NBSP)).
Proof.
  unfold newline_to_space, nbsp_to_space.
  destruct (c =? LF)%N eqn:E1.
  - apply N.eqb_eq in E1. subst c. right. split; [reflexivity | left; reflexivity].
  - destruct (c =? NBSP)%N eqn:E2; [|left; reflexivity].
    apply N.eqb_eq in E2. subst c. right. split; [reflexivity | right; reflexivity].
Qed.

Lemma to_spaces_no_terminator (s : pystr) :
  no_terminator s -> no_terminator (to_spaces s).
Proof.
  intros H. induction H as [|c r Hc Hr IH]; [constructor|].
  cbn [List.map]. constructor; [|exact IH].
  destruct (to_spaces_cases c) as [->|[-> _]]; [exact Hc | reflexivity].
Qed.

Lemma to_spaces_no_break (s : pystr) : no_break (to_spaces s).
Proof.
  induction s as [|c r IH]; [constructor|].
  cbn [List.map]. constructor; [|exact IH].
  unfold newline_to_space, nbsp_to_space.
  destruct (c =? LF)%N eqn:E1; [split; discriminate|].
  destruct (c =? NBSP)%N eqn:E2; [split; discriminate|].
  apply N.eqb_neq in E1, E2. split; assumption.
Qed.

Lemma to_spaces_id (s : pystr) : no_break s -> to_spaces s = s.
Proof.
  intros H. induction H as [|c r [H1 H2] Hr IH]; [reflexivity|].
  cbn [List.map]. rewrite IH. f_equal.
  destruct (to_spaces_cases c) as [->|[_ [->| ->]]];
    [reflexivity | destruct (H1 eq_refl) | destruct (H2 eq_refl)].
Qed.

Local Abbreviation blanks s := (length (List.filter is_blank s)).
Local Abbreviation terminators s := (length (List.filter is_terminator s)).

Lemma to_spaces_counts (s : pystr) :
  blanks (to_spaces s) = blanks s /\ terminators (to_spaces s) = terminators s.
Proof.
  induction s as [|c r [IHb IHt]]; [split; reflexivity|].
  cbn [List.map List.filter].
  assert (Hc : is_blank (nbsp_to_space (newline_to_space c)) = is_blank c
               /\ is_terminator (nbsp_to_space (newline_to_space c))
                  = is_terminator c).
  { destruct (to_spaces_cases c) as [->|[-> [->| ->]]]; split; reflexivity. }
  destruct Hc as [-> ->].
  destruct (is_blank c), (is_terminator c); cbn [length];
    rewrite IHb, IHt; split; reflexivity.
Qed.

(** Each collapse takes two spaces and two full stops away. *)
Lemma collapse_counts (s : pystr) :
  (blanks (collapse_ellipsis s) + terminators s
   = blanks s + terminators (collapse_ellipsis s))%nat
  /\ (0 < terminators s -> 0 < terminators (collapse_ellipsis s))%nat.
Proof.
  remember (length s) as n eqn:Hn.
  assert (Hle : (length s <= n)%nat) by lia. clear Hn.
  revert s Hle. induction n as [|n IH]; intros s Hle.
  - destruct s; [split; [reflexivity | intros H; exact H] | cbn in Hle; lia].
  - destruct s as [|c1 t]; [split; [reflexivity | intros H; exact H]|].
    cbn [length] in Hle.
    assert (Hkeep : (blanks (c1 :: collapse_ellipsis t) + terminators (c1 :: t)
                     = blanks (c1 :: t)
                       + terminators (c1 :: collapse_ellipsis t))%nat
                    /\ (0 < terminators (c1 :: t) ->
                        0 < terminators (c1 :: collapse_ellipsis t))%nat).
    { destruct (IH t) as [Heq Hpos]; [lia|]. cbn [List.filter].
      destruct (is_blank c1), (is_terminator c1); cbn [length]; split; lia. }
    rewrite collapse_ellipsis_cons.
    destruct t as [|c2 [|c3 [|c4 [|c5 r]]]]; try exact Hkeep.
    destruct (is_ellipsis c1 c2 c3 c4 c5) eqn:E; [|exact Hkeep].
    unfold is_ellipsis in E. repeat (apply andb_true_iff in E as [E ?]).
    repeat match goal with H : (_ =? _)%N = true |- _ =>
             apply N.eqb_eq in H; subst end.
    destruct (IH r) as [Heq Hpos]; [cbn [length] in Hle; lia|].
    change (List.filter is_blank (DOT :: collapse_ellipsis r))
      with (List.filter is_blank (collapse_ellipsis r)).
    change (List.filter is_terminator (DOT :: collapse_ellipsis r))
      with (DOT :: List.filter is_terminator (collapse_ellipsis r)).
    change (List.filter is_blank (DOT :: SPACE :: DOT :: SPACE :: DOT :: r))
      with (SPACE :: SPACE :: List.filter is_blank r).
    change (List.filter is_terminator (DOT :: SPACE :: DOT :: SPACE :: DOT :: r))
      with (DOT :: DOT :: DOT :: List.filter is_terminator r).
    cbn [length]. split; lia.
Qed.

Lemma strip_contractions_filter (P : N -> bool) (st : token_state) (s : pystr) :
  P APOSTROPHE = false ->
  List.filter P (strip_contractions st s) = List.filter P s.
Proof.
  intros Hp. revert st. induction s as [|c r IH]; intros st; [reflexivity|].
  cbn [strip_contractions]. destruct (is_word c).
  - cbn [List.filter]. rewrite IH. reflexivity.
  - destruct (c =? APOSTROPHE)%N eqn:Ha; cbn [andb].
    + apply N.eqb_eq in Ha. subst c.
      destruct (match st with InWord => true | _ => false end
                && is_word_at (head r));
        cbn [List.filter]; rewrite Hp, IH; reflexivity.
    + cbn [List.filter]. rewrite IH. reflexivity.
Qed.

Lemma break_sentences_counts (s : pystr) :
  terminators (break_sentences s) = terminators s
  /\ blanks (break_sentences s) = (blanks s + terminators s)%nat.
Proof.
  unfold break_sentences. induction s as [|c r [IHt IHb]]; [split; reflexivity|].
  cbn [flat_map]. rewrite !List.filter_app, !length_app, IHt, IHb.
  destruct (is_terminator c) eqn:E.
  - assert (Hb : is_blank c = false).
    { unfold is_terminator in E. unfold is_blank.
      destruct (c =? DOT)%N eqn:E1;
        [apply N.eqb_eq in E1; subst c; reflexivity|].
      destruct (c =? BANG)%N eqn:E2;
        [apply N.eqb_eq in E2; subst c; reflexivity|].
      destruct (c =? QUESTION)%N eqn:E3; [|discriminate E].
      apply N.eqb_eq in E3; subst c; reflexivity. }
    cbn [List.filter]. rewrite E, Hb.
    change (is_terminator LF) with false. change (is_blank LF) with true.
    cbn [length]. split; lia.
  - cbn [List.filter]. rewrite E. destruct (is_blank c); cbn [length]; split; lia.
Qed.

(** What one normalisation does to the numbers of spaces and of sentence
    terminators. *)
Lemma normalize_counts (txt : pystr) :
  (blanks (normalize txt) + terminators txt
   = blanks txt + 2 * terminators (normalize txt))%nat
  /\ (0 < terminators txt -> 0 < terminators (normalize txt))%nat.
Proof.
  rewrite normalize_passes. unfold normalize_spec.
  destruct (to_spaces_counts txt) as [Hb1 Ht1].
  destruct (collapse_counts (to_spaces txt)) as [Hc Hpos].
  set (u := collapse_ellipsis (to_spaces txt)) in *.
  destruct (break_sentences_counts (strip_contractions Outside u)) as [Ht3 Hb3].
  rewrite Ht3, Hb3.
  rewrite !(strip_contractions_filter _ Outside u) by reflexivity.
  split; lia.
Qed.

Lemma filter_none (P : N -> bool) (s : pystr) :
  length (List.filter P s) = 0%nat -> Forall (fun c => P c = false) s.
Proof.
  induction s as [|c r IH]; [constructor|].
  cbn [List.filter]. destruct (P c) eqn:E; [discriminate|].
  intros H. constructor; [exact E | exact (IH H)].
Qed.

(** A text that normalising twice treats as normalising once holds no
    sentence terminator: each pass puts a newline after every terminator,
    and the next pass makes it a space. *)
Lemma normalize_twice_no_terminator (txt : pystr) :
  normalize (normalize txt) = normalize txt -> no_terminator txt.
Proof.
  intros H. destruct (normalize_counts txt) as [_ Hpos].
  destruct (normalize_counts (normalize txt)) as [Heq _]. rewrite H in Heq.
  apply filter_none. lia.
Qed.

(** On a text without terminators the normalisation is the reader of
    contractions, after the spaces. *)
Lemma normalize_no_terminator (txt : pystr) :
  no_terminator txt ->
  normalize txt = strip_contractions Outside (to_spaces txt)
  /\ normalize (normalize txt)
     = strip_contractions Outside (strip_contractions Outside (to_spaces txt)).
Proof.
  intros Hterm. rewrite !normalize_passes. unfold normalize_spec.
  pose proof (to_spaces_no_terminator txt Hterm) as Hu.
  pose proof (to_spaces_no_break txt) as Hb.
  set (u := to_spaces txt) in *.
  rewrite (collapse_ellipsis_id u Hu).
  pose proof (strip_contractions_Forall _ u Outside Hu) as Hv.
  pose proof (strip_contractions_Forall _ u Outside Hb) as Hvb.
  rewrite (break_sentences_id _ Hv).
  set (v := strip_contractions Outside u) in *.
  rewrite (to_spaces_id v Hvb), (collapse_ellipsis_id v Hv).
  rewrite (break_sentences_id _ (strip_contractions_Forall _ v Outside Hv)).
  split; reflexivity.
Qed.

(** C4, as the code has it.  Normalising twice gives what normalising once
    gives exactly for the inputs that hold none of ['.'], ['!'] and ['?']
    and in which, once newlines and non-breaking spaces are spaces, no
    three words are joined by two apostrophes, as in [a'b'c].  A quoted
    word, as in ['yes'], and two words joined by one apostrophe do no
    harm; freedom from non-breaking spaces and from [". . ."] is not
    needed. *)
Theorem normalize_twice (txt : pystr) :
  normalize (normalize txt) = normalize txt
  <-> Forall (fun c => is_terminator c = false) txt
      /\ chain_free (List.map nbsp_to_space (List.map newline_to_space txt))
         = true.
Proof.
  split.
  - intros H. pose proof (normalize_twice_no_terminator txt H) as Hterm.
    split; [exact Hterm|].
    destruct (normalize_no_terminator txt Hterm) as [H1 H2].
    rewrite H2, H1 in H.
    apply (strip_contractions_again (to_spaces txt) Outside NoWord);
      [left; reflexivity | exact H].
  - intros [Hterm Hfree].
    destruct (normalize_no_terminator txt Hterm) as [H1 H2].
    rewrite H2, H1.
    apply (strip_contractions_again (to_spaces txt) Outside NoWord);
      [left; reflexivity | exact Hfree].
Qed.

End IdempotenceFacts.

(** [normalize_twice] on a text with a contraction and on a text with a
    quoted word; and by it a text with a full stop is changed again by a
    second pass. *)
Lemma normalize_twice_witness :
  @normalize ascii_db (str "he'd go") = str "hed go"
  /\ @normalize ascii_db (@normalize ascii_db (str "he'd go"))
     = @normalize ascii_db (str "he'd go")
  /\ @normalize ascii_db (@normalize ascii_db (str "she said 'yes' today"))
     = @normalize ascii_db (str "she said 'yes' today")
  /\ @normalize ascii_db (@normalize ascii_db (str "Go."))
     <> @normalize ascii_db (str "Go.").
Proof.
  split; [reflexivity|]. split; [|split].
  - apply (@normalize_twice ascii_db (str "he'd go")).
    split; [repeat constructor | reflexivity].
  - apply (@normalize_twice ascii_db (str "she said 'yes' today")).
    split; [repeat constructor | reflexivity].
  - intros H. apply (@normalize_twice ascii_db (str "Go.")) in H as [Hterm _].
    do 2 apply Forall_cons_1, proj2 in Hterm.
    apply Forall_cons_1, proj1 in Hterm. discriminate Hterm.
Defined.

(** C4 as stated fails.  Neither text holds a non-breaking space or
    [". . ."]; the newline put after a full stop becomes a space followed
    by a new newline, and of two apostrophes in a row of words the second
    is removed only by the second pass. *)
Lemma normalize_not_idempotent :
  (contains [NBSP] (str ".") = false
   /\ contains (str ". . .") (str ".") = false
   /\ @normalize ascii_db (str ".") = [DOT; LF]
   /\ @normalize ascii_db (@normalize ascii_db (str ".")) = [DOT; LF; SPACE]
   /\ @normalize ascii_db (@normalize ascii_db (str "."))
      <> @normalize ascii_db (str "."))
  /\ (contains [NBSP] (str "a'b'c") = false
      /\ contains (str ". . .") (str "a'b'c") = false
      /\ @normalize ascii_db (str "a'b'c") = str "ab'c"
      /\ @normalize ascii_db (@normalize ascii_db (str "a'b'c")) = str "abc"
      /\ @normalize ascii_db (@normalize ascii_db (str "a'b'c"))
         <> @normalize ascii_db (str "a'b'c")).
Proof. repeat split; try reflexivity; discriminate. Qed.

(** * Further properties of the script *)

(** ** Titles *)

(** X1. [getTitle] never returns an empty title: a title that was set, else
    the title of the book, else ["Unknown_Title"].  It stores what it
    returns, so that a second call returns the same and changes nothing,
    and it leaves the parts alone.  A title given with [setTitle] is the
    one returned, unless it is empty: an empty title is replaced in the
    same way. *)
Theorem getTitle_never_empty (self : BookReader.t) :
  let fallback := match epub_title (BookReader.book self) with
                  | Some (c :: r) => c :: r
                  | _ => str "Unknown_Title"
                  end in
  let t := fst (BookReader.getTitle self) in
  let self' := snd (BookReader.getTitle self) in
  t <> []
  /\ t = match BookReader.title self with _ :: _ => BookReader.title self | [] => fallback end
  /\ BookReader.title self' = t
  /\ BookReader.getTitle self' = (t, self')
  /\ BookReader.parts self' = BookReader.parts self
  /\ (forall title,
        fst (BookReader.getTitle (BookReader.setTitle self title))
        = match title with _ :: _ => title | [] => fallback end).
Proof.
  unfold BookReader.getTitle.
  destruct (BookReader.title self) as [|c r] eqn:E; cbn [fst snd].
  - split.
    { destruct (epub_title (BookReader.book self)) as [[|c r]|]; discriminate. }
    split; [reflexivity|]. split; [reflexivity|]. split.
    { cbn [BookReader.title].
      destruct (epub_title (BookReader.book self)) as [[|c r]|]; reflexivity. }
    split; [reflexivity|]. intros [|c t]; reflexivity.
  - split; [discriminate|]. split; [reflexivity|]. split; [exact E|]. rewrite E.
    split; [reflexivity|]. split; [reflexivity|]. intros [|c' t]; reflexivity.
Qed.

(** ** [TextToAudio]: what a failed run leaves *)
Section TextToAudioFailures.
Context {db : UnicodeDB} {ext : Externals}.



End TextToAudioFailures.

(** The error of [open] below a regular file, and in a directory that is
    not there. *)
Example open_error_classes :
  exn_class_of (@open_error good_externals
                  (World {[ str "a.txt" := TextFile [] ]} ∅ [])
                  (str "a.txt/b.wav"))
  = NotADirectoryError
  /\ exn_class_of (@open_error good_externals empty_world (str "d/b.wav"))
     = FileNotFoundError
  /\ parent_exists empty_world (str "d/b.wav") = false
  /\ parent_exists empty_world (str "b.wav") = true.
Proof. repeat split; reflexivity. Qed.


(** ** [AudioGenerationWorker.run]: signals and the progress bar *)
Section WorkerSignals.
Context {db : UnicodeDB} {ext : Externals}.

Local Abbreviation all_progress evs :=
  (Forall (fun e => is_progress e = true) evs).

Lemma part_events_progress (start end_ i : Z) (encoded : bool) :
  all_progress (part_events start end_ i encoded).
Proof. destruct encoded; repeat constructor. Qed.

Lemma reports_progress (current total : Z) (k : nat) :
  all_progress (firstn k (List.map (report_event current total)
                                   (sub_step_reports false))).
Proof. destruct k as [|[|[|k]]]; repeat constructor. Qed.

(** The loop over the parts emits progress events and nothing else. *)
Lemma loop_progress (self : AudioGenerationWorker.t) (tts : TextToAudio.t)
      (outdir title : pystr) (book : BookReader.t) (n : nat) (i : Z) (w : world) :
  let start := AudioGenerationWorker.start_idx self in
  let end_ := AudioGenerationWorker.end_idx self in
  end_ - start + 1 <> 0 ->
  all_progress
    (emitted (for_each (seqZ i (Z.of_nat n))
                (AudioGenerationWorker.run_part self tts outdir title book
                                                (end_ - start + 1)) w)).
Proof.
  intros start end_ Ht. revert i w. induction n as [|n IH]; intros i w.
  { constructor. }
  rewrite seqZ_S_cons. cbn [for_each]. rewrite bind_run.
  destruct (run_part_outcome self tts outdir title book i w Ht)
    as [(b & Hres & Hev)|(e & k & Hres & Hev)];
    fold start end_ in Hres, Hev; rewrite Hres; cbn [result final emitted];
    rewrite Hev.
  - apply Forall_app. split; [apply part_events_progress | apply IH].
  - apply reports_progress.
Qed.

(** X4. The worker never lets an exception escape, and a job ends with
    exactly one signal: every event before the last is a progress event,
    and the last is [finished(True)] or [error(msg)], never both. *)
Theorem run_ends_with_one_signal (self : AudioGenerationWorker.t) (w : world) :
  let r := AudioGenerationWorker.run self w in
  result r = Ret tt
  /\ exists (evs : list event) (last : event),
       emitted r = evs ++ [last]
       /\ Forall (fun e => is_progress e = true) evs
       /\ (last = Finished true \/ exists msg, last = Error msg).
Proof.
  intros r. subst r.
  pose proof (run_unfold self w) as Hrun. cbv zeta in Hrun. rewrite Hrun.
  clear Hrun.
  destruct (result (BookReader.makedir (AudioGenerationWorker.book self) w))
    as [[[outdir title] book]|e].
  2:{ split; [reflexivity|]. exists [], (Error (exn_msg e)).
      split; [reflexivity|]. split; [constructor|]. right. eexists. reflexivity. }
  set (start := AudioGenerationWorker.start_idx self).
  set (end_ := AudioGenerationWorker.end_idx self).
  set (w1 := final (BookReader.makedir (AudioGenerationWorker.book self) w)).
  assert (Hloop : all_progress
            (emitted (for_each (seqZ start (end_ - start + 1))
               (AudioGenerationWorker.run_part self
                  (TextToAudio.Build (AudioGenerationWorker.voice self)
                                     (AudioGenerationWorker.speed self))
                  outdir title book (end_ - start + 1)) w1))).
  { destruct (Z_lt_le_dec 0 (end_ - start + 1)) as [Hpos|Hneg].
    - replace (seqZ start (end_ - start + 1))
        with (seqZ start (Z.of_nat (Z.to_nat (end_ - start + 1))))
        by (f_equal; lia).
      apply (loop_progress self _ outdir title book
               (Z.to_nat (end_ - start + 1)) start w1).
      fold start end_. lia.
    - rewrite seqZ_nil by exact Hneg. constructor. }
  destruct (result (for_each _ _ w1)) as [[]|e];
    (split; [reflexivity|]); eexists _, _;
    (split; [reflexivity|]); (split; [exact Hloop|]).
  - left. reflexivity.
  - right. eexists. reflexivity.
Qed.

Lemma frac_unit (k t : Z) :
  0 < t -> 0 <= k <= t -> (0 <= inject_Z k / inject_Z t <= 1)%Q.
Proof.
  intros Ht Hk. pose proof (inject_Z_pos t Ht) as HT. split.
  - apply Qle_shift_div_l; [exact HT|]. unfold Qle. cbn. lia.
  - apply Qle_shift_div_r; [exact HT|]. unfold Qle. cbn. lia.
Qed.

Local Abbreviation unit_interval l :=
  (Forall (fun q => (0 <= q)%Q /\ (q <= 1)%Q) l).

(** The fractions of the parts [i], [i + 1], ... of the range lie between
    0 and 1. *)
Lemma loop_unit_interval (self : AudioGenerationWorker.t) (tts : TextToAudio.t)
      (outdir title : pystr) (book : BookReader.t) (n : nat) (i : Z) (w : world) :
  let start := AudioGenerationWorker.start_idx self in
  let end_ := AudioGenerationWorker.end_idx self in
  start <= i -> i + Z.of_nat n <= end_ + 1 ->
  unit_interval
    (fractions
       (emitted (for_each (seqZ i (Z.of_nat n))
                   (AudioGenerationWorker.run_part self tts outdir title book
                                                   (end_ - start + 1)) w))).
Proof.
  intros start end_. revert i w. induction n as [|n IH]; intros i w Hi Hn.
  { constructor. }
  assert (Ht : 0 < end_ - start + 1) by lia.
  assert (Hne : end_ - start + 1 <> 0) by lia.
  rewrite seqZ_S_cons. cbn [for_each]. rewrite bind_run.
  pose proof (part_fractions (i - start + 1) (end_ - start + 1)
                (emitted (AudioGenerationWorker.run_part self tts outdir title
                            book (end_ - start + 1) i w)) Ht) as Hpart.
  assert (Hunit : forall evs,
            (StronglySorted Qle (fractions evs)
             /\ Forall (fun q =>
                  (inject_Z (i - start + 1 - 1) / inject_Z (end_ - start + 1) <= q)%Q
                  /\ (q <= inject_Z (i - start + 1) / inject_Z (end_ - start + 1))%Q)
                  (fractions evs)) ->
            unit_interval (fractions evs)).
  { intros evs [_ Hb]. eapply Forall_impl; [exact Hb|].
    intros q [Hlo Hhi]. split.
    - apply Qle_trans with (2 := Hlo). apply frac_unit; lia.
    - apply Qle_trans with (1 := Hhi). apply frac_unit; lia. }
  destruct (run_part_outcome self tts outdir title book i w Hne)
    as [(b & Hres & Hev)|(e & k & Hres & Hev)];
    fold start end_ in Hres, Hev; rewrite Hres; cbn [result final emitted].
  - rewrite fractions_app. apply Forall_app. split.
    + apply Hunit, Hpart. left. exists b. exact Hev.
    + apply IH; lia.
  - apply Hunit, Hpart. right. exists k. exact Hev.
Qed.

(** The fractions of a job do not decrease and lie between 0 and 1. *)
Lemma run_fractions_within (self : AudioGenerationWorker.t) (w : world) :
  let fs := fractions (emitted (AudioGenerationWorker.run self w)) in
  StronglySorted Qle fs /\ unit_interval fs.
Proof.
  pose proof (run_unfold self w) as Hrun. cbv zeta in Hrun. cbv zeta.
  rewrite Hrun. clear Hrun.
  destruct (result (BookReader.makedir (AudioGenerationWorker.book self) w))
    as [[[outdir title] book]|e]; [|split; constructor].
  set (start := AudioGenerationWorker.start_idx self).
  set (end_ := AudioGenerationWorker.end_idx self).
  set (w1 := final (BookReader.makedir (AudioGenerationWorker.book self) w)).
  assert (Hloop :
    let fs := fractions (emitted (for_each (seqZ start (end_ - start + 1))
               (AudioGenerationWorker.run_part self
                  (TextToAudio.Build (AudioGenerationWorker.voice self)
                                     (AudioGenerationWorker.speed self))
                  outdir title book (end_ - start + 1)) w1)) in
    StronglySorted Qle fs /\ unit_interval fs).
  { cbv zeta. destruct (Z_lt_le_dec 0 (end_ - start + 1)) as [Hpos|Hneg].
    - replace (seqZ start (end_ - start + 1))
        with (seqZ start (Z.of_nat (Z.to_nat (end_ - start + 1))))
        by (f_equal; lia).
      split.
      + apply (loop_fractions self _ outdir title book
                 (Z.to_nat (end_ - start + 1)) start w1 Hpos).
      + apply (loop_unit_interval self _ outdir title book
                 (Z.to_nat (end_ - start + 1)) start w1); fold start end_; lia.
    - rewrite seqZ_nil by exact Hneg. split; constructor. }
  cbv zeta in Hloop.
  destruct (result (for_each _ _ w1)) as [[]|e]; cbn [emitted];
    rewrite fractions_app; cbn [fractions omap list_omap fraction_of];
    rewrite app_nil_r; exact Hloop.
Qed.

(** X5. Every overall fraction that a job reports lies between 0 and 1,
    for every range and whether or not the job fails. *)
Theorem run_fractions_in_unit_interval (self : AudioGenerationWorker.t)
        (w : world) :
  Forall (fun q => (0 <= q)%Q /\ (q <= 1)%Q)
         (fractions (emitted (AudioGenerationWorker.run self w))).
Proof. exact (proj2 (run_fractions_within self w)). Qed.

End WorkerSignals.

Section ProgressBar.
Context {db : UnicodeDB} {ext : Externals}.

(** The events of the parts of a range that is not empty end with the
    completion of the last part. *)
Lemma parts_events_last (start end_ i : Z) (m : nat) (encoded : list bool) :
  length encoded = S m ->
  exists qs,
    fractions (concat (zip_with (part_events start end_)
                                (seqZ i (Z.of_nat (S m))) encoded))
    = qs ++ [(inject_Z (i + Z.of_nat m - start + 1)
              / inject_Z (end_ - start + 1))%Q].
Proof.
  revert i encoded. induction m as [|m IH]; intros i [|b encoded] Hlen;
    try discriminate.
  - destruct encoded; [|discriminate].
    rewrite seqZ_S_cons. cbn [zip_with concat Z.of_nat seqZ].
    rewrite app_nil_r. unfold part_events. rewrite fractions_app.
    eexists. f_equal. cbn [fractions omap list_omap fraction_of completion_event
                           mbind option_bind].
    do 3 f_equal. lia.
  - rewrite seqZ_S_cons. cbn [zip_with concat]. rewrite fractions_app.
    destruct (IH (i + 1) encoded) as [qs Hqs]; [cbn in Hlen; lia|].
    rewrite Hqs. eexists. rewrite app_assoc. f_equal. do 3 f_equal. lia.
Qed.

(** X6. A job over a range that is not empty that reports no error ends
    its progress signals with the fraction of the last part, the number of
    parts of the range over itself, and so with 1. *)
Theorem progress_ends_at_one (self : AudioGenerationWorker.t) (w : world) :
  let r := AudioGenerationWorker.run self w in
  let total := AudioGenerationWorker.end_idx self
               - AudioGenerationWorker.start_idx self + 1 in
  AudioGenerationWorker.start_idx self <= AudioGenerationWorker.end_idx self ->
  existsb is_error (emitted r) = false ->
  List.last (fractions (emitted r)) 0%Q = (inject_Z total / inject_Z total)%Q
  /\ (List.last (fractions (emitted r)) 0 == 1)%Q.
Proof.
  intros r total Hrange Hno. subst r total.
  assert (Hone : (inject_Z (AudioGenerationWorker.end_idx self
                            - AudioGenerationWorker.start_idx self + 1)
                  / inject_Z (AudioGenerationWorker.end_idx self
                              - AudioGenerationWorker.start_idx self + 1) == 1)%Q).
  { apply Qmult_inv_r. unfold Qeq. cbn. lia. }
  enough (H : List.last (fractions (emitted (AudioGenerationWorker.run self w))) 0%Q
              = (inject_Z (AudioGenerationWorker.end_idx self
                           - AudioGenerationWorker.start_idx self + 1)
                 / inject_Z (AudioGenerationWorker.end_idx self
                             - AudioGenerationWorker.start_idx self + 1))%Q).
  { split; [exact H | rewrite H; exact Hone]. }
  clear Hone.
  pose proof (run_unfold self w) as Hrun. cbv zeta in Hrun.
  rewrite Hrun in *. clear Hrun.
  destruct (result (BookReader.makedir (AudioGenerationWorker.book self) w))
    as [[[outdir title] book]|e]; [|discriminate Hno].
  set (start := AudioGenerationWorker.start_idx self) in *.
  set (end_ := AudioGenerationWorker.end_idx self) in *.
  set (w1 := final (BookReader.makedir (AudioGenerationWorker.book self) w)) in *.
  assert (Hn : end_ - start + 1 = Z.of_nat (S (Z.to_nat (end_ - start)))) by lia.
  pose proof (loop_completes self
                (TextToAudio.Build (AudioGenerationWorker.voice self)
                                   (AudioGenerationWorker.speed self))
                outdir title book (S (Z.to_nat (end_ - start))) start w1) as Hloop.
  cbv zeta in Hloop. fold start end_ in Hloop. rewrite <- Hn in Hloop.
  destruct (result (for_each _ _ w1)) as [[]|e].
  2:{ cbn [emitted] in Hno. rewrite existsb_app in Hno. cbn in Hno.
      rewrite orb_true_r in Hno. discriminate. }
  destruct Hloop as (encoded & Hlen & Hev); [lia | reflexivity|].
  cbn [emitted]. rewrite Hev, fractions_app, Hn.
  destruct (parts_events_last start end_ start (Z.to_nat (end_ - start))
              encoded Hlen) as [qs ->].
  cbn [fractions omap list_omap fraction_of]. rewrite app_nil_r.
  rewrite last_last. rewrite <- Hn.
  replace (start + Z.of_nat (Z.to_nat (end_ - start)) - start + 1)
    with (end_ - start + 1) by lia.
  reflexivity.
Qed.

End ProgressBar.

(** [progress_ends_at_one] on five parts with the range [1..3]: fifteen
    progress signals, the last of them with the fraction [3/3]. *)
Lemma progress_ends_at_one_witness :
  let r := @AudioGenerationWorker.run ascii_db good_externals
             (sample_worker 5 1 3) empty_world in
  length (fractions (emitted r)) = 15%nat
  /\ List.last (fractions (emitted r)) 0%Q = (inject_Z 3 / inject_Z 3)%Q.
Proof.
  intros r. split; [vm_compute; reflexivity|].
  destruct (@progress_ends_at_one ascii_db good_externals
              (sample_worker 5 1 3) empty_world) as [Hlast _].
  - cbn; lia.
  - vm_compute; reflexivity.
  - exact Hlast.
Defined.

(** ** The command line: when [main] returns 1 *)
Section ExitCodes.
Context {db : UnicodeDB} {ext : Externals}.

Lemma bind_never {A B} (m : M A) (k : A -> M B) (v : B) (w : world) :
  (forall a w', result (k a w') <> Ret v) -> result (bind m k w) <> Ret v.
Proof.
  intros Hk. rewrite bind_run. destruct (result (m w)) as [a|e].
  - cbn [result]. apply Hk.
  - discriminate.
Qed.

(** In a mode that is handled, a file is processed or an exception is
    raised: [process_file_cli] does not return [False]. *)
Lemma process_handled (filename : pystr) (args : cli_args) (w : world) :
  handled_mode (mode args) = true ->
  result (process_file_cli filename args w) <> Ret false.
Proof.
  unfold handled_mode, mode_is, process_file_cli.
  destruct (mode args) as [[|c m]|]; [discriminate| |discriminate].
  intros H. destruct (Str.eqb (c :: m) (str "dump")).
  { apply bind_never. intros b w1. apply bind_never. discriminate. }
  destruct (Str.eqb (c :: m) (str "dir")).
  { apply bind_never. intros w0 w1. apply bind_never. discriminate. }
  destruct (Str.eqb (c :: m) (str "txt")); [|discriminate H].
  apply bind_never. intros text w1. apply bind_never. discriminate.
Qed.

Lemma process_loop_handled (todo : list pystr) (args : cli_args) (w : world) :
  handled_mode (mode args) = true ->
  forall f,
    result (for_until todo
              (fun f =>
                 print ([LF] ++ str "Processing: " ++ f) ;;
                 ok <- process_file_cli f args ;;
                 ret (negb ok)) w)
    <> Ret (Some f).
Proof.
  intros Hmode f0. revert w. induction todo as [|f rest IH]; intros w;
    [discriminate|].
  cbn [for_until]. rewrite bind_run, print_then_run.
  cbn [result final emitted]. rewrite bind_run.
  pose proof (process_handled f args w Hmode) as Hf.
  destruct (process_file_cli f args w) as [[[|]|e] w1 evs];
    cbn [result final emitted ret negb] in *;
    [apply IH | congruence | discriminate].
Qed.

Lemma list_loop_code (todo : list pystr) (w : world) (e : ending) :
  result (bind (for_each todo
                  (fun f => print ([LF] ++ str "Listing items in: " ++ f) ;;
                            list_items f))
               (fun _ => ret (Returned 0)) w) = Ret e ->
  e = Returned 0.
Proof.
  rewrite bind_run. destruct (result (for_each _ _ w)); [|discriminate].
  cbn [result ret]. congruence.
Qed.

(** X7. Once the command line is accepted, that is the mode is missing or
    one of [dump], [dir], [txt] and [list], and the graphical interface is
    not started, [main] returns 1 if and only if a named file or directory
    does not exist, or files are named and the mode is missing; the only
    other value it returns is 0. *)
Theorem main_returns_1_iff (argv : cli_args) (w : world) :
  parse_args argv = Some argv ->
  gui argv || (is_nil (files argv) && no_mode (mode argv)) = false ->
  (result (main argv w) = Ret (Returned 1)
   <-> (exists f, In f (files argv) /\ path_exists w f = false)
       \/ (files argv <> [] /\ mode argv = None))
  /\ (forall e, result (main argv w) = Ret e ->
                e = Returned 0 \/ e = Returned 1).
Proof.
  intros Hp Hcli. unfold main. rewrite Hp, Hcli.
  rewrite bind_run. cbn [get_world result final emitted].
  rewrite bind_run, for_until_find. cbn [result final emitted].
  destruct (List.find _ (files argv)) as [f|] eqn:Hfind.
  { rewrite bind_run. cbn [print emit ret result final emitted]. split.
    - split; [|reflexivity]. intros _. left. exists f.
      apply List.find_some in Hfind as [Hin Hf]. split; [exact Hin|].
      apply negb_true_iff, Hf.
    - intros e H. right. congruence. }
  assert (Hall : forall f, In f (files argv) -> path_exists w f = true).
  { intros f Hin. pose proof (List.find_none _ _ Hfind f Hin) as Hf.
    apply negb_false_iff, Hf. }
  destruct (mode_is (mode argv) "list") eqn:Hlist.
  { split.
    - split.
      + intros H. apply list_loop_code in H. discriminate H.
      + intros [(f & Hin & Hf)|(_ & H)].
        * rewrite (Hall f Hin) in Hf. discriminate Hf.
        * rewrite H in Hlist. discriminate Hlist.
    - intros e H. left. exact (list_loop_code _ _ _ H). }
  rewrite bind_run.
  destruct (handled_mode (mode argv)) eqn:Hmode.
  - pose proof (process_loop_handled (files argv) argv w Hmode) as Hloop.
    destruct (result (for_until (files argv) _ w)) as [[f|]|e].
    + destruct (Hloop f eq_refl).
    + cbn [result ret is_none]. split.
      * split; [discriminate|].
        intros [(f & Hin & Hf)|(_ & H)].
        -- rewrite (Hall f Hin) in Hf. discriminate Hf.
        -- rewrite H in Hmode. discriminate Hmode.
      * intros e H. left. congruence.
    + split; [|discriminate]. split; [discriminate|].
      intros [(f & Hin & Hf)|(_ & H)].
      * rewrite (Hall f Hin) in Hf. discriminate Hf.
      * rewrite H in Hmode. discriminate Hmode.
  - pose proof (unhandled_is_none argv Hp Hlist Hmode) as Hnone.
    destruct (files argv) as [|f rest] eqn:Hfiles.
    + cbn [for_until ret result is_none]. split.
      * split; [discriminate|].
        intros [(f & [] & _)|(H & _)]. destruct (H eq_refl).
      * intros e H. left. congruence.
    + cbn [for_until]. rewrite bind_run, print_then_run.
      cbn [result final emitted]. rewrite bind_run.
      rewrite (process_unhandled f argv w Hmode).
      cbn [result ret negb is_none]. split.
      * split; [|reflexivity]. intros _. right.
        split; [discriminate | exact Hnone].
      * intros e H. right. congruence.
Qed.

End ExitCodes.

(** [main_returns_1_iff] for [notes.txt] without a mode: 1. *)
Lemma main_returns_1_iff_witness :
  let w := World {[ str "notes.txt" := TextFile (str "Hello.") ]} ∅ [] in
  result (@main ascii_db good_externals
            (Args false None (str "af_heart") (13 # 10) [str "notes.txt"]) w)
  = Ret (Returned 1).
Proof.
  intros w.
  apply (@main_returns_1_iff ascii_db good_externals
           (Args false None (str "af_heart") (13 # 10) [str "notes.txt"])
           w eq_refl eq_refl).
  right. split; [discriminate | reflexivity].
Defined.

(** ** The text handed to the speech engine *)
Section NormalizeShape.
Context {db : UnicodeDB}.

Lemma collapse_ellipsis_Forall (P : N -> Prop) (s : pystr) :
  P DOT -> Forall P s -> Forall P (collapse_ellipsis s).
Proof.
  intros Hdot. remember (length s) as n eqn:Hn.
  assert (Hle : (length s <= n)%nat) by lia. clear Hn.
  revert s Hle. induction n as [|n IH]; intros s Hle Hs.
  - destruct s; [constructor | cbn in Hle; lia].
  - destruct s as [|c1 t]; [constructor|].
    apply Forall_cons_1 in Hs as [H1 Ht]. cbn [length] in Hle.
    assert (Hrest : Forall P (collapse_ellipsis t)) by (apply IH; [lia | exact Ht]).
    rewrite collapse_ellipsis_cons.
    destruct t as [|c2 [|c3 [|c4 [|c5 r]]]]; try (constructor; assumption).
    destruct (is_ellipsis c1 c2 c3 c4 c5); [|constructor; assumption].
    constructor; [exact Hdot|]. apply IH; [cbn [length] in Hle; lia|].
    do 4 apply Forall_cons_1, proj2 in Ht. exact Ht.
Qed.

Lemma break_sentences_ok (s : pystr) :
  Forall (fun c => c <> LF) s -> breaks_ok (break_sentences s) = true.
Proof.
  unfold break_sentences. induction 1 as [|c r Hc Hr IH]; [reflexivity|].
  cbn [flat_map]. destruct (is_terminator c) eqn:E.
  - cbn [app breaks_ok]. rewrite E, N.eqb_refl. exact IH.
  - cbn [app breaks_ok]. rewrite E. apply N.eqb_neq in Hc. rewrite Hc. exact IH.
Qed.

Lemma break_sentences_Forall (P : N -> Prop) (s : pystr) :
  P LF -> Forall P s -> Forall P (break_sentences s).
Proof.
  intros Hlf. unfold break_sentences. induction 1 as [|c r Hc Hr IH];
    [constructor|].
  cbn [flat_map]. destruct (is_terminator c); repeat constructor; assumption.
Qed.

(** X8. The text that [_run_kokoro] hands to the engine has one sentence
    to a line: in it every ['.'], ['!'] and ['?'] is followed at once by a
    newline, there is no other newline, and there is no non-breaking
    space. *)
Theorem normalize_one_sentence_per_line (txt : pystr) :
  breaks_ok (normalize txt) = true
  /\ Forall (fun c => c <> NBSP) (normalize txt).
Proof.
  rewrite normalize_passes. unfold normalize_spec.
  pose proof (to_spaces_no_break txt) as Hb.
  set (u := List.map nbsp_to_space (List.map newline_to_space txt)) in *.
  assert (Hv : Forall (fun c => c <> LF /\ c <> NBSP)
                      (strip_contractions Outside (collapse_ellipsis u))).
  { apply strip_contractions_Forall, collapse_ellipsis_Forall;
      [split; discriminate | exact Hb]. }
  split.
  - apply break_sentences_ok. eapply Forall_impl; [exact Hv|].
    intros c [H _]. exact H.
  - apply break_sentences_Forall; [discriminate|].
    eapply Forall_impl; [exact Hv|]. intros c [_ H]. exact H.
Qed.

Lemma filter_word_map (f : N -> N) (s : pystr) :
  (forall c, f c = c \/ (is_word c = false /\ is_word (f c) = false)) ->
  List.filter is_word (List.map f s) = List.filter is_word s.
Proof.
  intros Hf. induction s as [|c r IH]; [reflexivity|].
  cbn [List.map List.filter]. rewrite IH.
  destruct (Hf c) as [->|[-> ->]]; reflexivity.
Qed.

Lemma filter_word_collapse (s : pystr) :
  List.filter is_word (collapse_ellipsis s) = List.filter is_word s.
Proof.
  remember (length s) as n eqn:Hn.
  assert (Hle : (length s <= n)%nat) by lia. clear Hn.
  revert s Hle. induction n as [|n IH]; intros s Hle.
  - destruct s; [reflexivity | cbn in Hle; lia].
  - destruct s as [|c1 t]; [reflexivity|]. cbn [length] in Hle.
    assert (Hrest : List.filter is_word (collapse_ellipsis t)
                    = List.filter is_word t) by (apply IH; lia).
    rewrite collapse_ellipsis_cons.
    destruct t as [|c2 [|c3 [|c4 [|c5 r]]]];
      try (cbn [List.filter]; rewrite Hrest; reflexivity).
    destruct (is_ellipsis c1 c2 c3 c4 c5) eqn:E;
      [|cbn [List.filter]; rewrite Hrest; reflexivity].
    unfold is_ellipsis in E. repeat (apply andb_true_iff in E as [E ?]).
    repeat match goal with H : (_ =? _)%N = true |- _ =>
             apply N.eqb_eq in H; subst end.
    change (List.filter is_word (DOT :: collapse_ellipsis r)
            = List.filter is_word r).
    change (List.filter is_word (DOT :: collapse_ellipsis r))
      with (List.filter is_word (collapse_ellipsis r)).
    apply IH. cbn [length] in Hle. lia.
Qed.

Lemma filter_word_strip (st : token_state) (s : pystr) :
  List.filter is_word (strip_contractions st s) = List.filter is_word s.
Proof.
  revert st. induction s as [|c r IH]; intros st; [reflexivity|].
  cbn [strip_contractions]. destruct (is_word c) eqn:Hw.
  - cbn [List.filter]. rewrite Hw, IH. reflexivity.
  - destruct ((c =? APOSTROPHE)%N && _ && _);
      cbn [List.filter]; rewrite Hw; apply IH.
Qed.

Lemma filter_word_break (s : pystr) :
  List.filter is_word (break_sentences s) = List.filter is_word s.
Proof.
  unfold break_sentences. induction s as [|c r IH]; [reflexivity|].
  cbn [flat_map]. destruct (is_terminator c) eqn:E.
  - cbn [app List.filter].
    change (is_word LF) with false. cbv iota. rewrite IH. reflexivity.
  - cbn [app List.filter]. rewrite IH. reflexivity.
Qed.

(** X9. Normalisation neither adds, nor drops, nor reorders a letter, a
    digit or an underscore: the word characters of the text handed to the
    engine are those of the input, provided the non-breaking space is not
    alphanumeric, as in Unicode. *)
Theorem normalize_keeps_word_characters (txt : pystr) :
  isalnum NBSP = false ->
  List.filter is_word (normalize txt) = List.filter is_word txt.
Proof.
  intros Hnbsp. rewrite normalize_passes. unfold normalize_spec.
  rewrite filter_word_break, filter_word_strip, filter_word_collapse.
  rewrite !filter_word_map; [reflexivity | |].
  - intros c. unfold newline_to_space. destruct (c =? LF)%N eqn:E;
      [|left; reflexivity].
    apply N.eqb_eq in E. subst c. right. split; reflexivity.
  - intros c. unfold nbsp_to_space. destruct (c =? NBSP)%N eqn:E;
      [|left; reflexivity].
    apply N.eqb_eq in E. subst c. right. split; [|reflexivity].
    unfold is_word. rewrite Hnbsp. reflexivity.
Qed.

End NormalizeShape.

(** [normalize_keeps_word_characters] on a text with a contraction, an
    ellipsis and a non-breaking space. *)
Lemma normalize_keeps_word_characters_witness :
  let txt := str "It's" ++ [NBSP] ++ str "late. . . Go_2 bed!" in
  List.filter (@is_word ascii_db) (@normalize ascii_db txt) = str "ItslateGo_2bed".
Proof.
  intros txt.
  rewrite (@normalize_keeps_word_characters ascii_db txt); reflexivity.
Defined.

(** ** The files of the parts *)

Lemma to_string_str (s : string) : to_string (str s) = s.
Proof.
  unfold to_string, str, chr. rewrite List.map_map.
  rewrite (List.map_ext _ (fun a => a)) by (intros a; apply ascii_N_embedding).
  rewrite List.map_id. apply string_of_list_ascii_of_string.
Qed.

(** [str(m)] for [m >= 0]: the digits of a decimal numeral of value [m]. *)
Lemma of_Z_digits (m : Z) :
  0 <= m ->
  exists d, Str.of_Z m = str (NilEmpty.string_of_uint d) /\ Z.of_uint d = m
            /\ d <> Decimal.Nil.
Proof.
  intros Hm. unfold Str.of_Z. pose proof (DecimalZ.of_to m) as Hz.
  destruct m as [|p|p];
    [exists (Decimal.D0 Decimal.Nil); repeat split; discriminate | | lia].
  cbn [Z.to_int NilZero.string_of_int Z.of_int] in *.
  destruct (Pos.to_uint p) as [|d|d|d|d|d|d|d|d|d|d] eqn:E;
    [exists (Decimal.D0 Decimal.Nil); split; [reflexivity | split; [exact Hz | discriminate]] | ..];
    eexists; (split; [reflexivity | split; [exact Hz | discriminate]]).
Qed.

Lemma zeros_digits (k : nat) (d : Decimal.uint) :
  repeat 48%N k ++ str (NilEmpty.string_of_uint d)
  = str (NilEmpty.string_of_uint (Nat.iter k Decimal.D0 d))
  /\ Z.of_uint (Nat.iter k Decimal.D0 d) = Z.of_uint d.
Proof.
  induction k as [|k [IH1 IH2]]; [split; reflexivity|].
  cbn [repeat app Nat.iter]. split; [|exact IH2].
  rewrite IH1. reflexivity.
Qed.

(** Reading the digits of [f"{n:03d}"] gives [n] back. *)
Lemma read_int_format_03d (n : Z) : read_int (Str.format_03d n) = Some n.
Proof.
  unfold Str.format_03d.
  destruct (of_Z_digits (Z.abs n) (Z.abs_nonneg n)) as (d & -> & Hd & _).
  destruct (n <? 0) eqn:E.
  - apply Z.ltb_lt in E.
    destruct (zeros_digits (3 - length [HYPHEN] - length (str (NilEmpty.string_of_uint d))) d)
      as [-> Hz].
    unfold read_int. cbn [app]. unfold to_string. cbn [List.map string_of_list_ascii].
    fold (to_string (str (NilEmpty.string_of_uint
           (Nat.iter (3 - length [HYPHEN] - length (str (NilEmpty.string_of_uint d)))
                     Decimal.D0 d)))).
    rewrite to_string_str. cbn [NilEmpty.int_of_string].
    change (Ascii.eqb (ascii_of_N HYPHEN) "-"%char) with true. cbv iota.
    rewrite NilEmpty.usu. cbn [option_map Z.of_int]. f_equal. lia.
  - apply Z.ltb_ge in E.
    destruct (zeros_digits (3 - length (@nil N) - length (str (NilEmpty.string_of_uint d))) d)
      as [-> Hz].
    unfold read_int. cbn [app]. rewrite to_string_str.
    match goal with
    | |- context [NilEmpty.int_of_string (NilEmpty.string_of_uint ?u)] =>
        rewrite (NilEmpty.isi (Decimal.Pos u)
                 : NilEmpty.int_of_string (NilEmpty.string_of_uint u) = _)
    end.
    cbn [option_map Z.of_int]. f_equal. lia.
Qed.

Lemma format_03d_inj (i j : Z) : Str.format_03d i = Str.format_03d j -> i = j.
Proof.
  intros H. apply (f_equal read_int) in H.
  rewrite !read_int_format_03d in H. congruence.
Qed.

Lemma startswith_slash_app (t x : pystr) :
  Str.startswith [SLASH] (t ++ str "_part_" ++ x)
  = Str.startswith [SLASH] (t ++ str "_part_").
Proof. destruct t; reflexivity. Qed.

Lemma partBasename_inj (outDir title : pystr) (i j : Z) :
  BookReader.partBasename outDir title i = BookReader.partBasename outDir title j ->
  i = j.
Proof.
  unfold BookReader.partBasename, path_join. rewrite !startswith_slash_app.
  destruct (Str.startswith [SLASH] (title ++ str "_part_"));
    [|destruct (Str.eqb outDir [] || Str.endswith [SLASH] outDir)];
    intros H; repeat apply app_inv_head in H; apply format_03d_inj, H.
Qed.

Lemma uint_last_digit (d : Decimal.uint) :
  d <> Decimal.Nil ->
  exists s c, str (NilEmpty.string_of_uint d) = s ++ [c]
              /\ in_range 48 57 c = true.
Proof.
  induction d as [|d IH|d IH|d IH|d IH|d IH|d IH|d IH|d IH|d IH|d IH];
    intros Hd; [destruct (Hd eq_refl) | ..];
    (destruct d as [|d'|d'|d'|d'|d'|d'|d'|d'|d'|d'] eqn:E;
     [eexists [], _; split; reflexivity | ..]);
    (destruct IH as (s & c & Hs & Hc); [discriminate|];
     cbn [NilEmpty.string_of_uint] in Hs |- *;
     eexists (_ :: s), c; split; [|exact Hc];
     change (str (String ?a ?r)) with (chr a :: str r);
     rewrite Hs; reflexivity).
Qed.

(** [f"{n:03d}"] ends with a digit. *)
Lemma format_03d_last (n : Z) :
  exists s c, Str.format_03d n = s ++ [c] /\ in_range 48 57 c = true.
Proof.
  unfold Str.format_03d.
  destruct (of_Z_digits (Z.abs n) (Z.abs_nonneg n)) as (d & -> & _ & Hd).
  destruct (uint_last_digit d Hd) as (s & c & -> & Hc).
  eexists _, c. split; [|exact Hc]. rewrite !app_assoc. reflexivity.
Qed.

Lemma endswith_txt_digit (s : pystr) (c : N) :
  in_range 48 57 c = true -> Str.endswith (str ".txt") (s ++ [c]) = false.
Proof.
  intros Hc. unfold Str.endswith. rewrite rev_app_distr.
  change (rev (str ".txt")) with [116; 120; 116; 46]%N.
  cbn [rev app Str.startswith].
  unfold in_range in Hc. apply andb_true_iff in Hc as [_ Hc].
  apply N.leb_le in Hc. destruct (116 =? c)%N eqn:E; [|reflexivity].
  apply N.eqb_eq in E. lia.
Qed.

(** The basename of a part does not end in [".txt"]: its audio files are
    the basename followed by [".wav"] and [".opus"]. *)
Lemma output_paths_of_basename (outDir title : pystr) (i : Z) :
  TextToAudio.output_paths (BookReader.partBasename outDir title i)
  = (BookReader.partBasename outDir title i ++ str ".wav",
     BookReader.partBasename outDir title i ++ str ".opus").
Proof.
  unfold TextToAudio.output_paths.
  assert (H : Str.endswith (str ".txt") (BookReader.partBasename outDir title i)
              = false).
  { unfold BookReader.partBasename, path_join.
    destruct (format_03d_last i) as (s & c & -> & Hc).
    destruct (Str.startswith _ _);
      [|destruct (Str.eqb outDir [] || Str.endswith [SLASH] outDir)];
      rewrite !app_assoc; apply endswith_txt_digit, Hc. }
  rewrite H. reflexivity.
Qed.

(** X10. The parts of a book go to different files: in the same directory
    and under the same title, two different indices never give the same
    basename, so neither the same text file nor the same audio files. *)
Theorem partBasename_distinct (outDir title : pystr) (i j : Z) :
  i <> j ->
  let base_i := BookReader.partBasename outDir title i in
  let base_j := BookReader.partBasename outDir title j in
  base_i <> base_j
  /\ base_i ++ str ".txt" <> base_j ++ str ".txt"
  /\ TextToAudio.output_paths base_i = (base_i ++ str ".wav", base_i ++ str ".opus")
  /\ fst (TextToAudio.output_paths base_i) <> fst (TextToAudio.output_paths base_j)
  /\ snd (TextToAudio.output_paths base_i) <> snd (TextToAudio.output_paths base_j).
Proof.
  intros Hij base_i base_j. subst base_i base_j.
  assert (Hne : BookReader.partBasename outDir title i
                <> BookReader.partBasename outDir title j).
  { intros H. apply Hij. exact (partBasename_inj outDir title i j H). }
  rewrite !output_paths_of_basename. cbn [fst snd].
  split; [exact Hne|].
  split; [intros H; apply Hne; exact (app_inv_tail _ _ _ H)|].
  split; [reflexivity|].
  split; intros H; apply Hne; exact (app_inv_tail _ _ _ H).
Qed.

(** [partBasename_distinct] on the parts 7 and 12 of ["My_Book_"]. *)
Lemma partBasename_distinct_witness :
  BookReader.partBasename (str "/books/My_Book_") (str "My_Book_") 7
  = str "/books/My_Book_/My_Book__part_007"
  /\ BookReader.partBasename (str "/books/My_Book_") (str "My_Book_") 7
     <> BookReader.partBasename (str "/books/My_Book_") (str "My_Book_") 12.
Proof.
  split; [reflexivity|].
  apply (partBasename_distinct
           (str "/books/My_Book_") (str "My_Book_") 7 12).
  lia.
Defined.

(** ** The output directory *)






Section OutputDirectory.
Context {db : UnicodeDB} {ext : Externals}.


End OutputDirectory.


Lemma uint_chars (d : Decimal.uint) :
  Forall (fun c => in_range 48 57 c = true) (str (NilEmpty.string_of_uint d)).
Proof.
  induction d as [|d IH|d IH|d IH|d IH|d IH|d IH|d IH|d IH|d IH|d IH];
    [constructor | ..];
    cbn [NilEmpty.string_of_uint];
    change (str (String ?a ?r)) with (chr a :: str r);
    (constructor; [reflexivity | exact IH]).
Qed.

(** [str(i)] is made of digits, after a hyphen when [i] is negative. *)
Lemma of_Z_chars (i : Z) : Forall (fun c => is_decimal_char c = true) (Str.of_Z i).
Proof.
  assert (Hpos : forall m, 0 <= m ->
            Forall (fun c => is_decimal_char c = true) (Str.of_Z m)).
  { intros m Hm. destruct (of_Z_digits m Hm) as (d & -> & _).
    eapply Forall_impl; [apply uint_chars|].
    intros c Hc. unfold is_decimal_char. rewrite Hc. reflexivity. }
  destruct i as [|p|p]; [apply Hpos; lia | apply Hpos; lia|].
  change (Str.of_Z (Z.neg p)) with (HYPHEN :: Str.of_Z (Z.pos p)).
  constructor; [reflexivity | apply Hpos; lia].
Qed.

(** ** The paths of the parts *)

Local Abbreviation no_slash s := (Forall (fun c => (c =? SLASH)%N = false) s).

(** A path that does not end with a slash, and is not empty. *)
Local Abbreviation ends_plain s :=
  (exists c r, rev s = c :: r /\ (c =? SLASH)%N = false).






















Section MadeDirectory.
Context {db : UnicodeDB} {ext : Externals}.



End MadeDirectory.

(** ** [BookReader._find_parts] and [BookReader.dump] *)
Section Dump.
Context {db : UnicodeDB} {ext : Externals}.

(** A computation that leaves files and directories as they are. *)
Local Abbreviation keeps_files m :=
  (forall w : world, fs (final (m w)) = fs w /\ dirs (final (m w)) = dirs w).

Lemma keeps_bind {A B} (m : M A) (k : A -> M B) :
  keeps_files m -> (forall a, keeps_files (k a)) -> keeps_files (bind m k).
Proof.
  intros Hm Hk w. rewrite bind_run. destruct (Hm w) as [H1 H2].
  destruct (result (m w)) as [a|e]; cbn [final]; [|split; assumption].
  destruct (Hk a (final (m w))) as [H3 H4]. split; congruence.
Qed.

Lemma keeps_input (prompt : pystr) : keeps_files (input prompt).
Proof. intros [f d [|line rest]]; split; reflexivity. Qed.

Lemma keeps_print (line : pystr) : keeps_files (print line).
Proof. intros w. split; reflexivity. Qed.

Lemma keeps_list_index {A} (l : list A) (i : Z) : keeps_files (list_index l i).
Proof.
  intros w. destruct (list_index_cases l i w) as [[x ->]|[e ->]];
    split; reflexivity.
Qed.

Lemma keeps_ask (question : pystr) (parts : list pystr) (i : Z) :
  keeps_files (BookReader.ask question parts i).
Proof.
  unfold BookReader.ask.
  apply keeps_bind; [apply keeps_print|]. intros _.
  apply keeps_bind; [apply keeps_list_index|]. intros part.
  apply keeps_bind; [apply keeps_print|]. intros _.
  apply keeps_bind; [apply keeps_input|]. intros answer w. split; reflexivity.
Qed.

Lemma keeps_for_until {A} (l : list A) (body : A -> M bool) :
  (forall x, keeps_files (body x)) -> keeps_files (for_until l body).
Proof.
  intros Hbody. induction l as [|x l IH]; [intros w; split; reflexivity|].
  cbn [for_until]. apply keeps_bind; [apply Hbody|].
  intros [|]; [intros w; split; reflexivity | exact IH].
Qed.

Lemma keeps_search_parts (parts : list pystr) :
  keeps_files (BookReader.search_parts parts).
Proof.
  unfold BookReader.search_parts.
  apply keeps_bind; [apply keeps_print|]. intros _.
  apply keeps_bind; [apply keeps_for_until; intros i; apply keeps_ask|].
  intros found1.
  apply keeps_bind; [apply keeps_print|]. intros _.
  apply keeps_bind; [apply keeps_for_until; intros i; apply keeps_ask|].
  intros found2.
  apply keeps_bind; [apply keeps_print|]. intros _ w. split; reflexivity.
Qed.

Lemma keeps_find_parts (parts : list pystr) :
  keeps_files (BookReader._find_parts parts).
Proof.
  unfold BookReader._find_parts.
  apply keeps_bind; [apply keeps_input|]. intros line.
  destruct (BookReader.range_hint line parts);
    [intros w; split; reflexivity | apply keeps_search_parts].
Qed.

(** A loop left with [break] was left at an element of its list. *)
Lemma for_until_found {A} (l : list A) (body : A -> M bool) (w : world) (x : A) :
  result (for_until l body w) = Ret (Some x) -> In x l.
Proof.
  revert w. induction l as [|y l IH]; intros w; [discriminate|].
  cbn [for_until]. rewrite bind_run.
  destruct (result (body y w)) as [[|]|e]; cbn [result ret].
  - intros H. left. congruence.
  - intros H. right. exact (IH _ H).
  - discriminate.
Qed.

Lemma range_hint_some (line : pystr) (parts : list pystr) (s e : Z) :
  BookReader.range_hint line parts = Some (s, e) ->
  0 <= s < e /\ e < Z.of_nat (length parts).
Proof.
  unfold BookReader.range_hint.
  destruct (mapM py_int (Str.split line)) as [[|n0 [|n1 [|n2 nums]]]|];
    try discriminate.
  destruct ((n0 <? n1) && (n0 >=? 0) && (n1 <? Z.of_nat (length parts))) eqn:E;
    [|discriminate].
  intros H. injection H as <- <-.
  apply andb_true_iff in E as [E E3]. apply andb_true_iff in E as [E1 E2].
  apply Z.ltb_lt in E1, E3. apply Z.geb_le in E2. lia.
Qed.

Lemma search_parts_bounds (parts : list pystr) (w : world) (s e : Z) :
  result (BookReader.search_parts parts w) = Ret (s, e) ->
  (s = 0 \/ 0 <= s < Z.of_nat (length parts))
  /\ (e = Z.of_nat (length parts) - 1 \/ 1 <= e <= Z.of_nat (length parts) - 1).
Proof.
  unfold BookReader.search_parts. rewrite print_then_run. cbn [result].
  rewrite bind_run.
  pose proof (for_until_found (range 0 (Z.of_nat (length parts)))
                (BookReader.ask (str "Is this the start (y/n)? ") parts) w) as H1.
  destruct (for_until (range 0 (Z.of_nat (length parts))) _ w)
    as [[found1|e1] w1 evs1]; cbn [result final emitted] in *; [|discriminate].
  rewrite print_then_run. cbn [result]. rewrite bind_run.
  pose proof (for_until_found (range_down (Z.of_nat (length parts) - 1) 0)
                (BookReader.ask (str "Is this the end (y/n)? ") parts) w1) as H2.
  destruct (for_until (range_down (Z.of_nat (length parts) - 1) 0) _ w1)
    as [[found2|e2] w2 evs2]; cbn [result final emitted] in *; [|discriminate].
  rewrite print_then_run. cbn [result ret]. intros H. injection H as <- <-.
  split.
  - destruct found1 as [x|]; [|left; reflexivity]. right.
    cbn [from_option id].
    specialize (H1 x eq_refl). unfold range in H1.
    apply list_elem_of_In, elem_of_seqZ in H1. lia.
  - destruct found2 as [x|]; [|left; reflexivity]. right.
    cbn [from_option id].
    specialize (H2 x eq_refl). unfold range_down in H2.
    apply in_rev, list_elem_of_In, elem_of_seqZ in H2. lia.
Qed.

(** The range that [_find_parts] returns lies within the book. *)
Lemma find_parts_bounds (parts : list pystr) (w : world) (s e : Z) :
  result (BookReader._find_parts parts w) = Ret (s, e) ->
  0 <= s /\ -1 <= e < Z.of_nat (length parts)
  /\ (parts <> [] -> s < Z.of_nat (length parts) /\ 0 <= e).
Proof.
  unfold BookReader._find_parts. rewrite bind_run.
  destruct (result (input _ w)) as [line|e0]; [|discriminate].
  cbn [result]. destruct (BookReader.range_hint line parts) as [[s0 e0]|] eqn:E.
  - cbn [ret result]. intros H. injection H as <- <-.
    apply range_hint_some in E. lia.
  - intros H. apply search_parts_bounds in H.
    assert (Hlen : parts <> [] -> 0 < Z.of_nat (length parts)).
    { destruct parts; [intros Hn; destruct (Hn eq_refl) | cbn; lia]. }
    split; [lia|]. split; [lia|]. intros Hne. specialize (Hlen Hne). lia.
Qed.

(** X12. Whatever is typed, the range that [_find_parts] returns lies
    within the book: the start is a valid index, the end is at most the
    last index, and it is [-1] only for a book without parts.  Asking
    changes no file and no directory. *)
Theorem find_parts_within_book (parts : list pystr) (w : world) :
  let r := BookReader._find_parts parts w in
  fs (final r) = fs w
  /\ dirs (final r) = dirs w
  /\ forall s e, result r = Ret (s, e) ->
       0 <= s /\ -1 <= e < Z.of_nat (length parts)
       /\ (parts <> [] -> s < Z.of_nat (length parts) /\ 0 <= e).
Proof.
  intros r. subst r. destruct (keeps_find_parts parts w) as [Hfs Hdirs].
  split; [exact Hfs|]. split; [exact Hdirs|].
  intros s e. apply find_parts_bounds.
Qed.

Local Abbreviation part_file outDir title i :=
  (BookReader.partBasename outDir title i ++ str ".txt").





End Dump.

(** [find_parts_within_book] on five parts, with a search that is confirmed
    at part 1 from the front and at part 3 from the back. *)
Lemma find_parts_within_book_witness :
  let parts := BookReader.parts (sample_book 5) in
  let w := World ∅ ∅ [str "n"; str "n"; str "y"; str "n"; str "y"] in
  result (@BookReader._find_parts ascii_db parts w) = Ret (1, 3)
  /\ 0 <= 1 /\ -1 <= 3 < Z.of_nat (length parts).
Proof.
  intros parts w. split; [reflexivity|].
  destruct (@find_parts_within_book ascii_db parts w) as (_ & _ & Hbounds).
  destruct (Hbounds 1 3 eq_refl) as (Hs & He & _).
  split; [exact Hs | exact He].
Defined.


(** ** The command line: what the user sees *)
Section ConsoleOutput.
Context {db : UnicodeDB} {ext : Externals}.





Lemma list_items_run (filename : pystr) (book : epub_book) (w : world) :
  read_epub w filename = Ret book ->
  list_items filename w
  = Run (Ret tt) w (List.map (fun item => Print (item_id item))
                             (epub_documents book)).
Proof.
  intros H.
  assert (Hloop : forall items,
            for_each items (fun item => print (item_id item)) w
            = Run (Ret tt) w (List.map (fun item => Print (item_id item)) items)).
  { induction items as [|item items IH]; [reflexivity|].
    cbn [for_each List.map]. rewrite print_then_run, IH. reflexivity. }
  unfold list_items. rewrite bind_run.
  cbn [get_world result final emitted]. rewrite H, Hloop. reflexivity.
Qed.

(** What [-m list] prints for the files [todo], each read as [book_of]
    says. *)
Lemma list_loop_run (todo : list pystr) (book_of : pystr -> epub_book)
      (w : world) :
  (forall f, In f todo -> read_epub w f = Ret (book_of f)) ->
  for_each todo
    (fun f => print ([LF] ++ str "Listing items in: " ++ f) ;; list_items f) w
  = Run (Ret tt) w
        (flat_map (fun f =>
                     Print ([LF] ++ str "Listing items in: " ++ f)
                     :: List.map (fun item => Print (item_id item))
                                 (epub_documents (book_of f)))
                  todo).
Proof.
  intros H. induction todo as [|f rest IH]; [reflexivity|].
  cbn [for_each flat_map]. rewrite bind_run, print_then_run.
  rewrite (list_items_run f (book_of f) w) by (apply H; left; reflexivity).
  cbn [result final emitted]. rewrite IH by (intros f' Hf'; apply H; right; exact Hf').
  reflexivity.
Qed.

(** X15. [-m list] on files that exist and are read as EPUB books: [main]
    returns 0, changes nothing, and prints, for each file in the order
    given, a blank line and ["Listing items in: <file>"] followed by the
    identifiers of the documents of that book, in the book's order, one to
    a line. *)
Theorem main_lists_documents (args : cli_args) (w : world)
        (book_of : pystr -> epub_book) :
  gui args = false ->
  mode args = Some (str "list") ->
  (forall f, In f (files args) -> path_exists w f = true) ->
  (forall f, In f (files args) -> read_epub w f = Ret (book_of f)) ->
  main args w
  = Run (Ret (Returned 0)) w
        (flat_map (fun f =>
                     Print ([LF] ++ str "Listing items in: " ++ f)
                     :: List.map (fun item => Print (item_id item))
                                 (epub_documents (book_of f)))
                  (files args)).
Proof.
  intros Hgui Hmode Hexist Hread. unfold main.
  assert (Hparse : parse_args args = Some args).
  { unfold parse_args. rewrite Hmode. reflexivity. }
  rewrite Hparse, Hgui, Hmode.
  change (no_mode (Some (str "list"))) with false.
  rewrite andb_false_r. cbn [orb].
  rewrite bind_run. cbn [get_world result final emitted].
  rewrite bind_run, for_until_find, (find_missing_none _ w Hexist).
  cbn [result final emitted].
  change (mode_is (Some (str "list")) "list") with true. cbv iota.
  rewrite bind_run, (list_loop_run _ book_of w Hread).
  cbn [result final emitted ret]. rewrite app_nil_r. reflexivity.
Qed.

End ConsoleOutput.


(** [main_lists_documents] on the sample book. *)
Lemma main_lists_documents_witness :
  let args := Args false (Some (str "list")) (str "af_heart") (13 # 10)
                   [str "book.epub"] in
  let w := World {[ str "book.epub" := TextFile [] ]} ∅ [] in
  emitted (@main ascii_db good_externals args w)
  = [Print ([LF] ++ str "Listing items in: book.epub");
     Print (str "cover"); Print (str "ch1"); Print (str "ch2")].
Proof.
  intros args w.
  rewrite (@main_lists_documents ascii_db good_externals args w
             (fun _ => sample_epub) eq_refl eq_refl).
  - reflexivity.
  - intros f [<-|[]]. reflexivity.
  - intros f _. reflexivity.
Defined.

(** ** [AudioGenerationWorker.run]: the files of a job *)
Section WorkerFiles.
Context {db : UnicodeDB} {ext : Externals}.



(** The files of part [i] after the job: the compressed file is what the
    encoder wrote when it was given the wave file with the audio of the
    normalised text of the part, and that wave file is gone. *)
Local Abbreviation part_done self outdir title parts i files' :=
  (exists (part : pystr) (files : gmap pystr file) (compressed : file),
      parts !! Z.to_nat i = Some part
      /\ files !! (BookReader.partBasename outdir title i ++ str ".wav")
         = Some (WavFile (frames_of (chunks
             (kokoro (AudioGenerationWorker.voice self)
                     (AudioGenerationWorker.speed self) (normalize part)))))
      /\ ffmpeg files
           (List.tl (TextToAudio.ffmpeg_cmd
                       (BookReader.partBasename outdir title i ++ str ".wav")
                       (BookReader.partBasename outdir title i ++ str ".opus")))
         = EncExit 0 (Some compressed)
      /\ files' !! (BookReader.partBasename outdir title i ++ str ".opus")
         = Some compressed
      /\ files' !! (BookReader.partBasename outdir title i ++ str ".wav") = None).

Section Job.
Variable self : AudioGenerationWorker.t.
Hypothesis engine_delivers : forall voice speed text,
  failure (kokoro voice speed text) = None.
Hypothesis encoder_succeeds : forall files args,
  exists compressed, ffmpeg files args = EncExit 0 (Some compressed).




End Job.
End WorkerFiles.


(** ** The list of parts of the graphical interface *)

Lemma strip_length (s : pystr) : (length (Str.strip s) <= length s)%nat.
Proof.
  unfold Str.strip.
  destruct (lstrip_suffix s) as [pre Hs].
  destruct (rstrip_prefix (Str.lstrip s)) as [post Hl].
  rewrite Hs at 2. rewrite Hl at 2. rewrite !length_app. lia.
Qed.

(** X18. An entry of the list of parts is a single line, whatever the
    part: ["Part <i>: "] and a preview without newline.  The preview is
    the first 100 characters of the part, newlines turned into spaces and
    white space trimmed at both ends, followed by ["..."] exactly when the
    part is longer than 100 characters; so it is never longer than 103
    characters. *)
Theorem list_entry_single_line (i : Z) (part : pystr) :
  Forall (fun c => c <> LF) (list_entry i part)
  /\ (length (part_preview part) <= 103)%nat
  /\ part_preview part
     = Str.strip (List.map newline_to_space (firstn 100 part))
       ++ (if (100 <? length part)%nat then str "..." else []).
Proof.
  assert (Hshape : part_preview part
                   = Str.strip (List.map newline_to_space (firstn 100 part))
                     ++ (if (100 <? length part)%nat then str "..." else [])).
  { unfold part_preview, Str.prefix. rewrite replace_char_map.
    fold newline_to_space.
    change (List.map (fun x => if (x =? LF)%N then SPACE else x))
      with (List.map newline_to_space).
    destruct (100 <? length part)%nat; [reflexivity|].
    rewrite app_nil_r. reflexivity. }
  assert (Hline : Forall (fun c => c <> LF)
                    (Str.strip (List.map newline_to_space (firstn 100 part)))).
  { apply strip_Forall, Forall_map, Forall_forall. intros c _.
    unfold newline_to_space. destruct (c =? LF)%N eqn:E; [discriminate|].
    apply N.eqb_neq, E. }
  split; [|split; [|exact Hshape]].
  - unfold list_entry. rewrite Hshape.
    repeat apply Forall_app_2.
    + repeat constructor; discriminate.
    + eapply Forall_impl; [apply of_Z_chars|]. intros c Hc ->. discriminate Hc.
    + repeat constructor; discriminate.
    + exact Hline.
    + destruct (100 <? length part)%nat; repeat constructor; discriminate.
  - rewrite Hshape, length_app.
    pose proof (strip_length (List.map newline_to_space (firstn 100 part))) as Hlen.
    rewrite length_map, length_firstn in Hlen.
    destruct (100 <? length part)%nat; cbn [length str List.map]; [|lia].
    change (length (str "...")) with 3%nat. lia.
Qed.

(** ** Names across the two front ends *)

(** X19. The text file that [dump] writes for a part and the basename
    that the worker of the graphical interface uses for the same part lead
    to the same audio files: run on the dumped file, [TextToAudio.run]
    strips [".txt"] and arrives at [<basename>.wav] and [<basename>.opus],
    the paths it derives from the basename itself. *)
Theorem dumped_part_audio_paths (outDir title : pystr) (i : Z) :
  let basename := BookReader.partBasename outDir title i in
  TextToAudio.output_paths (basename ++ str ".txt")
  = TextToAudio.output_paths basename
  /\ TextToAudio.output_paths basename
     = (basename ++ str ".wav", basename ++ str ".opus").
Proof.
  intros basename. subst basename. rewrite output_paths_of_basename.
  split; [|reflexivity]. unfold TextToAudio.output_paths.
  rewrite endswith_app. change 4%nat with (length (str ".txt")).
  rewrite drop_last_app. reflexivity.
Qed.

Section Sanitizing.
Context {db : UnicodeDB}.

Local Abbreviation safe c :=
  (isalnum c || (c =? HYPHEN)%N || (c =? UNDERSCORE)%N).

Lemma map_safe_id (p : pystr) :
  Forall (fun c => safe c = true) p ->
  List.map (fun c => if safe c then c else UNDERSCORE) p = p.
Proof.
  induction 1 as [|c p Hc Hp IH]; [reflexivity|].
  cbn [List.map]. rewrite Hc, IH. reflexivity.
Qed.

(** X20. Sanitizing a title is idempotent: the sanitized title is not
    changed by sanitizing it again; and a title made of alphanumerics,
    hyphens and underscores that neither starts nor ends with white space
    is its own sanitized form.  The sanitized title is never longer than
    the title. *)
Theorem clean_filename_idempotent (title : pystr) :
  clean_filename [clean_filename [title]] = clean_filename [title]
  /\ (Forall (fun c => safe c = true) title -> Str.strip title = title ->
      clean_filename [title] = title)
  /\ (length (clean_filename [title]) <= length title)%nat.
Proof.
  unfold clean_filename. cbn [List.map Str.join].
  assert (Hfixed : forall p, Forall (fun c => safe c = true) p ->
                     clean_part p = Str.strip p).
  { intros p Hp. unfold clean_part. rewrite (map_safe_id p Hp). reflexivity. }
  split; [|split].
  - rewrite (Hfixed (clean_part title) (clean_part_chars title)).
    unfold clean_part. apply strip_strip.
  - intros Hsafe Hstrip. rewrite (Hfixed title Hsafe). exact Hstrip.
  - unfold clean_part.
    pose proof (strip_length
                  (List.map (fun c => if safe c then c else UNDERSCORE) title)) as H.
    rewrite length_map in H. exact H.
Qed.

End Sanitizing.

(** [clean_filename_idempotent] on ["My_Book_"], the sanitized form of
    ["My Book!"]. *)
Lemma clean_filename_idempotent_witness :
  @clean_filename ascii_db [str "My Book!"] = str "My_Book_"
  /\ @clean_filename ascii_db [str "My_Book_"] = str "My_Book_".
Proof.
  split; [reflexivity|].
  destruct (@clean_filename_idempotent ascii_db (str "My_Book_")) as (_ & Hfix & _).
  apply Hfix; [repeat constructor | reflexivity].
Defined.

(** ** The command line: a directory of text files *)
Section Directory.
Context {db : UnicodeDB} {ext : Externals}.




(** The files of the text file [stem ++ ".txt"] after the conversion: the
    compressed file is what the encoder wrote when it was given the wave
    file with the audio of the normalised text, and the wave file is
    gone. *)
Local Abbreviation converted args stem text files' :=
  (exists (files : gmap pystr file) (compressed : file),
      files !! (stem ++ str ".wav")
      = Some (WavFile (frames_of (chunks
          (kokoro (voice args) (speed args) (normalize text)))))
      /\ ffmpeg files
           (List.tl (TextToAudio.ffmpeg_cmd (stem ++ str ".wav")
                                            (stem ++ str ".opus")))
         = EncExit 0 (Some compressed)
      /\ files' !! (stem ++ str ".opus") = Some compressed
      /\ files' !! (stem ++ str ".wav") = None).

Section Conversion.
Variable args : cli_args.
Hypothesis engine_delivers : forall voice speed text,
  failure (kokoro voice speed text) = None.
Hypothesis encoder_succeeds : forall files args,
  exists compressed, ffmpeg files args = EncExit 0 (Some compressed).





End Conversion.
End Directory.

